(** * The asynchronous pipeline scheduler of haystack-experimental

    A shallow embedding of
    [src/haystack_experimental/core/pipeline/async_pipeline.py]:
    [AsyncPipeline._run_component], [AsyncPipeline._run_subgraph],
    [AsyncPipeline.run] and [run_async_pipeline].

    Conventions of the embedding.
    - A Python [dict] is an insertion-ordered association list ([dict V]):
      the scheduler iterates over dicts ([subgraph_output.items()], the
      keys of a component result), so their order is part of the behaviour.
    - A Python [Set[str]] (the two snapshots of the waiting queue) is a
      [gset string]; [==] on sets is equality of [gset]s.
    - Python integers ([visits], [max_runs_per_component]) are [Z].
    - The generator [run] is a state transformer over a [Heap] whose [log]
      records, newest first, what the run did: component invocations, the
      items it yielded, the entries into the progress check and the
      [RuntimeWarning]s. Exceptions are values of type [error]; the heap at
      the raise is kept.
    - The two [while] loops take a fuel argument; running out of fuel is an
      outcome of its own ([OutOfFuel]), distinct from returning.
    - What [async_pipeline.py] imports from the [haystack] package
      ([PipelineBase] methods, the queue helpers of
      [haystack.core.pipeline.base], the components themselves) is not part
      of this repository: it is a parameter ([Externals]) of every
      definition. *)

From Stdlib Require Import ZArith Lia.
From stdpp Require Import base list strings gmap.

Local Open Scope Z_scope.

(** ** Python dictionaries *)

Module Dict.

Definition dict (V : Type) : Type := list (string * V).

(** [d.get(k)] / [d[k]] ([None] where Python has no entry). *)
Fixpoint dget {V} (k : string) (d : dict V) : option V :=
  match d with
  | [] => None
  | (k', v) :: d' => if String.eqb k k' then Some v else dget k d'
  end.

(** [k in d] *)
Definition dmem {V} (k : string) (d : dict V) : bool :=
  match dget k d with Some _ => true | None => false end.

(** [d[k] = v]: an existing key keeps its position, a new one goes last. *)
Fixpoint dset {V} (k : string) (v : V) (d : dict V) : dict V :=
  match d with
  | [] => [(k, v)]
  | (k', v') :: d' =>
      if String.eqb k k' then (k', v) :: d' else (k', v') :: dset k v d'
  end.

(** [del d[k]] *)
Definition ddel {V} (k : string) (d : dict V) : dict V :=
  List.filter (fun p => negb (String.eqb k (fst p))) d.

(** [list(d.keys())] *)
Definition dkeys {V} (d : dict V) : list string := List.map fst d.

(** [list(d.values())] *)
Definition dvalues {V} (d : dict V) : list V := List.map snd d.

End Dict.
Export Dict.

(** [x in l] for a list of names. *)
Definition mem_str (x : string) (l : list string) : bool :=
  existsb (String.eqb x) l.

(** ** Data model *)

(** Socket values are opaque payloads; the scheduler itself only builds
    the empty list (variadic reset) and one-element lists (variadic
    default). [VEmpty] is the sentinel [_empty] that a socket without a
    default has as its [default_value]. *)
#[warnings="-register-all"]
Inductive value : Type :=
| VNone
| VEmpty
| VInt (n : Z)
| VStr (s : string)
| VList (l : list value).

Module InputSocket.
Record t : Type := mk {
  name : string;
  senders : list string;
  is_variadic : bool;
  default_value : value
}.
End InputSocket.

Module OutputSocket.
Record t : Type := mk {
  receivers : list string
}.
End OutputSocket.

(** What the scheduler reads of a component instance:
    [__haystack_input__._sockets_dict], [__haystack_output__._sockets_dict]
    and [__haystack_supports_async__]. *)
Record Component : Type := mkComponent {
  input_sockets : dict InputSocket.t;
  output_sockets : dict OutputSocket.t;
  supports_async : bool
}.

(** An entry of the run queue and of the waiting queue. *)
Definition pair : Type := (string * Component)%type.

Inductive error : Type :=
| PipelineMaxComponentRuns (name : string)
| PipelineRuntimeError (name : string)
| ComponentError (name : string)
| KeyError
| IndexError
| ValueError.

Inductive result (A : Type) : Type :=
| Ok (a : A)
| Err (e : error).
Arguments Ok {A} a.
Arguments Err {A} e.

(** What [instance.run] / [instance.run_async], called with the inputs as
    keyword arguments, gives back: a mapping, something that is not a
    mapping, or an exception of the component's own. *)
Inductive run_result : Type :=
| RMapping (res : dict value)
| RNotMapping (v : value)
| RRaise.

Inductive scope : Type := Main | Cycle.

Inductive event : Type :=
| EInvoke (name : string) (inputs : dict value)
| EYield (item : dict (dict value))
| EDrain (sc : scope)
| EWarn (sc : scope).

(** [self]: the graph's nodes with their instances, and the run budget. *)
Record AsyncPipeline : Type := mkPipeline {
  graph_nodes : dict Component;
  _max_runs_per_component : Z
}.

Section Scheduler.

(** [W] is the state of the component instances (they are Python objects
    and may keep state between invocations); [R] is the type of the items
    of [_find_receivers_from], of which the scheduler reads [item[0]], the
    receiver's name. *)
Context {W R : Type}.

(** The collaborators imported from the [haystack] package. Helpers that
    mutate their arguments in place return the new values. *)
Record Externals : Type := mkExternals {
  receiver_name : R -> string;
  run_async : W -> string -> dict value -> W * run_result;
  run_sync : W -> string -> dict value -> W * run_result;
  _is_lazy_variadic : Component -> bool;
  _enqueue_waiting_component : pair -> list pair -> list pair;
  _dequeue_waiting_component : pair -> list pair -> list pair;
  _enqueue_component : pair -> list pair -> list pair -> list pair * list pair;
  _dequeue_component : pair -> list pair -> list pair -> list pair * list pair;
  _component_has_enough_inputs_to_run : string -> dict (dict value) -> bool;
  _find_components_that_will_receive_no_input :
    string -> dict value -> dict (dict value) -> list pair;
  _find_receivers_from : string -> list R;
  _distribute_output :
    list R -> dict value -> dict (dict value) -> list pair -> list pair ->
    dict value * dict (dict value) * list pair * list pair;
  _is_stuck_in_a_loop : list pair -> bool;
  _find_next_runnable_lazy_variadic_or_default_component : list pair -> pair;
  _find_next_runnable_component : dict (dict value) -> list pair -> pair;
  _add_missing_input_defaults :
    string -> Component -> dict (dict value) -> dict (dict value)
}.

(** What a run mutates outside the locals of its loops. *)
Record Heap : Type := mkHeap {
  world : W;
  visits : dict Z;
  components_inputs : dict (dict value);
  log : list event
}.

Definition set_inputs (ci : dict (dict value)) (h : Heap) : Heap :=
  mkHeap (world h) (visits h) ci (log h).

Definition emit (e : event) (h : Heap) : Heap :=
  mkHeap (world h) (visits h) (components_inputs h) (e :: log h).

(** The items the consumer has received, oldest first. *)
Definition yields (h : Heap) : list (dict (dict value)) :=
  omap (fun e => match e with EYield item => Some item | _ => None end)
       (rev (log h)).

(** The components invoked, oldest first. *)
Definition invocations (h : Heap) : list string :=
  omap (fun e => match e with EInvoke n _ => Some n | _ => None end)
       (rev (log h)).

Context (E : Externals) (self : AsyncPipeline).

(** ** [_run_component] *)

(** Lines 128-131, the body of the loop over the declared input sockets:
    a socket whose name is a key of [inputs] and that is variadic is set to
    the empty list. *)
Definition reset_step (inputs : dict value) (socket : InputSocket.t)
  : dict value :=
  if dmem (InputSocket.name socket) inputs
  then if InputSocket.is_variadic socket
       then dset (InputSocket.name socket) (VList []) inputs
       else inputs
  else inputs.

(** Lines 127-131. *)
Definition reset_variadic (instance : Component) (inputs : dict value)
  : dict value :=
  fold_left reset_step (dvalues (input_sockets instance)) inputs.

(** [inputs] is [components_inputs[name]] at both call sites, so the
    in-place reset of line 131 is an update of the store at [name]. *)
Definition _run_component (name : string) (h : Heap)
  : Heap * result (dict value) :=
  match dget name (components_inputs h) with
  | None => (h, Err KeyError)
  | Some inputs =>
    match dget name (graph_nodes self) with
    | None => (h, Err KeyError)
    | Some instance =>
      let '(w', r) :=
        (if supports_async instance then run_async E else run_sync E)
          (world h) name inputs in
      match r with
      | RRaise =>
          (mkHeap w' (visits h) (components_inputs h) (log h),
           Err (ComponentError name))
      | _ =>
        match dget name (visits h) with
        | None => (mkHeap w' (visits h) (components_inputs h) (log h),
                   Err KeyError)
        | Some v =>
          let h1 :=
            mkHeap w'
                   (dset name (v + 1) (visits h))
                   (dset name (reset_variadic instance inputs)
                         (components_inputs h))
                   (EInvoke name inputs :: log h) in
          match r with
          | RMapping res => (h1, Ok res)
          | _ => (h1, Err (PipelineRuntimeError name))
          end
        end
      end
    end
  end.

(** ** Locals shared by the two loops *)

Record Queues : Type := mkQueues {
  run_queue : list pair;
  waiting_queue : list pair;
  before_last_waiting_queue : option (gset string);
  last_waiting_queue : option (gset string)
}.

(** How one pass through a loop body ends: the loop goes on ([Next], also
    for [continue]), [break]s ([Stop]), an exception leaves it ([Raised]),
    or the nested cycle ran out of fuel ([Starved]). With [Raised] the heap
    is the heap at the raise. *)
Inductive signal : Type :=
| Next
| Stop
| Raised (e : error)
| Starved.

(** How a loop ends: its condition became false ([Finished]), a [break]
    left it ([Stopped]), an exception did ([Failed]), or the fuel of the
    model ran out ([OutOfFuel]). *)
Inductive outcome : Type :=
| Finished
| Stopped
| Failed (e : error)
| OutOfFuel.

(** [for node in nodes: run_queue.append((node, self.graph.nodes[node]["instance"]))] *)
Fixpoint instances_of (nodes : list string) : result (list pair) :=
  match nodes with
  | [] => Ok []
  | node :: rest =>
      match dget node (graph_nodes self) with
      | None => Err KeyError
      | Some instance =>
          match instances_of rest with
          | Ok ps => Ok ((node, instance) :: ps)
          | Err e => Err e
          end
      end
  end.

(** [_is_lazy_variadic(comp) and not all(_is_lazy_variadic(comp) for _, comp in run_queue)]
    (lines 192 and 431), [run_queue] being the queue after the pop. *)
Definition lazy_variadic_deferred (comp : Component) (run_queue : list pair)
  : bool :=
  _is_lazy_variadic E comp
  && negb (forallb (fun p => _is_lazy_variadic E (snd p)) run_queue).

(** [{item[0] for item in waiting_queue}] *)
Definition waiting_names (waiting_queue : list pair) : gset string :=
  list_to_set (List.map fst waiting_queue).

(** Lines 284-289 and 533-538: shift the snapshots, pick the next
    component from the waiting queue and put it on the run queue. *)
Definition advance_waiting (h : Heap) (q : Queues) : Heap * Queues :=
  let before_last := last_waiting_queue q in
  let last := Some (waiting_names (waiting_queue q)) in
  let '(name, comp) :=
    _find_next_runnable_component E (components_inputs h) (waiting_queue q) in
  let ci := _add_missing_input_defaults E name comp (components_inputs h) in
  let '(rq, wq) :=
    _enqueue_component E (name, comp) (run_queue q) (waiting_queue q) in
  (set_inputs ci h, mkQueues rq wq before_last last).

(** Lines 279-282 and 528-531. *)
Definition force_waiting (h : Heap) (q : Queues) : Heap * Queues :=
  let '(name, comp) :=
    _find_next_runnable_lazy_variadic_or_default_component E (waiting_queue q) in
  let ci := _add_missing_input_defaults E name comp (components_inputs h) in
  let '(rq, wq) :=
    _enqueue_component E (name, comp) (run_queue q) (waiting_queue q) in
  (set_inputs ci h,
   mkQueues rq wq (before_last_waiting_queue q) (last_waiting_queue q)).

(** The progress check that ends the body of both loops (lines 261-289 and
    510-538, the same text). The boolean is [true] for [break]. *)
Definition progress_check (sc : scope) (h : Heap) (q : Queues)
  : bool * Heap * Queues :=
  if Nat.eqb (length (run_queue q)) 0 && Nat.ltb 0 (length (waiting_queue q))
  then
    let h := emit (EDrain sc) h in
    match before_last_waiting_queue q, last_waiting_queue q with
    | Some before_last, Some last =>
        if bool_decide (before_last = last) then
          if _is_stuck_in_a_loop E (waiting_queue q)
          then (true, emit (EWarn sc) h, q)
          else let '(h', q') := force_waiting h q in (false, h', q')
        else let '(h', q') := advance_waiting h q in (false, h', q')
    | _, _ => let '(h', q') := advance_waiting h q in (false, h', q')
    end
  else (false, h, q).

(** [for pair in self._find_components_that_will_receive_no_input(...):
       _dequeue_component(pair, run_queue, waiting_queue)] *)
Definition dequeue_all (pairs : list pair) (rq wq : list pair)
  : list pair * list pair :=
  fold_left (fun '(rq, wq) p => _dequeue_component E p rq wq) pairs (rq, wq).

(** ** [_run_subgraph] *)

(** [cycle.index(component_name)] *)
Fixpoint index_of (x : string) (l : list string) : option nat :=
  match l with
  | [] => None
  | y :: l' => if String.eqb x y then Some O else S <$> index_of x l'
  end.

(** Lines 175-177: the run queue a cycle starts with. *)
Definition seed_run_queue (cycle : list string) (component_name : string)
  : result (list pair) :=
  match index_of component_name cycle with
  | None => Err ValueError
  | Some start_index => instances_of (drop start_index cycle)
  end.

(** Lines 209-219, over the snapshot [sockets] of the keys. The dictionary
    is returned as it is when the loop ends or raises. *)
Fixpoint delete_cycle_inputs (cycle : list string) (comp : Component)
    (sockets : list string) (inputs : dict value)
  : dict value * option error :=
  match sockets with
  | [] => (inputs, None)
  | socket_name :: rest =>
      match dget socket_name (input_sockets comp) with
      | None => (inputs, Some KeyError)
      | Some socket =>
          match InputSocket.senders socket with
          | [] => delete_cycle_inputs cycle comp rest inputs
          | senders =>
              if forallb (fun sender => mem_str sender cycle) senders
              then delete_cycle_inputs cycle comp rest (ddel socket_name inputs)
              else delete_cycle_inputs cycle comp rest inputs
          end
      end
  end.

(** Lines 226-233: whether an output socket present in the result has a
    receiver inside the cycle. The keys are visited in order and the search
    stops at the first hit. *)
Fixpoint final_output_reached (comp : Component) (cycle : list string)
    (output_sockets_of_res : list string) : result bool :=
  match output_sockets_of_res with
  | [] => Ok false
  | output_socket :: rest =>
      match dget output_socket (output_sockets comp) with
      | None => Err KeyError
      | Some socket =>
          if existsb (fun receiver => mem_str receiver cycle)
                     (OutputSocket.receivers socket)
          then Ok true
          else final_output_reached comp cycle rest
      end
  end.

Record CycleState : Type := mkCycleState {
  c_heap : Heap;
  c_queues : Queues;
  subgraph_outputs : dict (dict value);
  cycle_received_inputs : bool
}.

(** What follows a successful [_run_component] in the cycle: lines 205-256,
    then the progress check. *)
Definition subgraph_after_run (cycle : list string) (name : string)
    (comp : Component) (res : dict value) (h1 : Heap) (rq wq : list pair)
    (before_last last : option (gset string))
    (outs : dict (dict value)) (received : bool)
  : signal * CycleState :=
  let h2 := emit (EYield [(name, res)]) h1 in
  let fail e h q := (Raised e, mkCycleState h q outs received) in
  let q := mkQueues rq wq before_last last in
  let q0 := mkQueues rq wq None None in
  match dget name (components_inputs h2) with
  | None => fail KeyError h2 q
  | Some inputs =>
    let '(inputs', oe) := delete_cycle_inputs cycle comp (dkeys inputs) inputs in
    let h3 := set_inputs (dset name inputs' (components_inputs h2)) h2 in
    match oe with
    | Some e => fail e h3 q
    | None =>
      match final_output_reached comp cycle (dkeys res) with
      | Err e => fail e h3 q0
      | Ok reached =>
        let received := if reached then received else true in
        let wq1 := _dequeue_waiting_component E (name, comp) wq in
        let '(rq2, wq2) :=
          dequeue_all
            (_find_components_that_will_receive_no_input E name res
               (components_inputs h3))
            rq wq1 in
        let receivers :=
          List.filter (fun item => mem_str (receiver_name E item) cycle)
                      (_find_receivers_from E name) in
        let '(res', ci, rq3, wq3) :=
          _distribute_output E receivers res (components_inputs h3) rq2 wq2 in
        let outs :=
          if Nat.ltb 0 (length res') then dset name res' outs else outs in
        let '(stop, h4, q4) :=
          progress_check Cycle (set_inputs ci h3) (mkQueues rq3 wq3 None None) in
        (if stop then Stop else Next, mkCycleState h4 q4 outs received)
      end
    end
  end.

(** One pass through the body of [while not cycle_received_inputs]
    (lines 190-289). *)
Definition subgraph_body (cycle : list string) (st : CycleState)
  : signal * CycleState :=
  let h := c_heap st in
  let q := c_queues st in
  let outs := subgraph_outputs st in
  let received := cycle_received_inputs st in
  match run_queue q with
  | [] => (Raised IndexError, st)
  | (name, comp) :: rq =>
    let before_last := before_last_waiting_queue q in
    let last := last_waiting_queue q in
    if lazy_variadic_deferred comp rq then
      (Next,
       mkCycleState h
         (mkQueues rq
            (_enqueue_waiting_component E (name, comp) (waiting_queue q))
            before_last last)
         outs received)
    else if _component_has_enough_inputs_to_run E name (components_inputs h)
    then
      let q0 := mkQueues rq (waiting_queue q) before_last last in
      match dget name (visits h) with
      | None => (Raised KeyError, mkCycleState h q0 outs received)
      | Some v =>
        if v >? _max_runs_per_component self
        then (Raised (PipelineMaxComponentRuns name),
              mkCycleState h q0 outs received)
        else
          match _run_component name h with
          | (h1, Err e) => (Raised e, mkCycleState h1 q0 outs received)
          | (h1, Ok res) =>
              subgraph_after_run cycle name comp res h1 rq (waiting_queue q)
                                 before_last last outs received
          end
      end
    else
      let '(stop, h', q') :=
        progress_check Cycle h
          (mkQueues rq
             (_enqueue_waiting_component E (name, comp) (waiting_queue q))
             before_last last) in
      (if stop then Stop else Next, mkCycleState h' q' outs received)
  end.

(** [while not cycle_received_inputs: ...] *)
Fixpoint subgraph_loop (cycle : list string) (fuel : nat) (st : CycleState)
  : outcome * CycleState :=
  if cycle_received_inputs st then (Finished, st)
  else
    match fuel with
    | O => (OutOfFuel, st)
    | S fuel' =>
        match subgraph_body cycle st with
        | (Next, st') => subgraph_loop cycle fuel' st'
        | (Stop, st') => (Stopped, st')
        | (Raised e, st') => (Failed e, st')
        | (Starved, st') => (OutOfFuel, st')
        end
    end.

(** The state the loop of [_run_subgraph] starts in (lines 171-187). *)
Definition subgraph_init (h : Heap) (run_queue : list pair) : CycleState :=
  mkCycleState h (mkQueues run_queue [] None None) [] false.

(** [_run_subgraph(cycle, component_name, components_inputs)]. The items
    yielded with [False] go to the log (the caller re-yields each at once);
    the one yielded last, with [True], is the returned dictionary. *)
Definition _run_subgraph (cycle : list string) (component_name : string)
    (fuel : nat) (h : Heap) : outcome * Heap * dict (dict value) :=
  match seed_run_queue cycle component_name with
  | Err e => (Failed e, h, [])
  | Ok rq =>
      let '(o, st) := subgraph_loop cycle fuel (subgraph_init h rq) in
      (o, c_heap st, subgraph_outputs st)
  end.

(** ** [run] *)

Record MainState : Type := mkMainState {
  m_heap : Heap;
  m_queues : Queues;
  final_outputs : dict (dict value)
}.

(** Lines 483-488, over the snapshot [sockets] of the keys. *)
Fixpoint delete_consumed_inputs (comp : Component) (sockets : list string)
    (inputs : dict value) : dict value * option error :=
  match sockets with
  | [] => (inputs, None)
  | socket_name :: rest =>
      match dget socket_name (input_sockets comp) with
      | None => (inputs, Some KeyError)
      | Some socket =>
          match InputSocket.senders socket with
          | [] => delete_consumed_inputs comp rest inputs
          | _ => delete_consumed_inputs comp rest (ddel socket_name inputs)
          end
      end
  end.

(** Lines 461-472: the outputs a cycle left for the wider graph are
    distributed, producer by producer, in the order of [subgraph_output]. *)
Definition distribute_subgraph_output (subgraph_output : dict (dict value))
    (ci : dict (dict value)) (rq wq : list pair) (finals : dict (dict value))
  : dict (dict value) * list pair * list pair * dict (dict value) :=
  fold_left
    (fun '(ci, rq, wq, finals) '(component_name, component_output) =>
       let receivers := _find_receivers_from E component_name in
       let '(component_output, ci, rq, wq) :=
         _distribute_output E receivers component_output ci rq wq in
       (ci, rq, wq,
        if Nat.ltb 0 (length component_output)
        then dset component_name component_output finals
        else finals))
    subgraph_output (ci, rq, wq, finals).

(** What follows a successful [_run_component] in the main loop:
    lines 480-505, then the progress check. *)
Definition main_after_run (name : string) (comp : Component)
    (res : dict value) (h1 : Heap) (rq wq : list pair)
    (before_last last : option (gset string))
    (finals : dict (dict value)) : signal * MainState :=
  let h2 := emit (EYield [(name, res)]) h1 in
  let fail e h q := (Raised e, mkMainState h q finals) in
  let q := mkQueues rq wq before_last last in
  match dget name (components_inputs h2) with
  | None => fail KeyError h2 q
  | Some inputs =>
    let '(inputs', oe) := delete_consumed_inputs comp (dkeys inputs) inputs in
    let h3 := set_inputs (dset name inputs' (components_inputs h2)) h2 in
    match oe with
    | Some e => fail e h3 q
    | None =>
      let wq1 := _dequeue_waiting_component E (name, comp) wq in
      let '(rq2, wq2) :=
        dequeue_all
          (_find_components_that_will_receive_no_input E name res
             (components_inputs h3))
          rq wq1 in
      let receivers := _find_receivers_from E name in
      let '(res', ci, rq3, wq3) :=
        _distribute_output E receivers res (components_inputs h3) rq2 wq2 in
      let finals :=
        if Nat.ltb 0 (length res') then dset name res' finals else finals in
      let '(stop, h4, q4) :=
        progress_check Main (set_inputs ci h3) (mkQueues rq3 wq3 None None) in
      (if stop then Stop else Next, mkMainState h4 q4 finals)
    end
  end.

(** One pass through the body of [while len(run_queue) > 0]
    (lines 429-538). [fuel] bounds the loop of a cycle run from here. *)
Definition main_body (components_in_cycles : dict (list (list string)))
    (fuel : nat) (st : MainState) : signal * MainState :=
  let h := m_heap st in
  let q := m_queues st in
  let finals := final_outputs st in
  match run_queue q with
  | [] => (Raised IndexError, st)
  | (name, comp) :: rq =>
    let before_last := before_last_waiting_queue q in
    let last := last_waiting_queue q in
    let q0 := mkQueues rq (waiting_queue q) before_last last in
    let ready := _component_has_enough_inputs_to_run E name (components_inputs h) in
    let cycles := default [] (dget name components_in_cycles) in
    if lazy_variadic_deferred comp rq then
      (Next,
       mkMainState h
         (mkQueues rq
            (_enqueue_waiting_component E (name, comp) (waiting_queue q))
            before_last last)
         finals)
    else
      match ready, cycles with
      | true, cycle :: _ =>
          match _run_subgraph cycle name fuel h with
          | (Failed e, h', _) => (Raised e, mkMainState h' q0 finals)
          | (OutOfFuel, h', _) => (Starved, mkMainState h' q0 finals)
          | (_, h', subgraph_output) =>
              let '(ci, rq', wq', finals') :=
                distribute_subgraph_output subgraph_output
                  (components_inputs h') [] (waiting_queue q) finals in
              let '(stop, h'', q'') :=
                progress_check Main (set_inputs ci h')
                               (mkQueues rq' wq' None None) in
              (if stop then Stop else Next, mkMainState h'' q'' finals')
          end
      | true, [] =>
          match dget name (visits h) with
          | None => (Raised KeyError, mkMainState h q0 finals)
          | Some v =>
            if v >? _max_runs_per_component self
            then (Raised (PipelineMaxComponentRuns name),
                  mkMainState h q0 finals)
            else
              match _run_component name h with
              | (h1, Err e) => (Raised e, mkMainState h1 q0 finals)
              | (h1, Ok res) =>
                  main_after_run name comp res h1 rq (waiting_queue q)
                                 before_last last finals
              end
          end
      | false, _ =>
          let '(stop, h', q') :=
            progress_check Main h
              (mkQueues rq
                 (_enqueue_waiting_component E (name, comp) (waiting_queue q))
                 before_last last) in
          (if stop then Stop else Next, mkMainState h' q' finals)
      end
  end.

(** [while len(run_queue) > 0: ...] (line 428) *)
Fixpoint main_loop (components_in_cycles : dict (list (list string)))
    (fuel : nat) (st : MainState) : outcome * MainState :=
  match run_queue (m_queues st) with
  | [] => (Finished, st)
  | _ :: _ =>
      match fuel with
      | O => (OutOfFuel, st)
      | S fuel' =>
          match main_body components_in_cycles fuel' st with
          | (Next, st') => main_loop components_in_cycles fuel' st'
          | (Stop, st') => (Stopped, st')
          | (Raised e, st') => (Failed e, st')
          | (Starved, st') => (OutOfFuel, st')
          end
      end
  end.

(** Lines 407-417: sockets that no component feeds and that the user left
    out get their declared default (wrapped in a list when variadic). *)
Definition set_default_inputs (ci : dict (dict value)) : dict (dict value) :=
  fold_left
    (fun ci '(name, comp) =>
       let ci := if dmem name ci then ci else dset name [] ci in
       fold_left
         (fun ci '(socket_name, socket) =>
            let inputs := default [] (dget name ci) in
            if dmem socket_name inputs then ci
            else
              match InputSocket.senders socket with
              | [] =>
                  let value := InputSocket.default_value socket in
                  let value :=
                    if InputSocket.is_variadic socket then VList [value]
                    else value in
                  dset name (dset socket_name value inputs) ci
              | _ => ci
              end)
         (input_sockets comp) ci)
    (graph_nodes self) ci.

(** [_init_graph]: the visits of every node start at 0. *)
Definition init_visits : dict Z :=
  List.map (fun '(name, _) => (name, 0)) (graph_nodes self).

(** The state the main loop starts in (lines 385-417): no snapshot, empty
    waiting queue and final outputs, visits at 0, defaults set. *)
Definition main_init (data : dict (dict value)) (run_queue : list pair)
    (w : W) : MainState :=
  mkMainState (mkHeap w init_visits (set_default_inputs data) [])
              (mkQueues run_queue [] None None) [].

(** [run(data)], from line 385 on: the loop, left by its condition or by
    the [break] of the stuck check, then [yield final_outputs] (line 540). What the calls before it compute is
    given: [data] is the normalised input ([_normalize_varidiac_input_data]),
    [topological_order] the order of the graph without its cycles and
    [components_in_cycles] the index of the cycles
    ([_break_supported_cycles_in_graph]). *)
Definition run (data : dict (dict value)) (topological_order : list string)
    (components_in_cycles : dict (list (list string)))
    (fuel : nat) (w : W) : outcome * MainState :=
  match instances_of topological_order with
  | Err e =>
      (Failed e,
       mkMainState (mkHeap w init_visits data []) (mkQueues [] [] None None) [])
  | Ok rq =>
      match main_loop components_in_cycles fuel (main_init data rq w) with
      | (Failed e, st) => (Failed e, st)
      | (OutOfFuel, st) => (OutOfFuel, st)
      | (_, st) =>
          (Finished,
           mkMainState (emit (EYield (final_outputs st)) (m_heap st))
                       (m_queues st) (final_outputs st))
      end
  end.

End Scheduler.

(** ** [run_async_pipeline] *)

(** Lines 571-573: the dictionary comprehension over all the items but the
    last; a later item overwrites an earlier one with the same key.
    [include_outputs_from] is [None] or a set of names. *)
Definition intermediate_outputs (outputs : list (dict (dict value)))
    (include_outputs_from : option (gset string)) : dict (dict value) :=
  fold_left
    (fun acc d =>
       fold_left
         (fun acc '(k, v) =>
            if match include_outputs_from with
               | None => true
               | Some names => bool_decide (k ∈ names)
               end
            then dset k v acc else acc)
         d acc)
    outputs [].

(** Lines 582-584: the keys of [output] that [inner] lacks are added. *)
Definition merge_missing (output inner : dict value) : dict value :=
  fold_left
    (fun inner '(k, v) => if dmem k inner then inner else dset k v inner)
    output inner.

(** Lines 577-584. [inner] is the very dictionary stored in
    [final_output], so filling it in updates [final_output]. *)
Definition accumulate (intermediate : dict (dict value))
    (final_output : dict (dict value)) : dict (dict value) :=
  fold_left
    (fun final_output '(name, output) =>
       match dget name final_output with
       | None => dset name output final_output
       | Some inner => dset name (merge_missing output inner) final_output
       end)
    intermediate final_output.

(** [run_async_pipeline], given the list [outputs] of the items the run
    yielded. [outputs[-1]] of an empty list raises [IndexError]. *)
Definition run_async_pipeline (outputs : list (dict (dict value)))
    (include_outputs_from : option (gset string))
  : result (dict (dict value)) :=
  match last outputs with
  | None => Err IndexError
  | Some final_output =>
      Ok (accumulate
            (intermediate_outputs (removelast outputs) include_outputs_from)
            final_output)
  end.

(** ** Vocabulary of the properties *)

(** Whether the main loop deletes the entry of socket [k] after a run
    (line 486): the socket has senders. *)
Definition has_senders (comp : Component) (k : string) : bool :=
  match dget k (input_sockets comp) with
  | Some socket =>
      match InputSocket.senders socket with [] => false | _ => true end
  | None => false
  end.

(** Whether the cycle deletes the entry of socket [k] after a run
    (lines 212-216): the socket has senders and all of them are in the
    cycle. *)
Definition all_senders_in_cycle (cycle : list string) (comp : Component)
    (k : string) : bool :=
  match dget k (input_sockets comp) with
  | Some socket =>
      match InputSocket.senders socket with
      | [] => false
      | senders => forallb (fun sender => mem_str sender cycle) senders
      end
  | None => false
  end.

(** No output socket present in [res] has a receiver inside the cycle. *)
Definition no_receiver_in_cycle (comp : Component) (cycle : list string)
    (res : dict value) : Prop :=
  forall output_socket, In output_socket (dkeys res) ->
    exists socket,
      dget output_socket (output_sockets comp) = Some socket
      /\ forall receiver, In receiver (OutputSocket.receivers socket) ->
                          ~ In receiver cycle.

(** The number of times the main loop has entered its progress check since
    the last invocation of a component, read off a log (newest first). *)
Fixpoint drains_since_run (log : list event) : nat :=
  match log with
  | [] => O
  | EInvoke _ _ :: _ => O
  | EDrain Main :: log' => S (drains_since_run log')
  | _ :: log' => drains_since_run log'
  end.

(** What the two snapshots say about the log: a snapshot that is defined
    was taken at a progress check since the last invocation, and the older
    one at an earlier check than the newer one. *)
Definition snapshots_bounded (log : list event) (q : Queues) : Prop :=
  (is_Some (before_last_waiting_queue q) -> (2 <= drains_since_run log)%nat)
  /\ (is_Some (last_waiting_queue q) -> (1 <= drains_since_run log)%nat).

(** Whether the filter of line 572 lets the key [k] through. *)
Definition included (include_outputs_from : option (gset string))
    (k : string) : bool :=
  match include_outputs_from with
  | None => true
  | Some names => bool_decide (k ∈ names)
  end.

(** Lines 571-573, the items of one yielded dictionary. *)
Definition add_items (include_outputs_from : option (gset string))
    (acc : dict (dict value)) (d : dict (dict value))
  : dict (dict value) :=
  fold_left
    (fun acc '(k, v) =>
       if included include_outputs_from k then dset k v acc else acc)
    d acc.

(** [components_inputs.get(name, {})]: the inputs held for a component,
    none when it has no entry. *)
Definition inputs_of (name : string) (ci : dict (dict value)) : dict value :=
  default [] (dget name ci).

(** The value that lines 414-417 store for a socket: its declared default,
    in a one-element list when the socket is variadic. *)
Definition default_input (socket : InputSocket.t) : value :=
  if InputSocket.is_variadic socket
  then VList [InputSocket.default_value socket]
  else InputSocket.default_value socket.

(** Lines 410-417, one pass of the loop over the input sockets of the
    component [name]. *)
Definition fill_socket (name : string) (ci : dict (dict value))
    (entry : string * InputSocket.t) : dict (dict value) :=
  let '(socket_name, socket) := entry in
  let inputs := default [] (dget name ci) in
  if dmem socket_name inputs then ci
  else
    match InputSocket.senders socket with
    | [] =>
        let value := InputSocket.default_value socket in
        let value :=
          if InputSocket.is_variadic socket then VList [value] else value in
        dset name (dset socket_name value inputs) ci
    | _ => ci
    end.

(** Lines 408-417, one pass of the loop over the nodes of the graph. *)
Definition fill_node (ci : dict (dict value)) (node : string * Component)
  : dict (dict value) :=
  let '(name, comp) := node in
  let ci := if dmem name ci then ci else dset name [] ci in
  fold_left (fill_socket name) (input_sockets comp) ci.

(** The visits as the check of lines 200 and 475 keeps them: none above
    the maximum by more than one. *)
Definition visits_bounded (self : AsyncPipeline) (visits : dict Z) : Prop :=
  forall name v, dget name visits = Some v ->
                 v <= _max_runs_per_component self + 1.

(** No entry of a dictionary of outputs is empty. *)
Definition no_empty_entry (outputs : dict (dict value)) : Prop :=
  forall name output, In (name, output) outputs -> output <> [].

(** The component that a pass found over its run budget, if the pass
    ended on that. *)
Definition signal_max_runs (sig : signal) : option string :=
  match sig with
  | Raised (PipelineMaxComponentRuns name) => Some name
  | _ => None
  end.

(** Whether a pass ended without an exception and with fuel left. *)
Definition signal_normal (sig : signal) : bool :=
  match sig with Next | Stop => true | _ => false end.

Definition outcome_max_runs (o : outcome) : option string :=
  match o with
  | Failed (PipelineMaxComponentRuns name) => Some name
  | _ => None
  end.

Definition outcome_normal (o : outcome) : bool :=
  match o with Finished | Stopped => true | _ => false end.

(** What a stretch of a run, from the heap [h] and the accumulated outputs
    [outs] to [h'] and [outs'], does and does not do:
    - it keeps the visits within the budget plus one;
    - when it ends on [PipelineMaxComponentRuns], the visits of the
      component named are above the budget;
    - it adds no empty entry to the outputs;
    - it only adds to what was yielded and to what was invoked, every new
      key of the outputs is the name of a component it invoked, and when
      it ends without an exception it yielded one item per invocation, in
      order, with the component's name as its only key. *)
Definition effects {W : Type} (self : AsyncPipeline)
    (max_runs : option string) (normal : bool) (h h' : @Heap W)
    (outs outs' : dict (dict value)) : Prop :=
  (visits_bounded self (visits h) -> visits_bounded self (visits h'))
  /\ (forall name, max_runs = Some name ->
        exists v, dget name (visits h') = Some v
                  /\ _max_runs_per_component self < v)
  /\ (no_empty_entry outs -> no_empty_entry outs')
  /\ exists ys ns,
       yields h' = yields h ++ ys
       /\ invocations h' = invocations h ++ ns
       /\ (forall n, In n (dkeys outs') -> In n (dkeys outs) \/ In n ns)
       /\ (normal = true ->
           List.map dkeys ys = List.map (fun n => [n]) ns).

(** ** Reference collaborators

    The helpers of the [haystack] package are not in this repository. The
    general results below hold for any [Externals]; concrete runs need
    concrete helpers, which this module gives. *)

Module Reference.

(** An item of [_find_receivers_from]: the receiver's name, the sender's
    output socket and the receiver's input socket. *)
Definition receiver : Type := (string * string * string)%type.

(** An edge of the graph: sender, its output socket, receiver, its input
    socket. *)
Definition edge : Type := (string * string * string * string)%type.

Section Ref.

Context (self : AsyncPipeline) (edges : list edge)
        (behaviour : string -> dict value -> run_result).

Definition in_queue (p : pair) (queue : list pair) : bool :=
  existsb (fun x => String.eqb (fst p) (fst x)) queue.

Definition remove (p : pair) (queue : list pair) : list pair :=
  List.filter (fun x => negb (String.eqb (fst p) (fst x))) queue.

(** Modelled from the spec: [_enqueue_waiting_component] of the haystack
    package, "push (name, comp) onto the waiting queue", whose "membership
    is a set; insertion order is preserved". *)
Definition enqueue_waiting (p : pair) (wq : list pair) : list pair :=
  if in_queue p wq then wq else wq ++ [p].

(** Modelled from the spec: [_dequeue_waiting_component] of the haystack
    package, "dequeue name from the waiting queue (idempotent)". *)
Definition dequeue_waiting (p : pair) (wq : list pair) : list pair :=
  remove p wq.

(** Modelled from the spec: [_enqueue_component] of the haystack package,
    "move it from the waiting queue to the run queue (preserving insertion
    order behind already-queued heads)". *)
Definition enqueue (p : pair) (rq wq : list pair) : list pair * list pair :=
  (if in_queue p rq then rq else rq ++ [p], remove p wq).

(** Modelled from the spec: [_dequeue_component] of the haystack package,
    "remove it from both queues". *)
Definition dequeue (p : pair) (rq wq : list pair) : list pair * list pair :=
  (remove p rq, remove p wq).

(** Modelled from the spec: [_is_lazy_variadic] of the haystack package,
    a component that "has at least one variadic input socket". *)
Definition is_lazy_variadic (comp : Component) : bool :=
  existsb InputSocket.is_variadic (dvalues (input_sockets comp)).

Definition has_default (socket : InputSocket.t) : bool :=
  match InputSocket.default_value socket with VEmpty => false | _ => true end.

Definition all_inputs_have_defaults (comp : Component) : bool :=
  forallb has_default (dvalues (input_sockets comp)).

(** Modelled from the spec: [_component_has_enough_inputs_to_run] of the
    haystack package, the readiness oracle of section 4.3: every input
    socket is present in the input store (a variadic socket that "holds a
    sequence" is present too). *)
Definition ready (name : string) (ci : dict (dict value)) : bool :=
  match dget name (graph_nodes self), dget name ci with
  | Some comp, Some inputs =>
      forallb (fun socket_name => dmem socket_name inputs)
              (dkeys (input_sockets comp))
  | _, _ => false
  end.

(** Modelled from the spec: [_find_receivers_from] of the haystack package,
    the outgoing edges of a component. *)
Definition find_receivers_from (name : string) : list receiver :=
  omap (fun '(c, s, d, t) =>
          if String.eqb c name then Some (d, s, t) else None)
       edges.

Definition socket_is_variadic (d t : string) : bool :=
  match dget d (graph_nodes self) with
  | Some comp =>
      match dget t (input_sockets comp) with
      | Some socket => InputSocket.is_variadic socket
      | None => false
      end
  | None => false
  end.

(** Modelled from the spec: [_distribute_output] of the haystack package,
    the Distributor of section 4.4: a value is appended to a variadic
    socket and set otherwise, a receiver that has become runnable is moved
    to the run queue, and the outputs without receivers are returned. *)
Definition distribute (receivers : list receiver) (res : dict value)
    (ci : dict (dict value)) (rq wq : list pair)
  : dict value * dict (dict value) * list pair * list pair :=
  let '(ci, rq, wq) :=
    fold_left
      (fun '(ci, rq, wq) '(d, s, t) =>
         match dget s res with
         | None => (ci, rq, wq)
         | Some v =>
             let inputs := default [] (dget d ci) in
             let v' :=
               if socket_is_variadic d t then
                 match dget t inputs with
                 | Some (VList l) => VList (l ++ [v])
                 | _ => VList [v]
                 end
               else v in
             let ci := dset d (dset t v' inputs) ci in
             match dget d (graph_nodes self) with
             | Some comp =>
                 if ready d ci
                 then let '(rq, wq) := enqueue (d, comp) rq wq in (ci, rq, wq)
                 else (ci, rq, wq)
             | None => (ci, rq, wq)
             end
         end)
      receivers (ci, rq, wq) in
  (List.filter
     (fun '(k, _) =>
        negb (existsb (fun '(_, s, _) => String.eqb s k) receivers))
     res,
   ci, rq, wq).

(** Modelled from the spec: [_find_components_that_will_receive_no_input]
    of the haystack package, the components that "will never receive
    further input" from the one that ran: the receivers of the output
    sockets that its result lacks. *)
Definition find_components_that_will_receive_no_input (name : string)
    (res : dict value) (ci : dict (dict value)) : list pair :=
  match dget name (graph_nodes self) with
  | None => []
  | Some instance =>
      flat_map
        (fun '(socket_name, socket) =>
           if dmem socket_name res then []
           else omap (fun r => (fun comp => (r, comp)) <$> dget r (graph_nodes self))
                     (OutputSocket.receivers socket))
        (output_sockets instance)
  end.

(** Modelled from the spec: [_is_stuck_in_a_loop] of the haystack package,
    "no waiting component can ever become ready": none of them is one that
    candidate selection (section 4.5.2) can force to run. *)
Definition is_stuck_in_a_loop (wq : list pair) : bool :=
  negb (existsb
          (fun p => is_lazy_variadic (snd p) || all_inputs_have_defaults (snd p))
          wq).

Definition no_pair : pair := (EmptyString, mkComponent [] [] false).

Definition first_such (f : pair -> bool) (wq : list pair) : option pair :=
  List.find f wq.

(** Modelled from the spec: [_find_next_runnable_lazy_variadic_or_default_component]
    of the haystack package, rules 2 and 3 of section 4.5.2; the spec names
    no choice when neither applies, the last entry is taken. *)
Definition find_next_lazy_or_default (wq : list pair) : pair :=
  match first_such (fun p => is_lazy_variadic (snd p)) wq with
  | Some p => p
  | None =>
      match first_such (fun p => all_inputs_have_defaults (snd p)) wq with
      | Some p => p
      | None => List.last wq no_pair
      end
  end.

(** Modelled from the spec: [_find_next_runnable_component] of the haystack
    package, candidate selection of section 4.5.2. *)
Definition find_next_runnable (ci : dict (dict value)) (wq : list pair)
  : pair :=
  match first_such (fun p => ready (fst p) ci) wq with
  | Some p => p
  | None => find_next_lazy_or_default wq
  end.

(** Modelled from the spec: [_add_missing_input_defaults] of the haystack
    package, [apply_defaults] of section 4.2: "fills missing sockets that
    have no sender with their declared default; variadic defaults are
    wrapped in a single-element sequence". *)
Definition add_missing_input_defaults (name : string) (comp : Component)
    (ci : dict (dict value)) : dict (dict value) :=
  fold_left
    (fun ci '(socket_name, socket) =>
       let inputs := default [] (dget name ci) in
       if dmem socket_name inputs then ci
       else
         match InputSocket.senders socket with
         | [] =>
             if has_default socket then
               let v := InputSocket.default_value socket in
               dset name
                    (dset socket_name
                          (if InputSocket.is_variadic socket then VList [v]
                           else v)
                          inputs)
                    ci
             else ci
         | _ => ci
         end)
    (input_sockets comp) ci.

(** The components of the examples keep no state. *)
Definition externals : Externals (W := unit) (R := receiver) :=
  mkExternals
    (fun item => fst (fst item))
    (fun w name inputs => (w, behaviour name inputs))
    (fun w name inputs => (w, behaviour name inputs))
    is_lazy_variadic
    enqueue_waiting
    dequeue_waiting
    enqueue
    dequeue
    ready
    find_components_that_will_receive_no_input
    find_receivers_from
    distribute
    is_stuck_in_a_loop
    find_next_lazy_or_default
    find_next_runnable
    add_missing_input_defaults.

End Ref.

End Reference.

(** ** Example pipelines *)

Module Examples.

Import Reference.

Definition input (name : string) (senders : list string) (default : value)
  : string * InputSocket.t :=
  (name, InputSocket.mk name senders false default).

Definition variadic_input (name : string) (senders : list string)
  : string * InputSocket.t :=
  (name, InputSocket.mk name senders true VEmpty).

Definition output (name : string) (receivers : list string)
  : string * OutputSocket.t :=
  (name, OutputSocket.mk receivers).

(** *** A component that feeds itself

    [a.out -> a.x]; [x] has a default, so the cycle is breakable. The
    component adds one to [x], forever. *)
Module SelfLoop.

Definition a : Component :=
  mkComponent [input "x" ["a"] (VInt 0)] [output "out" ["a"]] false.

Definition pipeline : AsyncPipeline := mkPipeline [("a", a)] 3.

Definition edges : list edge := [("a", "out", "a", "x")].

Definition behaviour (name : string) (inputs : dict value) : run_result :=
  match dget "x" inputs with
  | Some (VInt n) => RMapping [("out", VInt (n + 1))]
  | _ => RRaise
  end.

Definition E := externals pipeline edges behaviour.

Definition data : dict (dict value) := [("a", [("x", VInt 0)])].

Definition components_in_cycles : dict (list (list string)) :=
  [("a", [["a"]])].

Definition outcome_of_run (fuel : nat) : outcome * MainState :=
  run E pipeline data ["a"] components_in_cycles fuel tt.

(** A state of the main loop in which [a], outside any cycle, has been
    run three times and is at the head of the run queue again. *)
Definition at_max : MainState :=
  mkMainState (mkHeap tt [("a", 3)] data [])
              (mkQueues [("a", a)] [] None None) [].

End SelfLoop.

(** *** The linear chain of the docstring of [run]

    [hello.output -> hello2.word]. *)
Module Chain.

Definition hello : Component :=
  mkComponent [input "word" [] VEmpty] [output "output" ["hello2"]] false.

Definition hello2 : Component :=
  mkComponent [input "word" ["hello"] VEmpty] [output "output" []] false.

Definition pipeline : AsyncPipeline :=
  mkPipeline [("hello", hello); ("hello2", hello2)] 100.

Definition edges : list edge := [("hello", "output", "hello2", "word")].

Definition behaviour (name : string) (inputs : dict value) : run_result :=
  match dget "word" inputs with
  | Some (VStr w) => RMapping [("output", VStr ("Hello, " ++ w ++ "!"))]
  | _ => RRaise
  end.

Definition E := externals pipeline edges behaviour.

Definition data : dict (dict value) := [("hello", [("word", VStr "world")])].

Definition outcome_of_run (fuel : nat) : outcome * MainState :=
  run E pipeline data ["hello"; "hello2"] [] fuel tt.

End Chain.

(** *** A component that waits for an input that never comes

    [a.o1 -> z.p], [a.o2 -> b.i], [b.o -> z.q]; [a] produces [o1] only, so
    [b] never runs and [z] waits for [q]. *)
Module Stuck.

Definition a : Component :=
  mkComponent [input "x" [] VEmpty]
              [output "o1" ["z"]; output "o2" ["b"]] false.

Definition b : Component :=
  mkComponent [input "i" ["a"] VEmpty] [output "o" ["z"]] false.

Definition z : Component :=
  mkComponent [input "p" ["a"] VEmpty; input "q" ["b"] VEmpty]
              [output "r" []] false.

Definition pipeline : AsyncPipeline :=
  mkPipeline [("a", a); ("b", b); ("z", z)] 100.

Definition edges : list edge :=
  [("a", "o1", "z", "p"); ("a", "o2", "b", "i"); ("b", "o", "z", "q")].

Definition behaviour (name : string) (inputs : dict value) : run_result :=
  if String.eqb name "a" then RMapping [("o1", VInt 1)]
  else RMapping [("o", VInt 2); ("r", VInt 3)].

Definition E := externals pipeline edges behaviour.

Definition data : dict (dict value) := [("a", [("x", VInt 0)])].

Definition init : MainState :=
  main_init pipeline data [("a", a); ("b", b); ("z", z)] tt.

Definition outcome_of_run (fuel : nat) : outcome * MainState :=
  run E pipeline data ["a"; "b"; "z"] [] fuel tt.

End Stuck.

(** *** A cycle that gets stuck

    [a.out -> b.x], [b.out -> a.y] ([y] has a default), and [b] also needs
    [z] from a component [c] outside the cycle that has not run. *)
Module StuckCycle.

Definition a : Component :=
  mkComponent [input "y" ["b"] (VInt 0)] [output "out" ["b"]] false.

Definition b : Component :=
  mkComponent [input "x" ["a"] VEmpty; input "z" ["c"] VEmpty]
              [output "out" ["a"]] false.

Definition c : Component :=
  mkComponent [input "i" ["d"] VEmpty] [output "o" ["b"]] false.

Definition pipeline : AsyncPipeline :=
  mkPipeline [("a", a); ("b", b); ("c", c)] 100.

Definition edges : list edge :=
  [("a", "out", "b", "x"); ("b", "out", "a", "y"); ("c", "o", "b", "z")].

Definition behaviour (name : string) (inputs : dict value) : run_result :=
  RMapping [("out", VInt 1)].

Definition E := externals pipeline edges behaviour.

Definition cycle : list string := ["a"; "b"].

Definition heap : Heap :=
  mkHeap tt (init_visits pipeline) [("a", [("y", VInt 0)]); ("b", []); ("c", [])] [].

Definition init : CycleState :=
  subgraph_init heap [("a", a); ("b", b)].

End StuckCycle.

(** *** A cycle that ends

    [a.out -> a.x]; [a] sends [out] while [x < 2] and then [done], which
    has no receiver. *)
Module Countdown.

Definition a : Component :=
  mkComponent [input "x" ["a"] (VInt 0)]
              [output "out" ["a"]; output "done" []] false.

Definition pipeline : AsyncPipeline := mkPipeline [("a", a)] 100.

Definition edges : list edge := [("a", "out", "a", "x")].

Definition behaviour (name : string) (inputs : dict value) : run_result :=
  match dget "x" inputs with
  | Some (VInt n) =>
      if n <? 2 then RMapping [("out", VInt (n + 1))]
      else RMapping [("done", VInt n)]
  | _ => RRaise
  end.

Definition E := externals pipeline edges behaviour.

Definition cycle : list string := ["a"].

Definition heap : Heap :=
  mkHeap tt (init_visits pipeline) [("a", [("x", VInt 0)])] [].

Definition init : CycleState := subgraph_init heap [("a", a)].

End Countdown.

(** *** A variadic join

    [a.out -> j.in], [b.out -> j.in], [j.in] variadic. *)
Module Join.

Definition a : Component :=
  mkComponent [input "x" [] VEmpty] [output "out" ["j"]] false.

Definition j : Component :=
  mkComponent [variadic_input "in" ["a"; "b"]] [output "all" []] false.

Definition pipeline : AsyncPipeline :=
  mkPipeline [("a", a); ("b", a); ("j", j)] 100.

Definition edges : list edge :=
  [("a", "out", "j", "in"); ("b", "out", "j", "in")].

Definition behaviour (name : string) (inputs : dict value) : run_result :=
  if String.eqb name "j" then
    match dget "in" inputs with
    | Some v => RMapping [("all", v)]
    | None => RRaise
    end
  else
    match dget "x" inputs with
    | Some v => RMapping [("out", v)]
    | None => RRaise
    end.

Definition E := externals pipeline edges behaviour.

Definition heap : Heap :=
  mkHeap tt (init_visits pipeline)
         [("a", [("x", VInt 1)]); ("b", [("x", VInt 2)]); ("j", [])] [].

Definition data : dict (dict value) :=
  [("a", [("x", VInt 1)]); ("b", [("x", VInt 2)])].

(** [a] and [b] have run: [j] holds both values. *)
Definition heap_j : Heap :=
  mkHeap tt [("a", 1); ("b", 1); ("j", 0)]
         [("a", [("x", VInt 1)]); ("b", [("x", VInt 2)]);
          ("j", [("in", VList [VInt 1; VInt 2])])] [].

Definition outcome_of_run (fuel : nat) : outcome * MainState :=
  run E pipeline data ["a"; "b"; "j"] [] fuel tt.


End Join.

(** *** A cycle of three components *)
Module Triangle.

Definition node : Component := mkComponent [] [] false.

Definition pipeline : AsyncPipeline :=
  mkPipeline [("a", node); ("b", node); ("c", node)] 100.

Definition cycle : list string := ["a"; "b"; "c"].

End Triangle.

(** *** A component that breaks the contract

    [n] has a variadic input and returns a list instead of a mapping. *)
Module Broken.

Definition n : Component :=
  mkComponent [variadic_input "in" []; input "k" [] VEmpty]
              [output "out" []] false.

Definition pipeline : AsyncPipeline := mkPipeline [("n", n)] 100.

Definition behaviour (name : string) (inputs : dict value) : run_result :=
  RNotMapping (VList []).

Definition E := externals pipeline [] behaviour.

Definition inputs : dict value :=
  [("in", VList [VInt 1; VInt 2]); ("k", VInt 7)].

Definition heap : Heap := mkHeap tt [("n", 0)] [("n", inputs)] [].

End Broken.

(** *** Outputs of a run with a loop

    [a] ran twice and left a leaf output; [b] ran once and left none. *)
Module Stream.

Definition first_a : dict (dict value) :=
  [("a", [("out", VInt 1); ("log", VStr "one")])].

Definition of_b : dict (dict value) := [("b", [("mid", VInt 5)])].

Definition second_a : dict (dict value) :=
  [("a", [("out", VInt 2); ("done", VInt 9)])].

Definition final_output : dict (dict value) := [("a", [("done", VInt 0)])].

Definition outputs : list (dict (dict value)) :=
  [first_a; of_b; second_a; final_output].

End Stream.

(** *** A cycle of two components

    [a.out -> b.x], [b.out -> a.y]; [y] has a default, so the cycle is
    breakable. Each component adds one to what it receives, forever. *)
Module PingPong.

Definition a : Component :=
  mkComponent [input "y" ["b"] (VInt 0)] [output "out" ["b"]] false.

Definition b : Component :=
  mkComponent [input "x" ["a"] VEmpty] [output "out" ["a"]] false.

Definition pipeline : AsyncPipeline := mkPipeline [("a", a); ("b", b)] 3.

Definition edges : list edge :=
  [("a", "out", "b", "x"); ("b", "out", "a", "y")].

Definition behaviour (name : string) (inputs : dict value) : run_result :=
  match (if String.eqb name "a" then dget "y" inputs else dget "x" inputs) with
  | Some (VInt n) => RMapping [("out", VInt (n + 1))]
  | _ => RRaise
  end.

Definition E := externals pipeline edges behaviour.

Definition cycle : list string := ["a"; "b"].

(** The store when the cycle is entered at [a]: no input was given, and
    the default of [y] has been set. *)
Definition heap : Heap :=
  mkHeap tt (init_visits pipeline) [("a", [("y", VInt 0)]); ("b", [])] [].

End PingPong.

(** *** A cycle next to a component outside it

    [a.out -> j.in], [x.out -> j.in], [j.back -> a.y]; [j.in] is variadic.
    [a] and [j] form a cycle, [x] is outside it and feeds [j]. *)
Module Detour.

Definition a : Component :=
  mkComponent [input "u" [] VEmpty; input "y" ["j"] (VInt 0)]
              [output "out" ["j"]] false.

Definition x : Component :=
  mkComponent [input "u" [] VEmpty] [output "out" ["j"]] false.

Definition j : Component :=
  mkComponent [variadic_input "in" ["a"; "x"]]
              [output "all" []; output "back" ["a"]] false.

Definition pipeline : AsyncPipeline :=
  mkPipeline [("a", a); ("x", x); ("j", j)] 100.

Definition edges : list edge :=
  [("a", "out", "j", "in"); ("x", "out", "j", "in");
   ("j", "back", "a", "y")].

Definition behaviour (name : string) (inputs : dict value) : run_result :=
  if String.eqb name "j" then
    match dget "in" inputs with
    | Some v => RMapping [("all", v)]
    | None => RRaise
    end
  else
    match dget "u" inputs with
    | Some v => RMapping [("out", v)]
    | None => RRaise
    end.

Definition E := externals pipeline edges behaviour.

Definition components_in_cycles : dict (list (list string)) :=
  [("a", [["a"; "j"]]); ("j", [["a"; "j"]])].


End Detour.

(** *** A component with inputs of every origin

    [m] has an input [u] from the user, an input [f] fed by [p] and a
    variadic input [v] fed by [p] and [q]; [m.out -> p.i]. *)
Module Mixed.

Definition m : Component :=
  mkComponent [input "u" [] VEmpty; input "f" ["p"] VEmpty;
               variadic_input "v" ["p"; "q"]]
              [output "out" ["p"]] false.

Definition p : Component :=
  mkComponent [input "i" ["m"] VEmpty] [output "o" ["m"]] false.

Definition q : Component :=
  mkComponent [input "i" [] VEmpty] [output "o" ["m"]] false.

Definition pipeline : AsyncPipeline :=
  mkPipeline [("m", m); ("p", p); ("q", q)] 100.

Definition edges : list edge :=
  [("m", "out", "p", "i"); ("p", "o", "m", "f"); ("p", "o", "m", "v");
   ("q", "o", "m", "v")].

Definition behaviour (name : string) (inputs : dict value) : run_result :=
  RMapping [(if String.eqb name "m" then "out" else "o", VInt 1)].

Definition E := externals pipeline edges behaviour.

Definition inputs : dict value :=
  [("u", VInt 1); ("f", VInt 2); ("v", VList [VInt 3; VInt 4])].

Definition heap : Heap :=
  mkHeap tt (init_visits pipeline) [("m", inputs); ("p", []); ("q", [])] [].

Definition cycle : list string := ["m"; "p"].

(** The main loop and the sub-scheduler of [cycle] about to run [m]. *)
Definition main_start : MainState :=
  mkMainState heap (mkQueues [("m", m)] [] None None) [].

Definition cycle_start : CycleState :=
  mkCycleState heap (mkQueues [("m", m)] [] None None) [] false.

End Mixed.

End Examples.

(** * Properties *)

(** ** Dictionaries *)

Lemma dget_dset_eq {V} (k : string) (v : V) (d : dict V) :
  dget k (dset k v d) = Some v.
Proof.
  induction d as [|[k' v'] d IH]; simpl.
  - by rewrite String.eqb_refl.
  - destruct (String.eqb k k') eqn:Hk; simpl; rewrite Hk; auto.
Qed.

Lemma dget_dset_ne {V} (k k' : string) (v : V) (d : dict V) :
  k <> k' -> dget k' (dset k v d) = dget k' d.
Proof.
  intros Hne. induction d as [|[k0 v0] d IH]; simpl.
  - destruct (String.eqb_spec k' k); congruence.
  - destruct (String.eqb_spec k k0) as [->|]; simpl.
    + destruct (String.eqb_spec k' k0); congruence.
    + by rewrite IH.
Qed.

Lemma dget_ddel_eq {V} (k : string) (d : dict V) : dget k (ddel k d) = None.
Proof.
  induction d as [|[k' v'] d IH]; simpl; [done|].
  destruct (String.eqb k k') eqn:Hk; simpl; [done|]. by rewrite Hk.
Qed.

Lemma dget_ddel_ne {V} (k k' : string) (d : dict V) :
  k <> k' -> dget k' (ddel k d) = dget k' d.
Proof.
  intros Hne. induction d as [|[k0 v0] d IH]; simpl; [done|].
  destruct (String.eqb_spec k k0) as [->|]; simpl.
  - destruct (String.eqb_spec k' k0); congruence.
  - by rewrite IH.
Qed.

Lemma dget_In_keys {V} (k : string) (d : dict V) :
  is_Some (dget k d) <-> In k (dkeys d).
Proof.
  induction d as [|[k' v'] d IH]; simpl.
  - split; [by intros [? ?]|done].
  - destruct (String.eqb_spec k k') as [->|Hne].
    + split; eauto.
    + rewrite IH. split; [auto|]. intros [?|?]; [congruence|done].
Qed.

Lemma dmem_true {V} (k : string) (d : dict V) :
  dmem k d = true <-> is_Some (dget k d).
Proof.
  unfold dmem. destruct (dget k d); split; eauto; try done.
Qed.

Lemma dkeys_dset_mem {V} (k : string) (v : V) (d : dict V) :
  dmem k d = true -> dkeys (dset k v d) = dkeys d.
Proof.
  unfold dmem. induction d as [|[k' v'] d IH]; simpl; [done|].
  destruct (String.eqb_spec k k') as [->|Hne]; simpl; [done|].
  intros H. by rewrite IH.
Qed.

Lemma mem_str_In (x : string) (l : list string) :
  mem_str x l = true <-> In x l.
Proof.
  unfold mem_str. rewrite existsb_exists. split.
  - intros (y & Hy & Heq). apply String.eqb_eq in Heq. by subst.
  - intros H. exists x. by rewrite String.eqb_refl.
Qed.

(** ** The run queue a cycle starts with (C3) *)

Lemma index_of_spec (x : string) (l : list string) :
  In x l ->
  exists i, index_of x l = Some i
            /\ head (drop i l) = Some x
            /\ ~ In x (take i l).
Proof.
  induction l as [|y l IH]; simpl; [done|].
  intros Hin. destruct (String.eqb_spec x y) as [->|Hne].
  - exists O. simpl. auto.
  - destruct Hin as [?|Hin]; [congruence|].
    destruct (IH Hin) as (i & -> & Hhd & Hnot).
    exists (S i). simpl. split; [done|]. split; [done|].
    intros [?|?]; [congruence|done].
Qed.

Lemma instances_of_spec (self : AsyncPipeline) (nodes : list string) :
  (forall node, In node nodes -> is_Some (dget node (graph_nodes self))) ->
  exists rq, instances_of self nodes = Ok rq
             /\ List.map fst rq = nodes
             /\ forall node comp, In (node, comp) rq ->
                                  dget node (graph_nodes self) = Some comp.
Proof.
  induction nodes as [|node nodes IH]; simpl; intros Hall.
  - exists []. by simpl.
  - destruct (Hall node) as [comp Hcomp]; [by left|].
    destruct IH as (rq & Hrq & Hmap & Hin); [by auto|].
    rewrite Hcomp, Hrq. exists ((node, comp) :: rq). simpl.
    split; [done|]. split; [by rewrite Hmap|].
    intros n c [Heq|H]; [by inversion Heq; subst|by auto].
Qed.

(** C3, as the code has it: the run queue of the cycle sub-scheduler starts
    with the suffix of the cycle that begins at the first occurrence of
    [component_name]. Its head is [component_name], the components follow in
    the order of the cycle, each with its instance; the components that
    precede [component_name] in the cycle are not put on the queue. *)
Theorem seed_run_queue_is_suffix (self : AsyncPipeline)
    (cycle : list string) (component_name : string) :
  In component_name cycle ->
  (forall node, In node cycle -> is_Some (dget node (graph_nodes self))) ->
  exists start_index rq,
    index_of component_name cycle = Some start_index
    /\ seed_run_queue self cycle component_name = Ok rq
    /\ List.map fst rq = drop start_index cycle
    /\ cycle = take start_index cycle ++ List.map fst rq
    /\ head (List.map fst rq) = Some component_name
    /\ ~ In component_name (take start_index cycle)
    /\ forall node comp, In (node, comp) rq ->
                         dget node (graph_nodes self) = Some comp.
Proof.
  intros Hin Hall.
  destruct (index_of_spec _ _ Hin) as (i & Hi & Hhd & Hnot).
  destruct (instances_of_spec self (drop i cycle)) as (rq & Hrq & Hmap & Hrqin).
  { intros node Hnode. apply Hall.
    rewrite <- (take_drop i cycle). apply in_or_app. by right. }
  exists i, rq. unfold seed_run_queue. rewrite Hi, Hrq, Hmap.
  repeat split; auto. by rewrite take_drop.
Qed.

Lemma seed_run_queue_is_suffix_witness :
  exists start_index rq,
    index_of "b" Examples.Triangle.cycle = Some start_index
    /\ seed_run_queue Examples.Triangle.pipeline Examples.Triangle.cycle "b"
       = Ok rq
    /\ List.map fst rq = drop start_index Examples.Triangle.cycle
    /\ Examples.Triangle.cycle
       = take start_index Examples.Triangle.cycle ++ List.map fst rq
    /\ head (List.map fst rq) = Some "b"
    /\ ~ In "b" (take start_index Examples.Triangle.cycle)
    /\ forall node comp, In (node, comp) rq ->
         dget node (graph_nodes Examples.Triangle.pipeline) = Some comp.
Proof.
  apply (seed_run_queue_is_suffix Examples.Triangle.pipeline
           Examples.Triangle.cycle "b").
  - simpl. auto.
  - intros node Hnode. simpl in Hnode.
    destruct Hnode as [<-|[<-|[<-|[]]]]; vm_compute; eauto.
Defined.

(** The cycle [a, b, c] entered at [b]: the queue is [b, c], not the
    rotation [b, c, a]; [a] is not on it. *)
Lemma seed_run_queue_not_a_rotation :
  exists rq,
    seed_run_queue Examples.Triangle.pipeline ["a"; "b"; "c"] "b" = Ok rq
    /\ List.map fst rq = ["b"; "c"]
    /\ List.map fst rq <> ["b"; "c"; "a"]
    /\ ~ In "a" (List.map fst rq).
Proof.
  eexists. split; [vm_compute; reflexivity|]. simpl.
  split; [done|]. split; [done|].
  intros [H|[H|[]]]; discriminate H.
Qed.

(** ** The run budget (C1) *)

(** C1 at the self-looping cycle with [max_runs_per_component = 3]: the
    check of lines 200 and 475 is [visits > max], so the component runs
    four times and the fifth attempt raises [PipelineMaxComponentRuns],
    with [visits] at 4. In the main loop as well, a component whose visits
    equal the maximum is invoked once more. The same holds in the cycle of
    two components [a <-> b] entered at [a]: each of them runs four times
    before the fifth attempt at [a] raises. *)
Theorem self_loop_runs_four_times :
  _max_runs_per_component Examples.SelfLoop.pipeline = 3
  /\ fst (Examples.SelfLoop.outcome_of_run 10)
     = Failed (PipelineMaxComponentRuns "a")
  /\ invocations (m_heap (snd (Examples.SelfLoop.outcome_of_run 10)))
     = ["a"; "a"; "a"; "a"]
  /\ dget "a" (visits (m_heap (snd (Examples.SelfLoop.outcome_of_run 10))))
     = Some 4
  /\ yields (m_heap (snd (Examples.SelfLoop.outcome_of_run 10)))
     = [[("a", [("out", VInt 1)])]; [("a", [("out", VInt 2)])];
        [("a", [("out", VInt 3)])]; [("a", [("out", VInt 4)])]]
  /\ dget "a" (visits (m_heap Examples.SelfLoop.at_max)) = Some 3
  /\ fst (main_body Examples.SelfLoop.E Examples.SelfLoop.pipeline [] 0
                    Examples.SelfLoop.at_max) = Next
  /\ invocations
       (m_heap (snd (main_body Examples.SelfLoop.E Examples.SelfLoop.pipeline
                               [] 0 Examples.SelfLoop.at_max)))
     = ["a"]
  /\ _max_runs_per_component Examples.PingPong.pipeline = 3
  /\ (let '(o, h, _) :=
         _run_subgraph Examples.PingPong.E Examples.PingPong.pipeline
                       Examples.PingPong.cycle "a" 20 Examples.PingPong.heap in
       o = Failed (PipelineMaxComponentRuns "a")
       /\ invocations h = ["a"; "b"; "a"; "b"; "a"; "b"; "a"; "b"]
       /\ visits h = [("a", 4); ("b", 4)]).
Proof. vm_compute. repeat split; reflexivity. Qed.

(** ** [run_async_pipeline] (C2) *)

(** With the empty set the comprehension of lines 571-573 keeps nothing. *)
Lemma intermediate_outputs_empty_set (outputs : list (dict (dict value))) :
  intermediate_outputs outputs (Some ∅) = [].
Proof.
  unfold intermediate_outputs.
  assert (Hitem : forall d : dict (dict value),
            fold_left
              (fun acc '(k, v) =>
                 if bool_decide (k ∈ (∅ : gset string))
                 then dset k v acc else acc)
              d [] = []).
  { intros d. induction d as [|[k v] d IH]; simpl in *; done. }
  induction outputs as [|d outputs IH]; simpl; [done|].
  by rewrite Hitem.
Qed.

(** With the empty set [run_async_pipeline] returns the last item as it
    is: the final outputs of the run. *)
Lemma run_async_pipeline_empty_set (outputs : list (dict (dict value)))
    (final_output : dict (dict value)) :
  last outputs = Some final_output ->
  run_async_pipeline outputs (Some ∅) = Ok final_output.
Proof.
  intros Hlast. unfold run_async_pipeline.
  by rewrite Hlast, intermediate_outputs_empty_set.
Qed.

(** C2 at the linear chain with [include_outputs_from = None]: the filter
    of line 572 lets every intermediate output through, so the output of
    [hello], which is no leaf, is added to the returned dictionary; it is
    left out when [include_outputs_from] is the empty set. *)
Theorem run_async_pipeline_none_includes_all :
  let outputs := yields (m_heap (snd (Examples.Chain.outcome_of_run 10))) in
  let leaf := [("hello2", [("output", VStr "Hello, Hello, world!!")])] in
  fst (Examples.Chain.outcome_of_run 10) = Finished
  /\ last outputs = Some leaf
  /\ run_async_pipeline outputs None
     = Ok [("hello2", [("output", VStr "Hello, Hello, world!!")]);
           ("hello", [("output", VStr "Hello, world!")])]
  /\ run_async_pipeline outputs None <> Ok leaf
  /\ run_async_pipeline outputs (Some ∅) = Ok leaf.
Proof.
  vm_compute. repeat split; try reflexivity. intros H. discriminate H.
Qed.

(** ** The reset of the variadic inputs (lines 127-131) *)

Section ResetVariadic.

Lemma reset_step_keys (inputs : dict value) (socket : InputSocket.t) :
  dkeys (reset_step inputs socket) = dkeys inputs.
Proof.
  unfold reset_step.
  destruct (dmem _ inputs) eqn:Hmem; [|done].
  destruct (InputSocket.is_variadic socket); [|done].
  by apply dkeys_dset_mem.
Qed.

Lemma reset_fold_keys (sockets : list InputSocket.t) (inputs : dict value) :
  dkeys (fold_left reset_step sockets inputs) = dkeys inputs.
Proof.
  revert inputs. induction sockets as [|s sockets IH]; intros inputs; simpl.
  - done.
  - by rewrite IH, reset_step_keys.
Qed.

Lemma dmem_same_keys {V} (k : string) (d d' : dict V) :
  dkeys d = dkeys d' -> dmem k d = dmem k d'.
Proof.
  intros Hk.
  destruct (dmem k d) eqn:H1, (dmem k d') eqn:H2; try done.
  - apply dmem_true, dget_In_keys in H1. rewrite Hk in H1.
    apply dget_In_keys, dmem_true in H1. congruence.
  - apply dmem_true, dget_In_keys in H2. rewrite <- Hk in H2.
    apply dget_In_keys, dmem_true in H2. congruence.
Qed.

Lemma reset_step_keeps_empty (k : string) (inputs : dict value)
    (socket : InputSocket.t) :
  dget k inputs = Some (VList []) ->
  dget k (reset_step inputs socket) = Some (VList []).
Proof.
  intros Hk. unfold reset_step.
  destruct (dmem _ inputs); [|done].
  destruct (InputSocket.is_variadic socket); [|done].
  destruct (String.eqb_spec (InputSocket.name socket) k) as [<-|Hne].
  - apply dget_dset_eq.
  - by rewrite dget_dset_ne.
Qed.

Lemma reset_fold_keeps_empty (k : string) (sockets : list InputSocket.t)
    (inputs : dict value) :
  dget k inputs = Some (VList []) ->
  dget k (fold_left reset_step sockets inputs) = Some (VList []).
Proof.
  revert inputs. induction sockets as [|s sockets IH]; intros inputs Hk; simpl.
  - done.
  - by apply IH, reset_step_keeps_empty.
Qed.

(** A variadic socket whose name is a key of the inputs holds the empty
    list after the reset. *)
Lemma reset_fold_variadic (sockets : list InputSocket.t) (inputs : dict value)
    (socket : InputSocket.t) :
  In socket sockets ->
  InputSocket.is_variadic socket = true ->
  dmem (InputSocket.name socket) inputs = true ->
  dget (InputSocket.name socket) (fold_left reset_step sockets inputs)
  = Some (VList []).
Proof.
  revert inputs.
  induction sockets as [|s sockets IH]; intros inputs Hin Hvar Hmem; simpl.
  - done.
  - destruct Hin as [->|Hin].
    + apply reset_fold_keeps_empty. unfold reset_step.
      rewrite Hmem, Hvar. apply dget_dset_eq.
    + apply IH; [done|done|].
      by rewrite (dmem_same_keys _ _ inputs) by apply reset_step_keys.
Qed.

(** A key that is the name of no variadic socket keeps its value. *)
Lemma reset_fold_other (sockets : list InputSocket.t) (inputs : dict value)
    (k : string) :
  (forall socket, In socket sockets ->
                  InputSocket.is_variadic socket = true ->
                  InputSocket.name socket <> k) ->
  dget k (fold_left reset_step sockets inputs) = dget k inputs.
Proof.
  revert inputs. induction sockets as [|s sockets IH]; intros inputs H; simpl.
  - done.
  - rewrite IH by (intros; apply H; [by right|done]).
    unfold reset_step. destruct (dmem _ inputs); [|done].
    destruct (InputSocket.is_variadic s) eqn:Hvar; [|done].
    apply dget_dset_ne, H; [by left|done].
Qed.

End ResetVariadic.

(** ** A result that is not a mapping (C10) *)

(** C10: when the component returns something that is not a mapping,
    [_run_component] raises [PipelineRuntimeError], and at the raise the
    visits of the component have been incremented and its variadic inputs
    have been reset to the empty list: the invocation counts as a visit. *)
Theorem not_a_mapping_is_raised_after_the_visit
    {W R : Type} (E : @Externals W R) (self : AsyncPipeline)
    (name : string) (h : Heap) (inputs : dict value) (instance : Component)
    (v : Z) (w' : W) (bad : value) :
  dget name (components_inputs h) = Some inputs ->
  dget name (graph_nodes self) = Some instance ->
  dget name (visits h) = Some v ->
  (if supports_async instance then run_async E else run_sync E)
    (world h) name inputs = (w', RNotMapping bad) ->
  exists h',
    _run_component E self name h = (h', Err (PipelineRuntimeError name))
    /\ dget name (visits h') = Some (v + 1)
    /\ dget name (components_inputs h') = Some (reset_variadic instance inputs)
    /\ (forall socket,
          In socket (dvalues (input_sockets instance)) ->
          InputSocket.is_variadic socket = true ->
          dmem (InputSocket.name socket) inputs = true ->
          dget (InputSocket.name socket) (reset_variadic instance inputs)
          = Some (VList []))
    /\ invocations h' = invocations h ++ [name].
Proof.
  intros Hin Hinst Hv Hrun. unfold _run_component.
  rewrite Hin, Hinst, Hrun, Hv. eexists. split; [reflexivity|]. simpl.
  split; [apply dget_dset_eq|]. split; [apply dget_dset_eq|].
  split.
  - intros socket Hs Hvar Hmem. by apply reset_fold_variadic.
  - unfold invocations. simpl. by rewrite omap_app.
Qed.

Lemma not_a_mapping_is_raised_after_the_visit_witness :
  exists h',
    _run_component Examples.Broken.E Examples.Broken.pipeline "n"
                   Examples.Broken.heap
    = (h', Err (PipelineRuntimeError "n"))
    /\ dget "n" (visits h') = Some (0 + 1)
    /\ dget "n" (components_inputs h')
       = Some (reset_variadic Examples.Broken.n Examples.Broken.inputs)
    /\ (forall socket,
          In socket (dvalues (input_sockets Examples.Broken.n)) ->
          InputSocket.is_variadic socket = true ->
          dmem (InputSocket.name socket) Examples.Broken.inputs = true ->
          dget (InputSocket.name socket)
               (reset_variadic Examples.Broken.n Examples.Broken.inputs)
          = Some (VList []))
    /\ invocations h' = invocations Examples.Broken.heap ++ ["n"].
Proof.
  apply (not_a_mapping_is_raised_after_the_visit
           Examples.Broken.E Examples.Broken.pipeline "n" Examples.Broken.heap
           Examples.Broken.inputs Examples.Broken.n 0 tt (VList []));
    reflexivity.
Defined.

(** ** The deletion loops *)

Lemma delete_cycle_inputs_spec (cycle : list string) (comp : Component)
    (sockets : list string) (inputs : dict value) :
  (forall k, In k sockets -> is_Some (dget k (input_sockets comp))) ->
  exists inputs',
    delete_cycle_inputs cycle comp sockets inputs = (inputs', None)
    /\ forall k,
         dget k inputs'
         = if mem_str k sockets && all_senders_in_cycle cycle comp k
           then None else dget k inputs.
Proof.
  revert inputs.
  induction sockets as [|s sockets IH]; intros inputs Hdecl; simpl.
  - exists inputs. split; [done|]. intros k. done.
  - destruct (Hdecl s) as [socket Hs]; [by left|]. rewrite Hs.
    assert (Hrest : forall k, In k sockets ->
                              is_Some (dget k (input_sockets comp)))
      by (intros; apply Hdecl; by right).
    assert (Hhead : forall k cond rest,
              all_senders_in_cycle cycle comp s = cond ->
              (if rest && all_senders_in_cycle cycle comp k
               then None
               else dget k (if cond then ddel s inputs else inputs))
              = if (String.eqb k s || rest)
                   && all_senders_in_cycle cycle comp k
                then None else dget k inputs).
    { intros k cond rest Hcond.
      destruct (String.eqb_spec k s) as [->|Hne]; simpl.
      - rewrite Hcond. destruct cond; simpl.
        + rewrite dget_ddel_eq. by destruct rest.
        + by rewrite andb_false_r.
      - destruct cond; [|done]. rewrite dget_ddel_ne by congruence. done. }
    unfold all_senders_in_cycle in Hhead at 1. rewrite Hs in Hhead.
    destruct (InputSocket.senders socket) as [|sender senders] eqn:Hsenders.
    + destruct (IH inputs Hrest) as (inputs' & -> & Hget).
      exists inputs'. split; [done|]. intros k.
      rewrite Hget. by apply (Hhead k false).
    + destruct (forallb _ (sender :: senders)) eqn:Hall;
        simpl in Hall; rewrite Hall.
      * destruct (IH (ddel s inputs) Hrest) as (inputs' & -> & Hget).
        exists inputs'. split; [done|]. intros k.
        rewrite Hget. by apply (Hhead k true).
      * destruct (IH inputs Hrest) as (inputs' & -> & Hget).
        exists inputs'. split; [done|]. intros k.
        rewrite Hget. by apply (Hhead k false).
Qed.

Lemma delete_consumed_inputs_spec (comp : Component)
    (sockets : list string) (inputs : dict value) :
  (forall k, In k sockets -> is_Some (dget k (input_sockets comp))) ->
  exists inputs',
    delete_consumed_inputs comp sockets inputs = (inputs', None)
    /\ forall k,
         dget k inputs'
         = if mem_str k sockets && has_senders comp k
           then None else dget k inputs.
Proof.
  revert inputs.
  induction sockets as [|s sockets IH]; intros inputs Hdecl; simpl.
  - exists inputs. split; [done|]. intros k. done.
  - destruct (Hdecl s) as [socket Hs]; [by left|]. rewrite Hs.
    assert (Hrest : forall k, In k sockets ->
                              is_Some (dget k (input_sockets comp)))
      by (intros; apply Hdecl; by right).
    assert (Hhead : forall k cond rest,
              has_senders comp s = cond ->
              (if rest && has_senders comp k
               then None
               else dget k (if cond then ddel s inputs else inputs))
              = if (String.eqb k s || rest) && has_senders comp k
                then None else dget k inputs).
    { intros k cond rest Hcond.
      destruct (String.eqb_spec k s) as [->|Hne]; simpl.
      - rewrite Hcond. destruct cond; simpl.
        + rewrite dget_ddel_eq. by destruct rest.
        + by rewrite andb_false_r.
      - destruct cond; [|done]. rewrite dget_ddel_ne by congruence. done. }
    unfold has_senders in Hhead at 1. rewrite Hs in Hhead.
    destruct (InputSocket.senders socket) as [|sender senders] eqn:Hsenders.
    + destruct (IH inputs Hrest) as (inputs' & -> & Hget).
      exists inputs'. split; [done|]. intros k.
      rewrite Hget. by apply (Hhead k false).
    + destruct (IH (ddel s inputs) Hrest) as (inputs' & -> & Hget).
      exists inputs'. split; [done|]. intros k.
      rewrite Hget. by apply (Hhead k true).
Qed.

Lemma all_senders_in_cycle_true (cycle : list string) (comp : Component)
    (k : string) (socket : InputSocket.t) :
  dget k (input_sockets comp) = Some socket ->
  all_senders_in_cycle cycle comp k = true
  <-> InputSocket.senders socket <> []
      /\ forall sender, In sender (InputSocket.senders socket) ->
                        In sender cycle.
Proof.
  intros Hs. unfold all_senders_in_cycle. rewrite Hs.
  destruct (InputSocket.senders socket) as [|sender senders].
  - split; [done|]. by intros [? _].
  - rewrite forallb_forall. split.
    + intros H. split; [done|]. intros x Hx. by apply mem_str_In, H.
    + intros [_ H] x Hx. by apply mem_str_In, H.
Qed.

(** The deletion loop of lines 209-219, run over the entries of a
    component, ends without error when every entry is a declared socket,
    and it deletes an entry if and only if its socket has senders and all
    of them are inside the cycle. *)
Lemma delete_cycle_inputs_iff (cycle : list string)
    (comp : Component) (inputs : dict value) :
  (forall k, In k (dkeys inputs) -> is_Some (dget k (input_sockets comp))) ->
  exists inputs',
    delete_cycle_inputs cycle comp (dkeys inputs) inputs = (inputs', None)
    /\ forall k socket,
         is_Some (dget k inputs) ->
         dget k (input_sockets comp) = Some socket ->
         (dget k inputs' = None
          <-> InputSocket.senders socket <> []
              /\ forall sender, In sender (InputSocket.senders socket) ->
                                In sender cycle)
         /\ (InputSocket.senders socket = []
             \/ (exists sender, In sender (InputSocket.senders socket)
                                /\ ~ In sender cycle) ->
             dget k inputs' = dget k inputs).
Proof.
  intros Hdecl.
  destruct (delete_cycle_inputs_spec cycle comp (dkeys inputs) inputs Hdecl)
    as (inputs' & Hrun & Hget).
  exists inputs'. split; [done|].
  intros k socket Hk Hs.
  assert (Hmem : mem_str k (dkeys inputs) = true)
    by by apply mem_str_In, dget_In_keys.
  pose proof (all_senders_in_cycle_true cycle comp k socket Hs) as Hiff.
  rewrite Hget, Hmem. simpl.
  destruct (all_senders_in_cycle cycle comp k).
  - destruct (proj1 Hiff eq_refl) as [Hne Hin].
    split; [done|].
    intros [Hnil|(sender & Hsender & Hout)]; [done|].
    destruct Hout. by apply Hin.
  - split; [|done]. split.
    + intros Hnone. destruct Hk as [v Hv]. congruence.
    + intros H. apply Hiff in H. discriminate H.
Qed.

Lemma run_component_ok {W R : Type} (E : @Externals W R)
    (self : AsyncPipeline) (name : string) (h h1 : Heap) (res : dict value)
    (comp : Component) (inputs : dict value) :
  dget name (graph_nodes self) = Some comp ->
  dget name (components_inputs h) = Some inputs ->
  _run_component E self name h = (h1, Ok res) ->
  exists v w',
    dget name (visits h) = Some v
    /\ (if supports_async comp then run_async E else run_sync E)
         (world h) name inputs = (w', RMapping res)
    /\ h1 = mkHeap w' (dset name (v + 1) (visits h))
                   (dset name (reset_variadic comp inputs)
                         (components_inputs h))
                   (EInvoke name inputs :: log h).
Proof.
  intros Hcomp Hin. unfold _run_component. rewrite Hin, Hcomp.
  destruct ((if supports_async comp then run_async E else run_sync E)
              (world h) name inputs) as [w' r].
  destruct r as [res'|bad|].
  - destruct (dget name (visits h)) as [v|]; [|by intros [=]].
    intros [= <- <-]. by exists v, w'.
  - destruct (dget name (visits h)) as [v|]; by intros [=].
  - by intros [=].
Qed.

(** ** The progress check *)

Section ProgressCheck.

Context {W R : Type} (E : @Externals W R).

Lemma advance_waiting_spec (h : Heap) (q : Queues) :
  log (fst (advance_waiting E h q)) = log h
  /\ visits (fst (advance_waiting E h q)) = visits h
  /\ before_last_waiting_queue (snd (advance_waiting E h q))
     = last_waiting_queue q
  /\ last_waiting_queue (snd (advance_waiting E h q))
     = Some (waiting_names (waiting_queue q)).
Proof.
  unfold advance_waiting.
  destruct (_find_next_runnable_component E _ _) as [name comp].
  by destruct (_enqueue_component E _ _ _) as [rq wq].
Qed.

Lemma force_waiting_spec (h : Heap) (q : Queues) :
  log (fst (force_waiting E h q)) = log h
  /\ visits (fst (force_waiting E h q)) = visits h
  /\ before_last_waiting_queue (snd (force_waiting E h q))
     = before_last_waiting_queue q
  /\ last_waiting_queue (snd (force_waiting E h q)) = last_waiting_queue q.
Proof.
  unfold force_waiting.
  destruct (_find_next_runnable_lazy_variadic_or_default_component E _)
    as [name comp].
  by destruct (_enqueue_component E _ _ _) as [rq wq].
Qed.

(** The check breaks the loop only at a drain, with both snapshots defined
    and equal and the stuck predicate true; it then only logs the drain
    and the warning. *)
Lemma progress_check_stop (sc : scope) (h h' : Heap) (q q' : Queues) :
  progress_check E sc h q = (true, h', q') ->
  q' = q
  /\ h' = emit (EWarn sc) (emit (EDrain sc) h)
  /\ run_queue q = []
  /\ waiting_queue q <> []
  /\ (exists s, before_last_waiting_queue q = Some s
                /\ last_waiting_queue q = Some s)
  /\ _is_stuck_in_a_loop E (waiting_queue q) = true.
Proof.
  unfold progress_check.
  destruct (run_queue q) as [|p rq] eqn:Hrq; simpl; [|by intros [=]].
  destruct (waiting_queue q) as [|p wq] eqn:Hwq; simpl; [by intros [=]|].
  destruct (before_last_waiting_queue q) as [b|] eqn:Hb;
    [|destruct (advance_waiting E _ q); by intros [=]].
  destruct (last_waiting_queue q) as [l|] eqn:Hl;
    [|destruct (advance_waiting E _ q); by intros [=]].
  case_bool_decide as Heq;
    [|destruct (advance_waiting E _ q); by intros [=]].
  destruct (_is_stuck_in_a_loop E (p :: wq)) eqn:Hstuck;
    [|destruct (force_waiting E _ q); by intros [=]].
  intros [= <- <-]. subst l. repeat split; eauto.
Qed.

(** Without both snapshots the check does not break the loop. *)
Lemma progress_check_undefined (sc : scope) (h : Heap) (q : Queues) :
  before_last_waiting_queue q = None ->
  fst (fst (progress_check E sc h q)) = false.
Proof.
  intros Hb. unfold progress_check. rewrite Hb.
  destruct (_ && _); [|done].
  by destruct (advance_waiting E _ q).
Qed.

(** The check keeps the snapshots within what the log has seen, and it
    breaks the loop at the third drain since the last invocation at the
    earliest. *)
Lemma progress_check_bounded (h h' : Heap) (q q' : Queues) (stop : bool) :
  snapshots_bounded (log h) q ->
  progress_check E Main h q = (stop, h', q') ->
  snapshots_bounded (log h') q'
  /\ (stop = true -> (3 <= drains_since_run (log h'))%nat).
Proof.
  intros [Hbefore Hlast]. unfold progress_check.
  destruct (_ && _); [|intros [= <- <- <-]; by split].
  assert (Hadv : forall stop h' q',
            (let '(h1, q1) := advance_waiting E (emit (EDrain Main) h) q in
             (false, h1, q1)) = (stop, h', q') ->
            snapshots_bounded (log h') q'
            /\ (stop = true -> (3 <= drains_since_run (log h'))%nat)).
  { clear stop h' q'. intros stop h' q'.
    pose proof (advance_waiting_spec (emit (EDrain Main) h) q)
      as (Hlog & _ & Hb & Hl).
    destruct (advance_waiting E _ q) as [h1 q1]. simpl in *.
    intros [= <- <- <-]. split; [|done].
    unfold snapshots_bounded. rewrite Hlog, Hb, Hl. simpl.
    split; [intros H; apply Hlast in H; lia|intros _; lia]. }
  destruct (before_last_waiting_queue q) as [b|] eqn:Hb; [|by apply Hadv].
  destruct (last_waiting_queue q) as [l|] eqn:Hl; [|by apply Hadv].
  case_bool_decide; [|by apply Hadv].
  assert (2 <= drains_since_run (log h))%nat by (apply Hbefore; eauto).
  destruct (_is_stuck_in_a_loop E _).
  - intros [= <- <- <-]. simpl. unfold snapshots_bounded.
    rewrite Hb, Hl. simpl. split; [split; intros _; lia|intros _; lia].
  - pose proof (force_waiting_spec (emit (EDrain Main) h) q)
      as (Hlog & _ & Hb' & Hl').
    destruct (force_waiting E _ q) as [h1 q1]. simpl in *.
    intros [= <- <- <-]. split; [|done].
    unfold snapshots_bounded. rewrite Hlog, Hb', Hl'. simpl.
    split; intros _; lia.
Qed.

End ProgressCheck.

(** ** One pass of the main loop *)

Section MainBody.

Context {W R : Type} (E : @Externals W R) (self : AsyncPipeline).

Lemma invocations_emit (e : event) (h : @Heap W) :
  invocations (emit e h)
  = invocations h
    ++ match e with EInvoke n _ => [n] | _ => [] end.
Proof.
  unfold invocations, emit. simpl. rewrite omap_app. simpl.
  destruct e; simpl; by rewrite ?app_nil_r.
Qed.

Lemma invocations_same_log (h h' : @Heap W) :
  log h' = log h -> invocations h' = invocations h.
Proof. unfold invocations. by intros ->. Qed.

Lemma yields_emit (e : event) (h : @Heap W) :
  yields (emit e h)
  = yields h ++ match e with EYield item => [item] | _ => [] end.
Proof.
  unfold yields, emit. simpl. rewrite omap_app. simpl.
  destruct e; simpl; by rewrite ?app_nil_r.
Qed.

(** The progress check invokes no component. *)
Lemma progress_check_invocations (sc : scope) (h h' : Heap) (q q' : Queues)
    (stop : bool) :
  progress_check E sc h q = (stop, h', q') ->
  invocations h' = invocations h.
Proof.
  unfold progress_check.
  destruct (_ && _); [|by intros [= <- <- <-]].
  assert (Hadv : forall stop h' q',
            (let '(h1, q1) := advance_waiting E (emit (EDrain sc) h) q in
             (false, h1, q1)) = (stop, h', q') ->
            invocations h' = invocations h).
  { clear stop h' q'. intros stop h' q'.
    pose proof (advance_waiting_spec E (emit (EDrain sc) h) q) as (Hlog & _).
    destruct (advance_waiting E _ q) as [h1 q1]. cbn [fst snd] in *.
    intros [= <- <- <-]. rewrite (invocations_same_log _ _ Hlog).
    rewrite invocations_emit. by rewrite app_nil_r. }
  destruct (before_last_waiting_queue q); [|by apply Hadv].
  destruct (last_waiting_queue q); [|by apply Hadv].
  case_bool_decide; [|by apply Hadv].
  destruct (_is_stuck_in_a_loop E _).
  - intros [= <- <- <-]. rewrite !invocations_emit. by rewrite !app_nil_r.
  - pose proof (force_waiting_spec E (emit (EDrain sc) h) q) as (Hlog & _).
    destruct (force_waiting E _ q) as [h1 q1]. cbn [fst snd] in *.
    intros [= <- <- <-]. rewrite (invocations_same_log _ _ Hlog).
    rewrite invocations_emit. by rewrite app_nil_r.
Qed.

(** A pass that follows a successful run ends with the progress check,
    entered with both snapshots undefined. *)
Lemma main_after_run_check (name : string) (comp : Component)
    (res : dict value) (h1 : Heap) (rq wq : list pair)
    (before_last last : option (gset string))
    (finals : dict (dict value)) (sig : signal) (st' : MainState) :
  main_after_run E name comp res h1 rq wq before_last last finals
  = (sig, st') ->
  sig = Next \/ sig = Stop ->
  exists h q stop,
    progress_check E Main h q = (stop, m_heap st', m_queues st')
    /\ sig = (if stop then Stop else Next)
    /\ before_last_waiting_queue q = None
    /\ last_waiting_queue q = None.
Proof.
  unfold main_after_run. intros Hrun Hsig.
  destruct (dget name _) as [inputs|];
    [|injection Hrun as <- _; by destruct Hsig].
  destruct (delete_consumed_inputs _ _ _) as [inputs' [e|]];
    [injection Hrun as <- _; by destruct Hsig|].
  destruct (dequeue_all _ _ _ _) as [rq2 wq2].
  destruct (_distribute_output E _ _ _ _ _) as [[[res' ci] rq3] wq3].
  destruct (progress_check E Main _ _) as [[stop h4] q4] eqn:Hcheck.
  injection Hrun as <- <-. simpl. eauto 10.
Qed.

(** A pass of the main loop that neither raises nor starves either defers
    the head, or ends with the progress check; the check sees the
    snapshots and the log of the start of the pass when nothing ran, and
    undefined snapshots when a component or a cycle ran. *)
Lemma main_body_check (components_in_cycles : dict (list (list string)))
    (fuel : nat) (st st' : MainState) (sig : signal) :
  main_body E self components_in_cycles fuel st = (sig, st') ->
  sig = Next \/ sig = Stop ->
  (sig = Next
   /\ m_heap st' = m_heap st
   /\ before_last_waiting_queue (m_queues st')
      = before_last_waiting_queue (m_queues st)
   /\ last_waiting_queue (m_queues st') = last_waiting_queue (m_queues st))
  \/ exists h q stop,
       progress_check E Main h q = (stop, m_heap st', m_queues st')
       /\ sig = (if stop then Stop else Next)
       /\ ((h = m_heap st
            /\ before_last_waiting_queue q
               = before_last_waiting_queue (m_queues st)
            /\ last_waiting_queue q = last_waiting_queue (m_queues st))
           \/ (before_last_waiting_queue q = None
               /\ last_waiting_queue q = None)).
Proof.
  destruct st as [h [rq wq b l] finals]. unfold main_body.
  cbn [m_heap m_queues final_outputs run_queue waiting_queue
       before_last_waiting_queue last_waiting_queue].
  intros Hrun Hsig.
  destruct rq as [|[name comp] rq];
    [injection Hrun as <- _; by destruct Hsig|].
  destruct (lazy_variadic_deferred E comp rq).
  { injection Hrun as <- <-. left. by simpl. }
  right.
  destruct (_component_has_enough_inputs_to_run E name _).
  - destruct (default [] (dget name components_in_cycles)) as [|cycle cycles].
    + destruct (dget name (visits h)) as [v|];
        [|injection Hrun as <- _; by destruct Hsig].
      destruct (v >? _max_runs_per_component self);
        [injection Hrun as <- _; by destruct Hsig|].
      destruct (_run_component E self name h) as [h1 [res|e]];
        [|injection Hrun as <- _; by destruct Hsig].
      destruct (main_after_run_check _ _ _ _ _ _ _ _ _ _ _ Hrun Hsig)
        as (h' & q & stop & Hcheck & -> & Hb & Hl).
      exists h', q, stop. eauto.
    + destruct (_run_subgraph E self cycle name fuel h) as [[o h'] outs].
      destruct o;
        try (injection Hrun as <- _; by destruct Hsig);
        destruct (distribute_subgraph_output E _ _ _ _ _)
          as [[[ci rq'] wq'] finals'];
        destruct (progress_check E Main _ _) as [[stop h''] q''] eqn:Hcheck;
        injection Hrun as <- <-; simpl; eauto 10.
  - destruct (progress_check E Main _ _) as [[stop h'] q'] eqn:Hcheck.
    injection Hrun as <- <-. simpl. eexists h, _, stop.
    split; [exact Hcheck|]. split; [done|]. left. by simpl.
Qed.

(** A pass that breaks the main loop does so at a drain of the run queue
    with a non-empty waiting queue, both snapshots defined and equal and
    the stuck predicate true; the warning is the last thing it does. *)
Lemma main_body_stop (components_in_cycles : dict (list (list string)))
    (fuel : nat) (st st' : MainState) :
  main_body E self components_in_cycles fuel st = (Stop, st') ->
  run_queue (m_queues st') = []
  /\ waiting_queue (m_queues st') <> []
  /\ (exists s, before_last_waiting_queue (m_queues st') = Some s
                /\ last_waiting_queue (m_queues st') = Some s)
  /\ _is_stuck_in_a_loop E (waiting_queue (m_queues st')) = true
  /\ exists evs, log (m_heap st') = EWarn Main :: EDrain Main :: evs.
Proof.
  intros Hrun.
  destruct (main_body_check _ _ _ _ _ Hrun (or_intror eq_refl))
    as [[[=] _]|Hcheck].
  destruct Hcheck as (h & q & stop & Hcheck & Hsig & _).
  destruct stop; [|done].
  apply progress_check_stop in Hcheck as (-> & -> & Hrq & Hwq & Hs & Hstuck).
  repeat split; eauto.
Qed.

(** A pass keeps the snapshots within what the log has seen; when it
    breaks the loop, the log shows three drains since the last
    invocation. *)
Lemma main_body_bounded (components_in_cycles : dict (list (list string)))
    (fuel : nat) (st st' : MainState) (sig : signal) :
  snapshots_bounded (log (m_heap st)) (m_queues st) ->
  main_body E self components_in_cycles fuel st = (sig, st') ->
  (sig = Next -> snapshots_bounded (log (m_heap st')) (m_queues st'))
  /\ (sig = Stop -> (3 <= drains_since_run (log (m_heap st')))%nat).
Proof.
  intros Hinv Hrun.
  assert (Hgoal : sig = Next \/ sig = Stop ->
            snapshots_bounded (log (m_heap st')) (m_queues st')
            /\ (sig = Stop -> (3 <= drains_since_run (log (m_heap st')))%nat)).
  { intros Hsig.
    destruct (main_body_check _ _ _ _ _ Hrun Hsig)
      as [(-> & Hh & Hb & Hl)|(h & q & stop & Hcheck & -> & Hq)].
    - split; [|done]. unfold snapshots_bounded in *. by rewrite Hh, Hb, Hl.
    - assert (Hinv' : snapshots_bounded (log h) q).
      { unfold snapshots_bounded in *.
        destruct Hq as [(-> & -> & ->)|(-> & ->)]; [done|].
        split; by intros [? ?]. }
      destruct (progress_check_bounded E _ _ _ _ _ Hinv' Hcheck) as [H1 H2].
      split; [done|]. destruct stop; [auto|done]. }
  split; intros ->; apply Hgoal; auto.
Qed.

(** A pass that invokes a component, directly or in a cycle, and goes on
    leaves the older snapshot undefined: the snapshots were reset. *)
Lemma main_body_resets (components_in_cycles : dict (list (list string)))
    (fuel : nat) (st st' : MainState) :
  main_body E self components_in_cycles fuel st = (Next, st') ->
  invocations (m_heap st') <> invocations (m_heap st) ->
  before_last_waiting_queue (m_queues st') = None.
Proof.
  intros Hrun Hinv.
  destruct (main_body_check _ _ _ _ _ Hrun (or_introl eq_refl))
    as [(_ & Hh & _)|(h & q & stop & Hcheck & _ & Hq)].
  - by rewrite Hh in Hinv.
  - destruct Hq as [(-> & _)|(Hb & Hl)].
    + by apply progress_check_invocations in Hcheck.
    + pose proof (progress_check_undefined E Main h q Hb) as Hstop.
      rewrite Hcheck in Hstop. simpl in Hstop. subst stop.
      revert Hcheck. unfold progress_check. rewrite Hb.
      destruct (_ && _); [|by intros [= _ <-]].
      pose proof (advance_waiting_spec E (emit (EDrain Main) h) q)
        as (_ & _ & Hb' & _).
      destruct (advance_waiting E _ q) as [h1 q1]. simpl in *.
      intros [= _ <-]. by rewrite Hb', Hl.
Qed.

End MainBody.

(** ** The main loop (C5, C9) *)

Section MainLoop.

Context {W R : Type} (E : @Externals W R) (self : AsyncPipeline).

Lemma main_loop_stopped (components_in_cycles : dict (list (list string)))
    (fuel : nat) (st st' : MainState) :
  main_loop E self components_in_cycles fuel st = (Stopped, st') ->
  run_queue (m_queues st') = []
  /\ waiting_queue (m_queues st') <> []
  /\ (exists s, before_last_waiting_queue (m_queues st') = Some s
                /\ last_waiting_queue (m_queues st') = Some s)
  /\ _is_stuck_in_a_loop E (waiting_queue (m_queues st')) = true
  /\ exists evs, log (m_heap st') = EWarn Main :: EDrain Main :: evs.
Proof.
  revert st. induction fuel as [|fuel IH]; intros st; simpl.
  - destruct (run_queue (m_queues st)); by intros [=].
  - destruct (run_queue (m_queues st)); [by intros [=]|].
    destruct (main_body E self components_in_cycles fuel st)
      as [sig st1] eqn:Hbody.
    destruct sig; try by intros [=].
    + apply IH.
    + intros [= <-]. by eapply main_body_stop.
Qed.

Lemma main_loop_bounded (components_in_cycles : dict (list (list string)))
    (fuel : nat) (st st' : MainState) :
  snapshots_bounded (log (m_heap st)) (m_queues st) ->
  main_loop E self components_in_cycles fuel st = (Stopped, st') ->
  (3 <= drains_since_run (log (m_heap st')))%nat.
Proof.
  revert st. induction fuel as [|fuel IH]; intros st Hinv; simpl.
  - destruct (run_queue (m_queues st)); by intros [=].
  - destruct (run_queue (m_queues st)); [by intros [=]|].
    destruct (main_body E self components_in_cycles fuel st)
      as [sig st1] eqn:Hbody.
    destruct (main_body_bounded E self _ _ _ _ _ Hinv Hbody) as [Hnext Hstop].
    destruct sig; try by intros [=].
    + apply IH. by apply Hnext.
    + intros [= <-]. by apply Hstop.
Qed.

End MainLoop.

(** C9: the main loop is left by the [break] of the stuck check only at a
    drain: the run queue is empty, the waiting queue is not, both snapshots
    are defined and equal, the stuck predicate holds, and the drain and the
    warning are the last two things the loop did. A pass that invokes a
    component and goes on leaves the older snapshot undefined, so, from the
    start of the loop as from any invocation, the loop enters the progress
    check at least twice before the check that breaks it: that one is the
    third at the earliest. *)
Theorem stuck_warning_needs_two_equal_snapshots {W R : Type}
    (E : @Externals W R) (self : AsyncPipeline)
    (components_in_cycles : dict (list (list string)))
    (fuel : nat) (st st' : MainState) :
  before_last_waiting_queue (m_queues st) = None ->
  last_waiting_queue (m_queues st) = None ->
  main_loop E self components_in_cycles fuel st = (Stopped, st') ->
  (run_queue (m_queues st') = []
   /\ waiting_queue (m_queues st') <> []
   /\ (exists s, before_last_waiting_queue (m_queues st') = Some s
                 /\ last_waiting_queue (m_queues st') = Some s)
   /\ _is_stuck_in_a_loop E (waiting_queue (m_queues st')) = true
   /\ exists evs, log (m_heap st') = EWarn Main :: EDrain Main :: evs)
  /\ (3 <= drains_since_run (log (m_heap st')))%nat
  /\ forall fuel1 st1 st2,
       main_body E self components_in_cycles fuel1 st1 = (Next, st2) ->
       invocations (m_heap st2) <> invocations (m_heap st1) ->
       before_last_waiting_queue (m_queues st2) = None.
Proof.
  intros Hb Hl Hloop. split; [by eapply main_loop_stopped|]. split.
  - eapply main_loop_bounded; [|exact Hloop].
    unfold snapshots_bounded. rewrite Hb, Hl. split; by intros [? ?].
  - intros fuel1 st1 st2. apply main_body_resets.
Qed.

Lemma stuck_warning_needs_two_equal_snapshots_witness :
  let st' :=
    snd (main_loop Examples.Stuck.E Examples.Stuck.pipeline [] 10
                   Examples.Stuck.init) in
  (run_queue (m_queues st') = []
   /\ waiting_queue (m_queues st') <> []
   /\ (exists s, before_last_waiting_queue (m_queues st') = Some s
                 /\ last_waiting_queue (m_queues st') = Some s)
   /\ _is_stuck_in_a_loop Examples.Stuck.E (waiting_queue (m_queues st'))
      = true
   /\ exists evs, log (m_heap st') = EWarn Main :: EDrain Main :: evs)
  /\ (3 <= drains_since_run (log (m_heap st')))%nat
  /\ forall fuel1 st1 st2,
       main_body Examples.Stuck.E Examples.Stuck.pipeline [] fuel1 st1
       = (Next, st2) ->
       invocations (m_heap st2) <> invocations (m_heap st1) ->
       before_last_waiting_queue (m_queues st2) = None.
Proof.
  apply (stuck_warning_needs_two_equal_snapshots
           Examples.Stuck.E Examples.Stuck.pipeline [] 10 Examples.Stuck.init);
    reflexivity.
Defined.

(** C5: when [run] ends without an exception, its loop was left by its
    condition or by the [break] of the stuck check (after the warning),
    and the last thing the run did is to yield the final outputs that the
    loop accumulated: they are the last item and nothing follows them. *)
Theorem final_outputs_is_the_last_item {W R : Type} (E : @Externals W R)
    (self : AsyncPipeline) (data : dict (dict value))
    (topological_order : list string)
    (components_in_cycles : dict (list (list string)))
    (fuel : nat) (w : W) (st : MainState) :
  run E self data topological_order components_in_cycles fuel w
  = (Finished, st) ->
  exists rq o st0,
    instances_of self topological_order = Ok rq
    /\ main_loop E self components_in_cycles fuel (main_init self data rq w)
       = (o, st0)
    /\ (o = Finished
        \/ o = Stopped /\ exists evs, log (m_heap st0) = EWarn Main :: evs)
    /\ final_outputs st = final_outputs st0
    /\ log (m_heap st) = EYield (final_outputs st0) :: log (m_heap st0)
    /\ yields (m_heap st) = yields (m_heap st0) ++ [final_outputs st0]
    /\ last (yields (m_heap st)) = Some (final_outputs st0).
Proof.
  unfold run.
  destruct (instances_of self topological_order) as [rq|e]; [|by intros [=]].
  destruct (main_loop E self components_in_cycles fuel _) as [o st0] eqn:Hloop.
  assert (Hlast : forall l : list (dict (dict value)),
            last (l ++ [final_outputs st0]) = Some (final_outputs st0))
    by (intros l; apply last_snoc).
  destruct o; try by intros [=].
  - intros [= <-]. exists rq, Finished, st0. simpl.
    rewrite yields_emit. repeat split; auto.
  - intros [= <-]. exists rq, Stopped, st0. simpl.
    rewrite yields_emit. repeat split; auto.
    right. split; [done|].
    destruct (main_loop_stopped E self _ _ _ _ Hloop)
      as (_ & _ & _ & _ & evs & ->). eauto.
Qed.

Lemma final_outputs_is_the_last_item_witness :
  exists rq o st0,
    instances_of Examples.Stuck.pipeline ["a"; "b"; "z"] = Ok rq
    /\ main_loop Examples.Stuck.E Examples.Stuck.pipeline [] 10
                 (main_init Examples.Stuck.pipeline Examples.Stuck.data rq tt)
       = (o, st0)
    /\ (o = Finished
        \/ o = Stopped /\ exists evs, log (m_heap st0) = EWarn Main :: evs)
    /\ final_outputs (snd (Examples.Stuck.outcome_of_run 10))
       = final_outputs st0
    /\ log (m_heap (snd (Examples.Stuck.outcome_of_run 10)))
       = EYield (final_outputs st0) :: log (m_heap st0)
    /\ yields (m_heap (snd (Examples.Stuck.outcome_of_run 10)))
       = yields (m_heap st0) ++ [final_outputs st0]
    /\ last (yields (m_heap (snd (Examples.Stuck.outcome_of_run 10))))
       = Some (final_outputs st0).
Proof.
  apply (final_outputs_is_the_last_item
           Examples.Stuck.E Examples.Stuck.pipeline Examples.Stuck.data
           ["a"; "b"; "z"] [] 10 tt).
  reflexivity.
Defined.

(** ** The loop of the cycle sub-scheduler (C6) *)

Section Subgraph.

Context {W R : Type} (E : @Externals W R) (self : AsyncPipeline).

Lemma final_output_reached_false (comp : Component) (cycle : list string)
    (res : dict value) :
  final_output_reached comp cycle (dkeys res) = Ok false
  <-> no_receiver_in_cycle comp cycle res.
Proof.
  unfold no_receiver_in_cycle.
  induction (dkeys res) as [|k keys IH]; simpl.
  - split; [by intros _ ? []|done].
  - destruct (dget k (output_sockets comp)) as [socket|] eqn:Hk.
    + destruct (existsb _ (OutputSocket.receivers socket)) eqn:Hex.
      * split; [by intros [=]|]. intros H.
        destruct (H k) as (socket' & Hs & Hnone); [by left|].
        apply existsb_exists in Hex as (r & Hr & Hmem).
        apply mem_str_In in Hmem. rewrite Hk in Hs. injection Hs as <-.
        by destruct (Hnone r Hr).
      * rewrite IH. split.
        -- intros H k' [<-|Hk']; [|by apply H].
           exists socket. split; [done|]. intros r Hr Hin.
           apply mem_str_In in Hin.
           assert (existsb (fun receiver => mem_str receiver cycle)
                           (OutputSocket.receivers socket) = true)
             by (apply existsb_exists; eauto).
           congruence.
        -- intros H k' Hk'. apply H. by right.
    + split; [by intros [=]|]. intros H.
      destruct (H k) as (socket' & Hs & _); [by left|]. congruence.
Qed.

Lemma run_component_invocations (name : string) (h h1 : Heap)
    (res : dict value) :
  _run_component E self name h = (h1, Ok res) ->
  invocations h1 = invocations h ++ [name].
Proof.
  unfold _run_component.
  destruct (dget name (components_inputs h)) as [inputs|]; [|by intros [=]].
  destruct (dget name (graph_nodes self)) as [instance|]; [|by intros [=]].
  destruct ((if supports_async instance then run_async E else run_sync E)
              (world h) name inputs) as [w' r].
  destruct r as [res'|bad|]; [| |by intros [=]];
    (destruct (dget name (visits h)) as [v|]; [|by intros [=]]);
    intros [= <- ?].
  unfold invocations. simpl. by rewrite omap_app.
Qed.

(** What follows a successful run in the cycle never breaks the loop: it
    goes on, with [cycle_received_inputs] set when no output of the result
    has a receiver in the cycle, or it raises. No component is invoked. *)
Lemma subgraph_after_run_spec (cycle : list string) (name : string)
    (comp : Component) (res : dict value) (h1 : Heap) (rq wq : list pair)
    (before_last last : option (gset string))
    (outs : dict (dict value)) (received : bool)
    (sig : signal) (st' : CycleState) :
  subgraph_after_run E cycle name comp res h1 rq wq before_last last outs
                     received
  = (sig, st') ->
  (sig = Next
   /\ invocations (c_heap st') = invocations h1
   /\ exists reached,
        final_output_reached comp cycle (dkeys res) = Ok reached
        /\ cycle_received_inputs st' = (if reached then received else true))
  \/ ((exists e, sig = Raised e) /\ cycle_received_inputs st' = received).
Proof.
  unfold subgraph_after_run. intros Hrun.
  destruct (dget name _) as [inputs|];
    [|injection Hrun as <- <-; right; eauto].
  destruct (delete_cycle_inputs _ _ _ _) as [inputs' [e|]];
    [injection Hrun as <- <-; right; eauto|].
  destruct (final_output_reached comp cycle (dkeys res)) as [reached|e];
    [|injection Hrun as <- <-; right; eauto].
  destruct (dequeue_all _ _ _ _) as [rq2 wq2].
  destruct (_distribute_output E _ _ _ _ _) as [[[res' ci] rq3] wq3].
  destruct (progress_check E Cycle _ _) as [[stop h4] q4] eqn:Hcheck.
  pose proof (progress_check_undefined E Cycle
                (set_inputs ci
                   (set_inputs (dset name inputs'
                                  (components_inputs (emit (EYield [(name, res)]) h1)))
                      (emit (EYield [(name, res)]) h1)))
                (mkQueues rq3 wq3 None None) eq_refl) as Hstop.
  rewrite Hcheck in Hstop. simpl in Hstop. subst stop.
  apply progress_check_invocations in Hcheck.
  injection Hrun as <- <-. left. simpl.
  split; [done|]. split; [|eauto].
  rewrite Hcheck. unfold invocations. simpl. rewrite omap_app. simpl.
  by rewrite app_nil_r.
Qed.

Lemma app_singleton_neq {A} (l : list A) (x : A) : l <> l ++ [x].
Proof.
  intros H. apply (f_equal length) in H. rewrite length_app in H.
  simpl in H. lia.
Qed.

(** A pass of the cycle's loop sets [cycle_received_inputs] exactly when it
    runs the head of the run queue successfully, goes on, and no output
    socket of the result has a receiver in the cycle. That invocation is
    the only one of the pass. *)
Lemma subgraph_body_received (cycle : list string) (st st' : CycleState)
    (sig : signal) :
  cycle_received_inputs st = false ->
  subgraph_body E self cycle st = (sig, st') ->
  cycle_received_inputs st' = true
  <-> exists name comp rq h1 res,
        run_queue (c_queues st) = (name, comp) :: rq
        /\ _run_component E self name (c_heap st) = (h1, Ok res)
        /\ invocations (c_heap st') = invocations (c_heap st) ++ [name]
        /\ no_receiver_in_cycle comp cycle res
        /\ sig = Next.
Proof.
  destruct st as [h [rq wq b l] outs received]. unfold subgraph_body.
  cbn [c_heap c_queues subgraph_outputs cycle_received_inputs run_queue
       waiting_queue before_last_waiting_queue last_waiting_queue].
  intros -> Hrun.
  assert (Hno : forall st0 : @CycleState W,
            cycle_received_inputs st0 = false ->
            invocations (c_heap st0) = invocations h ->
            cycle_received_inputs st0 = true
            <-> exists name comp rq0 h1 res,
                  rq = (name, comp) :: rq0
                  /\ _run_component E self name h = (h1, Ok res)
                  /\ invocations (c_heap st0) = invocations h ++ [name]
                  /\ no_receiver_in_cycle comp cycle res
                  /\ sig = Next).
  { intros st0 Hfalse Hsame. split; [congruence|].
    intros (name & comp & rq0 & h1 & res & _ & _ & Hinv & _).
    rewrite Hsame in Hinv. by destruct (app_singleton_neq _ _ Hinv). }
  assert (Hraise : forall (st0 : @CycleState W) e,
            sig = Raised e ->
            cycle_received_inputs st0 = false ->
            cycle_received_inputs st0 = true
            <-> exists name comp rq0 h1 res,
                  rq = (name, comp) :: rq0
                  /\ _run_component E self name h = (h1, Ok res)
                  /\ invocations (c_heap st0) = invocations h ++ [name]
                  /\ no_receiver_in_cycle comp cycle res
                  /\ sig = Next).
  { intros st0 e -> Hfalse. split; [congruence|].
    by intros (? & ? & ? & ? & ? & _ & _ & _ & _ & [=]). }
  destruct rq as [|[name comp] rq]; [injection Hrun as <- <-; by eapply Hraise|].
  destruct (lazy_variadic_deferred E comp rq);
    [injection Hrun as <- <-; by apply Hno|].
  destruct (_component_has_enough_inputs_to_run E name _).
  - destruct (dget name (visits h)) as [v|];
      [|injection Hrun as <- <-; by eapply Hraise].
    destruct (v >? _max_runs_per_component self);
      [injection Hrun as <- <-; by eapply Hraise|].
    destruct (_run_component E self name h) as [h1 [res|e]] eqn:Hcomp;
      [|injection Hrun as <- <-; by eapply Hraise].
    pose proof (run_component_invocations _ _ _ _ Hcomp) as Hinv1.
    destruct (subgraph_after_run_spec _ _ _ _ _ _ _ _ _ _ _ _ _ Hrun)
      as [(-> & Hinv & reached & Hreached & Hflag)|[[e ->] Hflag]];
      [|by eapply Hraise].
    rewrite Hflag. split.
    + destruct reached; [done|]. intros _.
      exists name, comp, rq, h1, res. repeat split; try done.
      * by rewrite Hinv, Hinv1.
      * by apply final_output_reached_false.
    + intros (name' & comp' & rq' & h1' & res' & [= <- <- <-] & Hcomp'
              & _ & Hnone & _).
      rewrite Hcomp in Hcomp'. injection Hcomp' as <- <-.
      apply final_output_reached_false in Hnone.
      rewrite Hnone in Hreached. by injection Hreached as <-.
  - destruct (progress_check E Cycle _ _) as [[stop h'] q'] eqn:Hcheck.
    apply progress_check_invocations in Hcheck.
    injection Hrun as <- <-. by apply Hno.
Qed.

(** A pass that breaks the cycle's loop does so at the stuck check, and
    leaves [cycle_received_inputs] as it was. *)
Lemma subgraph_body_stop (cycle : list string) (st st' : CycleState) :
  subgraph_body E self cycle st = (Stop, st') ->
  cycle_received_inputs st' = cycle_received_inputs st
  /\ run_queue (c_queues st') = []
  /\ waiting_queue (c_queues st') <> []
  /\ (exists s, before_last_waiting_queue (c_queues st') = Some s
                /\ last_waiting_queue (c_queues st') = Some s)
  /\ _is_stuck_in_a_loop E (waiting_queue (c_queues st')) = true
  /\ exists evs, log (c_heap st') = EWarn Cycle :: EDrain Cycle :: evs.
Proof.
  destruct st as [h [rq wq b l] outs received]. unfold subgraph_body.
  cbn [c_heap c_queues subgraph_outputs cycle_received_inputs run_queue
       waiting_queue before_last_waiting_queue last_waiting_queue].
  intros Hrun.
  destruct rq as [|[name comp] rq]; [by injection Hrun|].
  destruct (lazy_variadic_deferred E comp rq); [by injection Hrun|].
  destruct (_component_has_enough_inputs_to_run E name _).
  - destruct (dget name (visits h)) as [v|]; [|by injection Hrun].
    destruct (v >? _max_runs_per_component self); [by injection Hrun|].
    destruct (_run_component E self name h) as [h1 [res|e]];
      [|by injection Hrun].
    destruct (subgraph_after_run_spec _ _ _ _ _ _ _ _ _ _ _ _ _ Hrun)
      as [([=] & _)|[[e [=]] _]].
  - destruct (progress_check E Cycle _ _) as [[stop h'] q'] eqn:Hcheck.
    destruct stop; [|by injection Hrun].
    injection Hrun as <-.
    apply progress_check_stop in Hcheck as (-> & -> & Hrq & Hwq & Hs & Hstuck).
    simpl. repeat split; eauto.
Qed.

(** How the cycle's loop ends. *)
Lemma subgraph_loop_end (cycle : list string) (fuel : nat)
    (st st' : CycleState) (o : outcome) :
  cycle_received_inputs st = false ->
  subgraph_loop E self cycle fuel st = (o, st') ->
  match o with
  | Finished =>
      cycle_received_inputs st' = true
      /\ exists st1, cycle_received_inputs st1 = false
                     /\ subgraph_body E self cycle st1 = (Next, st')
  | Stopped =>
      cycle_received_inputs st' = false
      /\ run_queue (c_queues st') = []
      /\ waiting_queue (c_queues st') <> []
      /\ (exists s, before_last_waiting_queue (c_queues st') = Some s
                    /\ last_waiting_queue (c_queues st') = Some s)
      /\ _is_stuck_in_a_loop E (waiting_queue (c_queues st')) = true
      /\ exists evs, log (c_heap st') = EWarn Cycle :: EDrain Cycle :: evs
  | _ => True
  end.
Proof.
  revert st. induction fuel as [|fuel IH]; intros st Hflag; simpl;
    rewrite Hflag.
  - by intros [= <- <-].
  - destruct (subgraph_body E self cycle st) as [sig st1] eqn:Hbody.
    destruct sig.
    + destruct (cycle_received_inputs st1) eqn:Hflag1.
      * destruct fuel; simpl; rewrite Hflag1; intros [= <- <-]; eauto.
      * by apply IH.
    + intros [= <- <-].
      apply subgraph_body_stop in Hbody as (Hsame & H).
      rewrite Hsame, Hflag. done.
    + by intros [= <- <-].
    + by intros [= <- <-].
Qed.

End Subgraph.

(** C6, as the code has it: the loop of the cycle sub-scheduler ends
    without an exception in one of two ways. Either its condition ends it,
    with [cycle_received_inputs] true, set by the last pass; or the stuck
    check breaks it, with [cycle_received_inputs] still false. A pass sets
    [cycle_received_inputs] exactly when it runs a component successfully
    and no output socket present in the result has a receiver inside the
    cycle; that run is the only invocation of the pass, and once the flag
    is set the loop returns without another pass, so no further component
    runs. *)
Theorem cycle_loop_ends_when_received_or_stuck {W R : Type}
    (E : @Externals W R) (self : AsyncPipeline) (cycle : list string)
    (fuel : nat) (st st' : CycleState) (o : outcome) :
  cycle_received_inputs st = false ->
  subgraph_loop E self cycle fuel st = (o, st') ->
  o = Finished \/ o = Stopped ->
  ((o = Finished
    /\ cycle_received_inputs st' = true
    /\ exists st1 name comp rq h1 res,
         cycle_received_inputs st1 = false
         /\ subgraph_body E self cycle st1 = (Next, st')
         /\ run_queue (c_queues st1) = (name, comp) :: rq
         /\ _run_component E self name (c_heap st1) = (h1, Ok res)
         /\ invocations (c_heap st') = invocations (c_heap st1) ++ [name]
         /\ no_receiver_in_cycle comp cycle res)
   \/ (o = Stopped
       /\ cycle_received_inputs st' = false
       /\ run_queue (c_queues st') = []
       /\ waiting_queue (c_queues st') <> []
       /\ (exists s, before_last_waiting_queue (c_queues st') = Some s
                     /\ last_waiting_queue (c_queues st') = Some s)
       /\ _is_stuck_in_a_loop E (waiting_queue (c_queues st')) = true
       /\ exists evs, log (c_heap st') = EWarn Cycle :: EDrain Cycle :: evs))
  /\ (forall st1 st2 sig,
        cycle_received_inputs st1 = false ->
        subgraph_body E self cycle st1 = (sig, st2) ->
        cycle_received_inputs st2 = true
        <-> exists name comp rq h1 res,
              run_queue (c_queues st1) = (name, comp) :: rq
              /\ _run_component E self name (c_heap st1) = (h1, Ok res)
              /\ invocations (c_heap st2) = invocations (c_heap st1) ++ [name]
              /\ no_receiver_in_cycle comp cycle res
              /\ sig = Next)
  /\ (forall fuel2 st2,
        cycle_received_inputs st2 = true ->
        subgraph_loop E self cycle fuel2 st2 = (Finished, st2)).
Proof.
  intros Hflag Hloop Ho.
  pose proof (subgraph_loop_end E self cycle fuel st st' o Hflag Hloop) as Hend.
  split; [|split].
  - destruct Ho as [-> | ->].
    + left. destruct Hend as (Htrue & st1 & Hflag1 & Hbody).
      split; [done|]. split; [done|].
      destruct (proj1 (subgraph_body_received E self cycle st1 st' Next
                         Hflag1 Hbody) Htrue)
        as (name & comp & rq & h1 & res & Hrq & Hcomp & Hinv & Hnone & _).
      exists st1, name, comp, rq, h1, res. auto 10.
    + right. by split.
  - intros st1 st2 sig. apply subgraph_body_received.
  - intros fuel2 st2 Htrue. destruct fuel2; simpl; by rewrite Htrue.
Qed.

Lemma cycle_loop_ends_when_received_or_stuck_witness :
  let E := Examples.Countdown.E in
  let self := Examples.Countdown.pipeline in
  let cycle := Examples.Countdown.cycle in
  let st' := snd (subgraph_loop E self cycle 10 Examples.Countdown.init) in
  ((Finished = Finished
    /\ cycle_received_inputs st' = true
    /\ exists st1 name comp rq h1 res,
         cycle_received_inputs st1 = false
         /\ subgraph_body E self cycle st1 = (Next, st')
         /\ run_queue (c_queues st1) = (name, comp) :: rq
         /\ _run_component E self name (c_heap st1) = (h1, Ok res)
         /\ invocations (c_heap st') = invocations (c_heap st1) ++ [name]
         /\ no_receiver_in_cycle comp cycle res)
   \/ (Finished = Stopped
       /\ cycle_received_inputs st' = false
       /\ run_queue (c_queues st') = []
       /\ waiting_queue (c_queues st') <> []
       /\ (exists s, before_last_waiting_queue (c_queues st') = Some s
                     /\ last_waiting_queue (c_queues st') = Some s)
       /\ _is_stuck_in_a_loop E (waiting_queue (c_queues st')) = true
       /\ exists evs, log (c_heap st') = EWarn Cycle :: EDrain Cycle :: evs))
  /\ (forall st1 st2 sig,
        cycle_received_inputs st1 = false ->
        subgraph_body E self cycle st1 = (sig, st2) ->
        cycle_received_inputs st2 = true
        <-> exists name comp rq h1 res,
              run_queue (c_queues st1) = (name, comp) :: rq
              /\ _run_component E self name (c_heap st1) = (h1, Ok res)
              /\ invocations (c_heap st2) = invocations (c_heap st1) ++ [name]
              /\ no_receiver_in_cycle comp cycle res
              /\ sig = Next)
  /\ (forall fuel2 st2,
        cycle_received_inputs st2 = true ->
        subgraph_loop E self cycle fuel2 st2 = (Finished, st2)).
Proof.
  apply (cycle_loop_ends_when_received_or_stuck
           Examples.Countdown.E Examples.Countdown.pipeline
           Examples.Countdown.cycle 10 Examples.Countdown.init).
  - reflexivity.
  - reflexivity.
  - left. reflexivity.
Defined.

(** The cycle [a, b] entered at [a], with [b] waiting for an input from
    outside the cycle: [a] runs and feeds [b], [b] is never ready, and the
    third progress check finds the loop stuck. The loop of the cycle ends,
    and [_run_subgraph] returns, with [cycle_received_inputs] false. *)
Lemma cycle_loop_stops_without_received :
  let r :=
    subgraph_loop Examples.StuckCycle.E Examples.StuckCycle.pipeline
                  Examples.StuckCycle.cycle 10 Examples.StuckCycle.init in
  seed_run_queue Examples.StuckCycle.pipeline Examples.StuckCycle.cycle "a"
  = Ok (run_queue (c_queues Examples.StuckCycle.init))
  /\ fst r = Stopped
  /\ cycle_received_inputs (snd r) = false
  /\ invocations (c_heap (snd r)) = ["a"]
  /\ rev (log (c_heap (snd r)))
     = [EInvoke "a" [("y", VInt 0)]; EYield [("a", [("out", VInt 1)])];
        EDrain Cycle; EDrain Cycle; EDrain Cycle; EWarn Cycle]
  /\ fst (fst (_run_subgraph Examples.StuckCycle.E
                 Examples.StuckCycle.pipeline Examples.StuckCycle.cycle "a"
                 10 Examples.StuckCycle.heap)) = Stopped.
Proof. vm_compute. repeat split; reflexivity. Qed.

(** ** Lazy-variadic deferral (C4) *)

Section Deferral.

Context {W R : Type} (E : @Externals W R) (self : AsyncPipeline).

Lemma run_component_invocations_any (name : string) (h h1 : Heap)
    (r : result (dict value)) :
  _run_component E self name h = (h1, r) ->
  invocations h1 = invocations h
  \/ invocations h1 = invocations h ++ [name].
Proof.
  unfold _run_component.
  destruct (dget name (components_inputs h)) as [inputs|];
    [|intros [= <- _]; by left].
  destruct (dget name (graph_nodes self)) as [instance|];
    [|intros [= <- _]; by left].
  destruct ((if supports_async instance then run_async E else run_sync E)
              (world h) name inputs) as [w' r'].
  assert (Hlogged : forall v,
            invocations
              (mkHeap w' (dset name (v + 1) (visits h))
                      (dset name (reset_variadic instance inputs)
                            (components_inputs h))
                      (EInvoke name inputs :: log h))
            = invocations h ++ [name]).
  { intros v. unfold invocations. simpl. by rewrite omap_app. }
  destruct r' as [res'|bad|]; [| |intros [= <- _]; by left];
    (destruct (dget name (visits h)) as [v|]; [|intros [= <- _]; by left]);
    intros [= <- _]; right; apply Hlogged.
Qed.

Lemma invocations_yield (item : dict (dict value)) (h : @Heap W) :
  invocations (emit (EYield item) h) = invocations h.
Proof. rewrite invocations_emit. by rewrite app_nil_r. Qed.

Lemma subgraph_after_run_invocations (cycle : list string) (name : string)
    (comp : Component) (res : dict value) (h1 : Heap) (rq wq : list pair)
    (before_last last : option (gset string))
    (outs : dict (dict value)) (received : bool)
    (sig : signal) (st' : CycleState) :
  subgraph_after_run E cycle name comp res h1 rq wq before_last last outs
                     received
  = (sig, st') ->
  invocations (c_heap st') = invocations h1.
Proof.
  unfold subgraph_after_run. intros Hrun.
  destruct (dget name _) as [inputs|];
    [|injection Hrun as _ <-; apply invocations_yield].
  destruct (delete_cycle_inputs _ _ _ _) as [inputs' [e|]];
    [injection Hrun as _ <-; apply invocations_yield|].
  destruct (final_output_reached comp cycle (dkeys res)) as [reached|e];
    [|injection Hrun as _ <-; apply invocations_yield].
  destruct (dequeue_all _ _ _ _) as [rq2 wq2].
  destruct (_distribute_output E _ _ _ _ _) as [[[res' ci] rq3] wq3].
  destruct (progress_check E Cycle _ _) as [[stop h4] q4] eqn:Hcheck.
  apply progress_check_invocations in Hcheck.
  injection Hrun as _ <-. simpl. rewrite Hcheck. apply invocations_yield.
Qed.

Lemma main_after_run_invocations (name : string) (comp : Component)
    (res : dict value) (h1 : Heap) (rq wq : list pair)
    (before_last last : option (gset string))
    (finals : dict (dict value)) (sig : signal) (st' : MainState) :
  main_after_run E name comp res h1 rq wq before_last last finals
  = (sig, st') ->
  invocations (m_heap st') = invocations h1.
Proof.
  unfold main_after_run. intros Hrun.
  destruct (dget name _) as [inputs|];
    [|injection Hrun as _ <-; apply invocations_yield].
  destruct (delete_consumed_inputs _ _ _) as [inputs' [e|]];
    [injection Hrun as _ <-; apply invocations_yield|].
  destruct (dequeue_all _ _ _ _) as [rq2 wq2].
  destruct (_distribute_output E _ _ _ _ _) as [[[res' ci] rq3] wq3].
  destruct (progress_check E Main _ _) as [[stop h4] q4] eqn:Hcheck.
  apply progress_check_invocations in Hcheck.
  injection Hrun as _ <-. simpl. rewrite Hcheck. apply invocations_yield.
Qed.




End Deferral.




(** ** The consumed inputs in a pass of either loop (C7, C8) *)

Lemma run_component_store {W R : Type} (E : @Externals W R)
    (self : AsyncPipeline) (name : string) (h h1 : Heap) (res : dict value)
    (inputs : dict value) :
  dget name (components_inputs h) = Some inputs ->
  _run_component E self name h = (h1, Ok res) ->
  exists instance,
    dget name (graph_nodes self) = Some instance
    /\ components_inputs h1
       = dset name (reset_variadic instance inputs) (components_inputs h).
Proof.
  intros Hin. unfold _run_component. rewrite Hin.
  destruct (dget name (graph_nodes self)) as [instance|]; [|by intros [=]].
  destruct ((if supports_async instance then run_async E else run_sync E)
              (world h) name inputs) as [w' r].
  destruct r as [res'|bad|].
  - destruct (dget name (visits h)) as [v|]; [|by intros [=]].
    intros [= <- _]. by exists instance.
  - destruct (dget name (visits h)) as [v|]; by intros [=].
  - by intros [=].
Qed.

Lemma progress_check_no_drain {W R : Type} (E : @Externals W R) (sc : scope)
    (h : Heap) (q : Queues) :
  run_queue q <> [] \/ waiting_queue q = [] ->
  progress_check E sc h q = (false, h, q).
Proof.
  intros Hq. unfold progress_check.
  destruct (run_queue q) as [|p rq]; [|done].
  destruct Hq as [Hq| ->]; done.
Qed.

(** C8: a pass of the main loop that runs a component outside every cycle
    (lines 474-505). After the run every variadic socket that was among the
    inputs holds the empty list ([_run_component], lines 127-131); the
    deletion of lines 483-488 then removes from the component's entry of
    the input store the sockets that have senders and retains, with their
    value after the reset, those that have none; the entries of the other
    components are untouched. This store is the one handed to
    [_find_components_that_will_receive_no_input] and [_distribute_output]
    (lines 499-502), and the heap the pass ends with is the one the progress
    check makes of the distributor's store: that very store when the
    waiting queue is not drained. *)
Theorem main_pass_consumes_inputs {W R : Type} (E : @Externals W R)
    (self : AsyncPipeline) (components_in_cycles : dict (list (list string)))
    (fuel : nat) (name : string) (comp : Component) (rq wq : list pair)
    (before_last last : option (gset string)) (h h1 : Heap)
    (finals : dict (dict value)) (v : Z) (res inputs : dict value)
    (sig : signal) (st' : MainState) :
  lazy_variadic_deferred E comp rq = false ->
  _component_has_enough_inputs_to_run E name (components_inputs h) = true ->
  default [] (dget name components_in_cycles) = [] ->
  dget name (visits h) = Some v ->
  v <= _max_runs_per_component self ->
  dget name (components_inputs h) = Some inputs ->
  (forall k, In k (dkeys inputs) -> is_Some (dget k (input_sockets comp))) ->
  _run_component E self name h = (h1, Ok res) ->
  main_body E self components_in_cycles fuel
    (mkMainState h (mkQueues ((name, comp) :: rq) wq before_last last) finals)
  = (sig, st') ->
  exists (instance : Component) (inputs1 inputs2 : dict value)
         (store : dict (dict value)),
    dget name (graph_nodes self) = Some instance
    /\ dget name (components_inputs h1) = Some inputs1
    /\ (forall socket,
          In socket (dvalues (input_sockets instance)) ->
          InputSocket.is_variadic socket = true ->
          dmem (InputSocket.name socket) inputs = true ->
          dget (InputSocket.name socket) inputs1 = Some (VList []))
    /\ (forall k socket,
          is_Some (dget k inputs) ->
          dget k (input_sockets comp) = Some socket ->
          (InputSocket.senders socket <> [] -> dget k inputs2 = None)
          /\ (InputSocket.senders socket = [] ->
              dget k inputs2 = dget k inputs1 /\ is_Some (dget k inputs2)))
    /\ dget name store = Some inputs2
    /\ (forall other, other <> name ->
          dget other store = dget other (components_inputs h))
    /\ exists (rq2 wq2 rq3 wq3 : list pair) (res' : dict value)
              (ci : dict (dict value)) (stop : bool),
         dequeue_all E
           (_find_components_that_will_receive_no_input E name res store)
           rq (_dequeue_waiting_component E (name, comp) wq)
         = (rq2, wq2)
         /\ _distribute_output E (_find_receivers_from E name) res store
                               rq2 wq2
            = (res', ci, rq3, wq3)
         /\ progress_check E Main
              (set_inputs ci (emit (EYield [(name, res)]) h1))
              (mkQueues rq3 wq3 None None)
            = (stop, m_heap st', m_queues st')
         /\ sig = (if stop then Stop else Next)
         /\ (rq3 <> [] \/ wq3 = [] ->
             components_inputs (m_heap st') = ci).
Proof.
  intros Hdef Hready Hcyc Hv Hmax Hin Hdecl Hcomp.
  destruct (run_component_store E self name h h1 res inputs Hin Hcomp)
    as (instance & Hinst & Hstore).
  set (inputs1 := reset_variadic instance inputs) in *.
  assert (Hkeys : dkeys inputs1 = dkeys inputs) by apply reset_fold_keys.
  destruct (delete_consumed_inputs_spec comp (dkeys inputs1) inputs1)
    as (inputs2 & Hdel & Hget).
  { rewrite Hkeys. exact Hdecl. }
  assert (Hgt : (v >? _max_runs_per_component self) = false)
    by (rewrite Z.gtb_ltb; apply Z.ltb_ge; lia).
  unfold main_body. cbn [m_heap m_queues final_outputs run_queue
                         waiting_queue before_last_waiting_queue
                         last_waiting_queue].
  rewrite Hdef, Hready, Hcyc, Hv, Hgt, Hcomp.
  unfold main_after_run.
  cbn [emit components_inputs]. rewrite Hstore, dget_dset_eq, Hdel.
  cbn [set_inputs components_inputs world visits log].
  set (store := dset name inputs2 (dset name inputs1 (components_inputs h))).
  destruct (dequeue_all E _ rq _) as [rq2 wq2] eqn:Hdeq.
  destruct (_distribute_output E _ res store rq2 wq2)
    as [[[res' ci] rq3] wq3] eqn:Hdist.
  destruct (progress_check E Main _ _) as [[stop h4] q4] eqn:Hcheck.
  intros [= <- <-].
  exists instance, inputs1, inputs2, store.
  split; [done|]. split; [done|].
  split; [intros socket Hs Hvar Hmem; by apply reset_fold_variadic|].
  split.
  { intros k socket Hk Hs.
    assert (Hmem : mem_str k (dkeys inputs1) = true).
    { rewrite Hkeys. by apply mem_str_In, dget_In_keys. }
    rewrite Hget, Hmem. unfold has_senders. rewrite Hs. simpl.
    destruct (InputSocket.senders socket); split; try done.
    intros _. split; [done|].
    apply dget_In_keys. rewrite Hkeys. by apply dget_In_keys. }
  split; [apply dget_dset_eq|].
  split.
  { intros other Hne. unfold store. by rewrite !dget_dset_ne. }
  exists rq2, wq2, rq3, wq3, res', ci, stop.
  split; [done|]. split; [done|]. split; [done|]. split; [done|].
  intros Hq. simpl.
  rewrite progress_check_no_drain in Hcheck by done.
  by injection Hcheck as _ <- _.
Qed.

Lemma main_pass_consumes_inputs_witness :
  let E := Examples.Mixed.E in
  let self := Examples.Mixed.pipeline in
  let name := "m" in
  let comp := Examples.Mixed.m in
  let inputs := Examples.Mixed.inputs in
  let res := [("out", VInt 1)] in
  let h := Examples.Mixed.heap in
  let h1 := fst (_run_component E self name h) in
  let pass := main_body E self [] 0 Examples.Mixed.main_start in
  exists (instance : Component) (inputs1 inputs2 : dict value)
         (store : dict (dict value)),
    dget name (graph_nodes self) = Some instance
    /\ dget name (components_inputs h1) = Some inputs1
    /\ (forall socket,
          In socket (dvalues (input_sockets instance)) ->
          InputSocket.is_variadic socket = true ->
          dmem (InputSocket.name socket) inputs = true ->
          dget (InputSocket.name socket) inputs1 = Some (VList []))
    /\ (forall k socket,
          is_Some (dget k inputs) ->
          dget k (input_sockets comp) = Some socket ->
          (InputSocket.senders socket <> [] -> dget k inputs2 = None)
          /\ (InputSocket.senders socket = [] ->
              dget k inputs2 = dget k inputs1 /\ is_Some (dget k inputs2)))
    /\ dget name store = Some inputs2
    /\ (forall other, other <> name ->
          dget other store = dget other (components_inputs h))
    /\ exists (rq2 wq2 rq3 wq3 : list pair) (res' : dict value)
              (ci : dict (dict value)) (stop : bool),
         dequeue_all E
           (_find_components_that_will_receive_no_input E name res store)
           [] (_dequeue_waiting_component E (name, comp) [])
         = (rq2, wq2)
         /\ _distribute_output E (_find_receivers_from E name) res store
                               rq2 wq2
            = (res', ci, rq3, wq3)
         /\ progress_check E Main
              (set_inputs ci (emit (EYield [(name, res)]) h1))
              (mkQueues rq3 wq3 None None)
            = (stop, m_heap (snd pass), m_queues (snd pass))
         /\ fst pass = (if stop then Stop else Next)
         /\ (rq3 <> [] \/ wq3 = [] ->
             components_inputs (m_heap (snd pass)) = ci).
Proof.
  apply (main_pass_consumes_inputs Examples.Mixed.E Examples.Mixed.pipeline
           [] 0 "m" Examples.Mixed.m [] [] None None Examples.Mixed.heap
           _ [] 0 [("out", VInt 1)] Examples.Mixed.inputs).
  - reflexivity.
  - reflexivity.
  - reflexivity.
  - reflexivity.
  - simpl. lia.
  - reflexivity.
  - intros k Hk. simpl in Hk.
    destruct Hk as [<-|[<-|[<-|[]]]]; vm_compute; eauto.
  - reflexivity.
  - reflexivity.
Defined.

(** C7: a pass of the cycle sub-scheduler that runs a component (lines
    204-256). The deletion of lines 209-219 goes over the entries the
    component consumed and removes from its entry of the input store
    exactly those whose socket has senders, all of them inside the cycle;
    an entry whose socket has no sender, or a sender outside the cycle, is
    retained with its value; the entries of the other components are
    untouched. When line 228 then raises, this store is the one of the heap
    the pass ends with; otherwise it is the store handed to
    [_find_components_that_will_receive_no_input] and [_distribute_output]
    (lines 242-251), and the heap the pass ends with is the one the
    progress check makes of the distributor's store: that very store when
    the waiting queue is not drained. *)
Theorem cycle_pass_deletes_iff_all_senders_in_cycle {W R : Type}
    (E : @Externals W R) (self : AsyncPipeline) (cycle : list string)
    (name : string) (comp : Component) (rq wq : list pair)
    (before_last last : option (gset string)) (h h1 : Heap)
    (outs : dict (dict value)) (received : bool) (v : Z)
    (res inputs : dict value) (sig : signal) (st' : CycleState) :
  lazy_variadic_deferred E comp rq = false ->
  _component_has_enough_inputs_to_run E name (components_inputs h) = true ->
  dget name (visits h) = Some v ->
  v <= _max_runs_per_component self ->
  dget name (components_inputs h) = Some inputs ->
  (forall k, In k (dkeys inputs) -> is_Some (dget k (input_sockets comp))) ->
  _run_component E self name h = (h1, Ok res) ->
  subgraph_body E self cycle
    (mkCycleState h (mkQueues ((name, comp) :: rq) wq before_last last)
                  outs received)
  = (sig, st') ->
  exists (inputs1 inputs2 : dict value) (store : dict (dict value)),
    dget name (components_inputs h1) = Some inputs1
    /\ dkeys inputs1 = dkeys inputs
    /\ (forall k socket,
          is_Some (dget k inputs1) ->
          dget k (input_sockets comp) = Some socket ->
          (dget k inputs2 = None
           <-> InputSocket.senders socket <> []
               /\ forall sender, In sender (InputSocket.senders socket) ->
                                 In sender cycle)
          /\ (InputSocket.senders socket = []
              \/ (exists sender, In sender (InputSocket.senders socket)
                                 /\ ~ In sender cycle) ->
              dget k inputs2 = dget k inputs1))
    /\ dget name store = Some inputs2
    /\ (forall other, other <> name ->
          dget other store = dget other (components_inputs h))
    /\ ((exists e,
           final_output_reached comp cycle (dkeys res) = Err e
           /\ sig = Raised e
           /\ components_inputs (c_heap st') = store)
        \/ exists (reached : bool) (rq2 wq2 rq3 wq3 : list pair)
                  (res' : dict value) (ci : dict (dict value)) (stop : bool),
             final_output_reached comp cycle (dkeys res) = Ok reached
             /\ dequeue_all E
                  (_find_components_that_will_receive_no_input E name res
                     store)
                  rq (_dequeue_waiting_component E (name, comp) wq)
                = (rq2, wq2)
             /\ _distribute_output E
                  (List.filter
                     (fun item => mem_str (receiver_name E item) cycle)
                     (_find_receivers_from E name))
                  res store rq2 wq2
                = (res', ci, rq3, wq3)
             /\ progress_check E Cycle
                  (set_inputs ci (emit (EYield [(name, res)]) h1))
                  (mkQueues rq3 wq3 None None)
                = (stop, c_heap st', c_queues st')
             /\ sig = (if stop then Stop else Next)
             /\ (rq3 <> [] \/ wq3 = [] ->
                 components_inputs (c_heap st') = ci)).
Proof.
  intros Hdef Hready Hv Hmax Hin Hdecl Hcomp.
  destruct (run_component_store E self name h h1 res inputs Hin Hcomp)
    as (instance & Hinst & Hstore).
  set (inputs1 := reset_variadic instance inputs) in *.
  assert (Hkeys : dkeys inputs1 = dkeys inputs) by apply reset_fold_keys.
  destruct (delete_cycle_inputs_iff cycle comp inputs1)
    as (inputs2 & Hdel & Hget).
  { rewrite Hkeys. exact Hdecl. }
  assert (Hgt : (v >? _max_runs_per_component self) = false)
    by (rewrite Z.gtb_ltb; apply Z.ltb_ge; lia).
  unfold subgraph_body. cbn [c_heap c_queues subgraph_outputs
                             cycle_received_inputs run_queue
                             waiting_queue before_last_waiting_queue
                             last_waiting_queue].
  rewrite Hdef, Hready, Hv, Hgt, Hcomp.
  unfold subgraph_after_run.
  cbn [emit components_inputs]. rewrite Hstore, dget_dset_eq, Hdel.
  cbn [set_inputs components_inputs world visits log].
  set (store := dset name inputs2 (dset name inputs1 (components_inputs h))).
  intros Hpass.
  exists inputs1, inputs2, store.
  split; [done|]. split; [done|]. split; [done|].
  split; [apply dget_dset_eq|].
  split.
  { intros other Hne. unfold store. by rewrite !dget_dset_ne. }
  destruct (final_output_reached comp cycle (dkeys res)) as [reached|e].
  - right.
    destruct (dequeue_all E _ rq _) as [rq2 wq2] eqn:Hdeq.
    destruct (_distribute_output E _ res store rq2 wq2)
      as [[[res' ci] rq3] wq3] eqn:Hdist.
    destruct (progress_check E Cycle _ _) as [[stop h4] q4] eqn:Hcheck.
    injection Hpass as <- <-.
    exists reached, rq2, wq2, rq3, wq3, res', ci, stop.
    split; [done|]. split; [done|]. split; [done|]. split; [done|].
    split; [done|].
    intros Hq. simpl.
    rewrite progress_check_no_drain in Hcheck by done.
    by injection Hcheck as _ <- _.
  - left. exists e. injection Hpass as <- <-. done.
Qed.

Lemma cycle_pass_deletes_iff_all_senders_in_cycle_witness :
  let E := Examples.Mixed.E in
  let self := Examples.Mixed.pipeline in
  let cycle := Examples.Mixed.cycle in
  let name := "m" in
  let comp := Examples.Mixed.m in
  let inputs := Examples.Mixed.inputs in
  let res := [("out", VInt 1)] in
  let h := Examples.Mixed.heap in
  let h1 := fst (_run_component E self name h) in
  let pass := subgraph_body E self cycle Examples.Mixed.cycle_start in
  exists (inputs1 inputs2 : dict value) (store : dict (dict value)),
    dget name (components_inputs h1) = Some inputs1
    /\ dkeys inputs1 = dkeys inputs
    /\ (forall k socket,
          is_Some (dget k inputs1) ->
          dget k (input_sockets comp) = Some socket ->
          (dget k inputs2 = None
           <-> InputSocket.senders socket <> []
               /\ forall sender, In sender (InputSocket.senders socket) ->
                                 In sender cycle)
          /\ (InputSocket.senders socket = []
              \/ (exists sender, In sender (InputSocket.senders socket)
                                 /\ ~ In sender cycle) ->
              dget k inputs2 = dget k inputs1))
    /\ dget name store = Some inputs2
    /\ (forall other, other <> name ->
          dget other store = dget other (components_inputs h))
    /\ ((exists e,
           final_output_reached comp cycle (dkeys res) = Err e
           /\ fst pass = Raised e
           /\ components_inputs (c_heap (snd pass)) = store)
        \/ exists (reached : bool) (rq2 wq2 rq3 wq3 : list pair)
                  (res' : dict value) (ci : dict (dict value)) (stop : bool),
             final_output_reached comp cycle (dkeys res) = Ok reached
             /\ dequeue_all E
                  (_find_components_that_will_receive_no_input E name res
                     store)
                  [] (_dequeue_waiting_component E (name, comp) [])
                = (rq2, wq2)
             /\ _distribute_output E
                  (List.filter
                     (fun item => mem_str (receiver_name E item) cycle)
                     (_find_receivers_from E name))
                  res store rq2 wq2
                = (res', ci, rq3, wq3)
             /\ progress_check E Cycle
                  (set_inputs ci (emit (EYield [(name, res)]) h1))
                  (mkQueues rq3 wq3 None None)
                = (stop, c_heap (snd pass), c_queues (snd pass))
             /\ fst pass = (if stop then Stop else Next)
             /\ (rq3 <> [] \/ wq3 = [] ->
                 components_inputs (c_heap (snd pass)) = ci)).
Proof.
  apply (cycle_pass_deletes_iff_all_senders_in_cycle Examples.Mixed.E
           Examples.Mixed.pipeline Examples.Mixed.cycle "m" Examples.Mixed.m
           [] [] None None Examples.Mixed.heap _ [] false 0
           [("out", VInt 1)] Examples.Mixed.inputs).
  - reflexivity.
  - reflexivity.
  - reflexivity.
  - simpl. lia.
  - reflexivity.
  - intros k Hk. simpl in Hk.
    destruct Hk as [<-|[<-|[<-|[]]]]; vm_compute; eauto.
  - reflexivity.
  - reflexivity.
Defined.

(** * Further properties *)

(** ** [run_async_pipeline] *)

Lemma dget_not_key {V} (k : string) (d : dict V) :
  ~ In k (dkeys d) -> dget k d = None.
Proof.
  intros Hnot. destruct (dget k d) eqn:Hk; [|done].
  destruct Hnot. apply dget_In_keys. eauto.
Qed.

Lemma dkeys_dset {V} (k : string) (v : V) (d : dict V) :
  dkeys (dset k v d) = if dmem k d then dkeys d else dkeys d ++ [k].
Proof.
  unfold dmem. induction d as [|[k' v'] d IH]; simpl; [done|].
  destruct (String.eqb_spec k k') as [->|Hne]; simpl; [done|].
  rewrite IH. by destruct (dget k d).
Qed.

Lemma dset_NoDup {V} (k : string) (v : V) (d : dict V) :
  NoDup (dkeys d) -> NoDup (dkeys (dset k v d)).
Proof.
  intros Hd. rewrite dkeys_dset. destruct (dmem k d) eqn:Hmem; [done|].
  apply NoDup_app. split; [done|]. split; [|apply NoDup_singleton].
  intros x Hx Hin. apply list_elem_of_In in Hx.
  apply list_elem_of_In in Hin. destruct Hin as [->|[]].
  apply dget_In_keys, dmem_true in Hx. congruence.
Qed.

Section RunAsyncPipeline.

Context (include_outputs_from : option (gset string)).

Lemma intermediate_outputs_fold (outputs : list (dict (dict value))) :
  intermediate_outputs outputs include_outputs_from
  = fold_left (add_items include_outputs_from) outputs [].
Proof. reflexivity. Qed.

Lemma add_items_excluded (k : string) (d acc : dict (dict value)) :
  included include_outputs_from k = false ->
  dget k (add_items include_outputs_from acc d) = dget k acc.
Proof.
  intros Hk. unfold add_items. revert acc.
  induction d as [|[k0 v0] d IH]; intros acc; simpl; [done|].
  rewrite IH. destruct (included include_outputs_from k0) eqn:Hk0; [|done].
  apply dget_dset_ne. congruence.
Qed.

Lemma add_items_absent (k : string) (d acc : dict (dict value)) :
  dget k d = None ->
  dget k (add_items include_outputs_from acc d) = dget k acc.
Proof.
  unfold add_items. revert acc.
  induction d as [|[k0 v0] d IH]; intros acc; simpl; [done|].
  destruct (String.eqb_spec k k0) as [->|Hne]; [done|].
  intros Hd. rewrite IH by done.
  destruct (included include_outputs_from k0); [|done].
  apply dget_dset_ne. congruence.
Qed.

Lemma add_items_present (k : string) (v : dict value)
    (d acc : dict (dict value)) :
  included include_outputs_from k = true ->
  NoDup (dkeys d) ->
  dget k d = Some v ->
  dget k (add_items include_outputs_from acc d) = Some v.
Proof.
  intros Hk. revert acc.
  induction d as [|[k0 v0] d IH]; intros acc Hnodup; simpl; [done|].
  simpl in Hnodup. apply NoDup_cons in Hnodup as [Hk0 Hnodup].
  destruct (String.eqb_spec k k0) as [->|Hne].
  - intros [= ->]. unfold add_items. simpl. rewrite Hk.
    fold (add_items include_outputs_from (dset k0 v acc) d).
    rewrite add_items_absent; [apply dget_dset_eq|].
    apply dget_not_key. by rewrite <- list_elem_of_In.
  - intros Hd. unfold add_items. simpl.
    by apply (IH _ Hnodup Hd).
Qed.

Lemma add_items_NoDup (d acc : dict (dict value)) :
  NoDup (dkeys acc) -> NoDup (dkeys (add_items include_outputs_from acc d)).
Proof.
  unfold add_items. revert acc.
  induction d as [|[k0 v0] d IH]; intros acc Hacc; simpl; [done|].
  apply IH. destruct (included include_outputs_from k0); [|done].
  by apply dset_NoDup.
Qed.

Lemma fold_add_items_excluded (k : string)
    (outputs : list (dict (dict value))) (acc : dict (dict value)) :
  included include_outputs_from k = false ->
  dget k (fold_left (add_items include_outputs_from) outputs acc)
  = dget k acc.
Proof.
  intros Hk. revert acc.
  induction outputs as [|d outputs IH]; intros acc; simpl; [done|].
  by rewrite IH, add_items_excluded.
Qed.

Lemma fold_add_items_absent (k : string)
    (outputs : list (dict (dict value))) (acc : dict (dict value)) :
  (forall d, In d outputs -> dget k d = None) ->
  dget k (fold_left (add_items include_outputs_from) outputs acc)
  = dget k acc.
Proof.
  revert acc.
  induction outputs as [|d outputs IH]; intros acc Habs; simpl; [done|].
  rewrite IH by (intros; apply Habs; by right).
  apply add_items_absent, Habs. by left.
Qed.

Lemma fold_add_items_NoDup (outputs : list (dict (dict value)))
    (acc : dict (dict value)) :
  NoDup (dkeys acc) ->
  NoDup (dkeys (fold_left (add_items include_outputs_from) outputs acc)).
Proof.
  revert acc.
  induction outputs as [|d outputs IH]; intros acc Hacc; simpl; [done|].
  by apply IH, add_items_NoDup.
Qed.

Lemma intermediate_outputs_NoDup (outputs : list (dict (dict value))) :
  NoDup (dkeys (intermediate_outputs outputs include_outputs_from)).
Proof.
  rewrite intermediate_outputs_fold. apply fold_add_items_NoDup.
  apply NoDup_nil_2.
Qed.

(** The comprehension keeps, for a key, the value of the last dictionary
    that has it. *)
Lemma intermediate_outputs_last (k : string) (v : dict value)
    (pre post : list (dict (dict value))) (d : dict (dict value)) :
  included include_outputs_from k = true ->
  NoDup (dkeys d) ->
  dget k d = Some v ->
  (forall d', In d' post -> dget k d' = None) ->
  dget k (intermediate_outputs (pre ++ d :: post) include_outputs_from)
  = Some v.
Proof.
  intros Hk Hnodup Hd Hpost. rewrite intermediate_outputs_fold.
  rewrite fold_left_app. simpl.
  rewrite fold_add_items_absent by done.
  by apply add_items_present.
Qed.

End RunAsyncPipeline.

(** Lines 582-584 never overwrite: a key of [inner] keeps its value, a key
    that [inner] lacks takes the value of [output]. *)
Lemma merge_missing_lookup (k : string) (output inner : dict value) :
  dget k (merge_missing output inner)
  = match dget k inner with
    | Some v => Some v
    | None => dget k output
    end.
Proof.
  unfold merge_missing. revert inner.
  induction output as [|[k0 v0] output IH]; intros inner; simpl.
  - by destruct (dget k inner).
  - rewrite IH. unfold dmem.
    destruct (String.eqb_spec k k0) as [->|Hne].
    + destruct (dget k0 inner) eqn:Hk0; [by rewrite Hk0|].
      by rewrite dget_dset_eq.
    + destruct (dget k0 inner); [done|].
      rewrite dget_dset_ne by congruence. done.
Qed.

Lemma accumulate_absent (name : string)
    (intermediate final_output : dict (dict value)) :
  dget name intermediate = None ->
  dget name (accumulate intermediate final_output) = dget name final_output.
Proof.
  unfold accumulate. revert final_output.
  induction intermediate as [|[n0 o0] intermediate IH];
    intros final_output; simpl; [done|].
  destruct (String.eqb_spec name n0) as [->|Hne]; [done|].
  intros Habs. rewrite IH by done.
  destruct (dget n0 final_output); apply dget_dset_ne; congruence.
Qed.

Lemma accumulate_present (name : string) (output : dict value)
    (intermediate final_output : dict (dict value)) :
  NoDup (dkeys intermediate) ->
  dget name intermediate = Some output ->
  dget name (accumulate intermediate final_output)
  = Some match dget name final_output with
         | None => output
         | Some inner => merge_missing output inner
         end.
Proof.
  revert final_output.
  induction intermediate as [|[n0 o0] intermediate IH];
    intros final_output Hnodup; simpl; [done|].
  simpl in Hnodup. apply NoDup_cons in Hnodup as [Hn0 Hnodup].
  destruct (String.eqb_spec name n0) as [->|Hne].
  - intros [= ->]. unfold accumulate. simpl.
    match goal with
    | |- dget _ (fold_left ?f intermediate ?acc) = _ =>
        change (fold_left f intermediate acc) with (accumulate intermediate acc)
    end.
    rewrite accumulate_absent
      by (apply dget_not_key; by rewrite <- list_elem_of_In).
    destruct (dget n0 final_output); by rewrite dget_dset_eq.
  - intros Hin. unfold accumulate. simpl.
    match goal with
    | |- dget _ (fold_left ?f intermediate ?acc) = _ =>
        change (fold_left f intermediate acc) with (accumulate intermediate acc)
    end.
    rewrite IH by done.
    destruct (dget n0 final_output);
      rewrite dget_dset_ne by congruence; done.
Qed.

(** X1: with a set [include_outputs_from], [run_async_pipeline] leaves
    every name outside the set as the run's final outputs have it: its
    entry is the leaf output, unchanged, or there is none. *)
Theorem run_async_pipeline_leaves_unlisted
    (outputs : list (dict (dict value))) (final_output : dict (dict value))
    (names : gset string) (name : string) :
  last outputs = Some final_output ->
  name ∉ names ->
  exists result,
    run_async_pipeline outputs (Some names) = Ok result
    /\ dget name result = dget name final_output.
Proof.
  intros Hlast Hname. unfold run_async_pipeline. rewrite Hlast.
  eexists. split; [reflexivity|].
  apply accumulate_absent. rewrite intermediate_outputs_fold.
  apply fold_add_items_excluded. simpl. by apply bool_decide_eq_false_2.
Qed.

Lemma run_async_pipeline_leaves_unlisted_witness :
  exists result,
    run_async_pipeline Examples.Stream.outputs (Some {["a"]}) = Ok result
    /\ dget "b" result = dget "b" Examples.Stream.final_output.
Proof.
  apply (run_async_pipeline_leaves_unlisted Examples.Stream.outputs
           Examples.Stream.final_output {["a"]} "b").
  - reflexivity.
  - intros H. apply elem_of_singleton in H. discriminate H.
Defined.

(** X2: whatever [include_outputs_from] is, [run_async_pipeline] never
    overwrites a value of the final outputs: a key of a leaf output keeps
    its value in the returned dictionary. *)
Theorem run_async_pipeline_keeps_leaf_values
    (outputs : list (dict (dict value))) (final_output : dict (dict value))
    (include_outputs_from : option (gset string))
    (name k : string) (inner : dict value) (v : value) :
  last outputs = Some final_output ->
  dget name final_output = Some inner ->
  dget k inner = Some v ->
  exists result inner',
    run_async_pipeline outputs include_outputs_from = Ok result
    /\ dget name result = Some inner'
    /\ dget k inner' = Some v.
Proof.
  intros Hlast Hname Hk. unfold run_async_pipeline. rewrite Hlast.
  set (inter := intermediate_outputs (removelast outputs)
                                     include_outputs_from).
  destruct (dget name inter) as [output|] eqn:Hinter.
  - exists (accumulate inter final_output), (merge_missing output inner).
    split; [done|]. split.
    + rewrite (accumulate_present name output) by
        (done || apply intermediate_outputs_NoDup).
      by rewrite Hname.
    + by rewrite merge_missing_lookup, Hk.
  - exists (accumulate inter final_output), inner.
    split; [done|]. split; [|done].
    by rewrite accumulate_absent.
Qed.

Lemma run_async_pipeline_keeps_leaf_values_witness :
  exists result inner',
    run_async_pipeline Examples.Stream.outputs None = Ok result
    /\ dget "a" result = Some inner'
    /\ dget "done" inner' = Some (VInt 0).
Proof.
  apply (run_async_pipeline_keeps_leaf_values Examples.Stream.outputs
           Examples.Stream.final_output None "a" "done"
           [("done", VInt 0)] (VInt 0));
    reflexivity.
Defined.

(** X3: for a name that the filter lets through, [run_async_pipeline]
    takes the output of the last intermediate item that has the name. When
    the final outputs have no entry for the name, that output is the
    entry; otherwise its keys are added to the leaf output where the leaf
    output has none. *)
Theorem run_async_pipeline_takes_last_and_merges
    (pre post : list (dict (dict value))) (d final_output : dict (dict value))
    (include_outputs_from : option (gset string))
    (name : string) (output : dict value) :
  included include_outputs_from name = true ->
  NoDup (dkeys d) ->
  dget name d = Some output ->
  (forall d', In d' post -> dget name d' = None) ->
  exists result merged,
    run_async_pipeline (pre ++ d :: post ++ [final_output])
                       include_outputs_from = Ok result
    /\ dget name result = Some merged
    /\ forall k,
         dget k merged
         = match dget name final_output with
           | None => dget k output
           | Some inner =>
               match dget k inner with
               | Some v => Some v
               | None => dget k output
               end
           end.
Proof.
  intros Hname Hnodup Hd Hpost. unfold run_async_pipeline.
  replace (pre ++ d :: post ++ [final_output])
    with ((pre ++ d :: post) ++ [final_output])
    by (by rewrite <- app_assoc).
  rewrite last_snoc, removelast_last.
  eexists _, _. split; [reflexivity|]. split.
  - apply accumulate_present; [apply intermediate_outputs_NoDup|].
    by apply intermediate_outputs_last.
  - intros k. destruct (dget name final_output); [|done].
    apply merge_missing_lookup.
Qed.

Lemma run_async_pipeline_takes_last_and_merges_witness :
  exists result merged,
    run_async_pipeline
      ([Examples.Stream.first_a; Examples.Stream.of_b]
         ++ Examples.Stream.second_a :: [] ++ [Examples.Stream.final_output])
      (Some {["a"]}) = Ok result
    /\ dget "a" result = Some merged
    /\ forall k,
         dget k merged
         = match dget "a" Examples.Stream.final_output with
           | None => dget k [("out", VInt 2); ("done", VInt 9)]
           | Some inner =>
               match dget k inner with
               | Some v => Some v
               | None => dget k [("out", VInt 2); ("done", VInt 9)]
               end
           end.
Proof.
  apply (run_async_pipeline_takes_last_and_merges
           [Examples.Stream.first_a; Examples.Stream.of_b] []
           Examples.Stream.second_a Examples.Stream.final_output
           (Some {["a"]}) "a" [("out", VInt 2); ("done", VInt 9)]).
  - reflexivity.
  - simpl. apply NoDup_singleton.
  - reflexivity.
  - intros d' [].
Defined.

(** ** [_run_component] *)

Section RunComponent.

Context {W R : Type} (E : @Externals W R) (self : AsyncPipeline).

Lemma reset_step_kept_or_empty (k : string) (inputs : dict value)
    (socket : InputSocket.t) :
  dget k (reset_step inputs socket) = dget k inputs
  \/ dget k (reset_step inputs socket) = Some (VList []).
Proof.
  unfold reset_step. destruct (dmem _ inputs); [|by left].
  destruct (InputSocket.is_variadic socket); [|by left].
  destruct (String.eqb_spec (InputSocket.name socket) k) as [<-|Hne].
  - right. apply dget_dset_eq.
  - left. by apply dget_dset_ne.
Qed.

Lemma reset_fold_kept_or_empty (k : string) (sockets : list InputSocket.t)
    (inputs : dict value) :
  dget k (fold_left reset_step sockets inputs) = dget k inputs
  \/ dget k (fold_left reset_step sockets inputs) = Some (VList []).
Proof.
  revert inputs. induction sockets as [|s sockets IH]; intros inputs; simpl.
  - by left.
  - destruct (reset_step_kept_or_empty k inputs s) as [Hsame|Hempty].
    + rewrite <- Hsame. apply IH.
    + right. by apply reset_fold_keeps_empty.
Qed.

End RunComponent.

(** X4: whatever its outcome, [_run_component] touches only the component
    it runs: the visits and the inputs of every other component are the
    same afterwards. The component's own inputs keep their keys, and each
    value is either kept or reset to the empty list; its visits are kept
    or incremented by one. *)
Theorem run_component_touches_only_its_component {W R : Type}
    (E : @Externals W R) (self : AsyncPipeline) (name : string)
    (h h' : Heap) (r : result (dict value)) :
  _run_component E self name h = (h', r) ->
  (forall other, other <> name ->
     dget other (visits h') = dget other (visits h)
     /\ dget other (components_inputs h') = dget other (components_inputs h))
  /\ (forall inputs, dget name (components_inputs h) = Some inputs ->
        exists inputs',
          dget name (components_inputs h') = Some inputs'
          /\ dkeys inputs' = dkeys inputs
          /\ forall k, dget k inputs' = dget k inputs
                       \/ dget k inputs' = Some (VList []))
  /\ (dget name (visits h') = dget name (visits h)
      \/ exists v, dget name (visits h) = Some v
                   /\ dget name (visits h') = Some (v + 1)).
Proof.
  unfold _run_component. intros Hrun.
  destruct (dget name (components_inputs h)) as [inputs|] eqn:Hin.
  2:{ injection Hrun as <- _. split; [done|]. split; [done|]. by left. }
  assert (Hsame : forall w',
            h' = mkHeap w' (visits h) (components_inputs h) (log h) ->
            (forall other, other <> name ->
               dget other (visits h') = dget other (visits h)
               /\ dget other (components_inputs h')
                  = dget other (components_inputs h))
            /\ (forall inputs0, Some inputs = Some inputs0 ->
                  exists inputs',
                    dget name (components_inputs h') = Some inputs'
                    /\ dkeys inputs' = dkeys inputs0
                    /\ forall k, dget k inputs' = dget k inputs0
                                 \/ dget k inputs' = Some (VList []))
            /\ (dget name (visits h') = dget name (visits h)
                \/ exists v, dget name (visits h) = Some v
                             /\ dget name (visits h') = Some (v + 1))).
  { intros w' ->. simpl. split; [done|]. split; [|by left].
    intros ? [= <-]. exists inputs. auto. }
  destruct (dget name (graph_nodes self)) as [instance|];
    [|injection Hrun as <- _; by apply (Hsame (world h)); destruct h].
  destruct ((if supports_async instance then run_async E else run_sync E)
              (world h) name inputs) as [w' r'].
  assert (Hcounted : forall v,
            dget name (visits h) = Some v ->
            h' = mkHeap w' (dset name (v + 1) (visits h))
                        (dset name (reset_variadic instance inputs)
                              (components_inputs h))
                        (EInvoke name inputs :: log h) ->
            (forall other, other <> name ->
               dget other (visits h') = dget other (visits h)
               /\ dget other (components_inputs h')
                  = dget other (components_inputs h))
            /\ (forall inputs0, Some inputs = Some inputs0 ->
                  exists inputs',
                    dget name (components_inputs h') = Some inputs'
                    /\ dkeys inputs' = dkeys inputs0
                    /\ forall k, dget k inputs' = dget k inputs0
                                 \/ dget k inputs' = Some (VList []))
            /\ (dget name (visits h') = dget name (visits h)
                \/ exists v, dget name (visits h) = Some v
                             /\ dget name (visits h') = Some (v + 1))).
  { intros v Hv ->. simpl. split; [|split].
    - intros other Hne. by rewrite !dget_dset_ne by congruence.
    - intros ? [= <-]. exists (reset_variadic instance inputs).
      split; [apply dget_dset_eq|]. split; [apply reset_fold_keys|].
      intros k. apply reset_fold_kept_or_empty.
    - right. exists v. split; [done|]. apply dget_dset_eq. }
  destruct r' as [res|bad|].
  - destruct (dget name (visits h)) as [v|] eqn:Hv.
    + injection Hrun as <- _. by apply (Hcounted v).
    + injection Hrun as <- _. by apply (Hsame w').
  - destruct (dget name (visits h)) as [v|] eqn:Hv.
    + injection Hrun as <- _. by apply (Hcounted v).
    + injection Hrun as <- _. by apply (Hsame w').
  - injection Hrun as <- _. by apply (Hsame w').
Qed.


(** X5: the only error that [_run_component] raises after it has counted
    the visit is [PipelineRuntimeError]. With any other error (the
    component's own exception, a missing key) the visits, the inputs and
    the log are as before: the run left no trace. *)
Theorem run_component_error_leaves_no_trace {W R : Type}
    (E : @Externals W R) (self : AsyncPipeline) (name : string)
    (h h' : Heap) (e : error) :
  _run_component E self name h = (h', Err e) ->
  e <> PipelineRuntimeError name ->
  visits h' = visits h
  /\ components_inputs h' = components_inputs h
  /\ log h' = log h.
Proof.
  unfold _run_component.
  destruct (dget name (components_inputs h)) as [inputs|];
    [|by intros [= <- _]].
  destruct (dget name (graph_nodes self)) as [instance|];
    [|by intros [= <- _]].
  destruct ((if supports_async instance then run_async E else run_sync E)
              (world h) name inputs) as [w' r'].
  destruct r' as [res|bad|]; [| |by intros [= <- _]];
    (destruct (dget name (visits h)) as [v|]; [|by intros [= <- _]]).
  - by intros [=].
  - intros [= <- <-] Hne. by destruct Hne.
Qed.

Lemma run_component_error_leaves_no_trace_witness :
  let h' := fst (_run_component Examples.SelfLoop.E Examples.SelfLoop.pipeline
                                "a" (mkHeap tt [("a", 0)] [("a", [])] [])) in
  visits h' = [("a", 0)]
  /\ components_inputs h' = [("a", [])]
  /\ log h' = [].
Proof.
  apply (run_component_error_leaves_no_trace
           Examples.SelfLoop.E Examples.SelfLoop.pipeline "a"
           (mkHeap tt [("a", 0)] [("a", [])] []) _ (ComponentError "a")).
  - reflexivity.
  - discriminate.
Defined.

(** ** [_run_subgraph] *)

Lemma index_of_not_in (x : string) (l : list string) :
  ~ In x l -> index_of x l = None.
Proof.
  induction l as [|y l IH]; simpl; [done|].
  intros Hnot. destruct (String.eqb_spec x y) as [->|Hne].
  - destruct Hnot. by left.
  - rewrite IH; [done|]. intros H. apply Hnot. by right.
Qed.

(** X6: [_run_subgraph] entered at a component that is not in the cycle
    fails with [ValueError] ([cycle.index]) before anything runs: the heap
    is the same and no output is returned. *)
Theorem run_subgraph_outside_cycle_fails {W R : Type} (E : @Externals W R)
    (self : AsyncPipeline) (cycle : list string) (component_name : string)
    (fuel : nat) (h : Heap) :
  ~ In component_name cycle ->
  _run_subgraph E self cycle component_name fuel h = (Failed ValueError, h, []).
Proof.
  intros Hnot. unfold _run_subgraph, seed_run_queue.
  by rewrite index_of_not_in.
Qed.

Lemma run_subgraph_outside_cycle_fails_witness :
  _run_subgraph Examples.StuckCycle.E Examples.StuckCycle.pipeline
                Examples.StuckCycle.cycle "c" 10 Examples.StuckCycle.heap
  = (Failed ValueError, Examples.StuckCycle.heap, []).
Proof.
  apply (run_subgraph_outside_cycle_fails
           Examples.StuckCycle.E Examples.StuckCycle.pipeline
           Examples.StuckCycle.cycle "c" 10 Examples.StuckCycle.heap).
  intros [H|[H|[]]]; discriminate H.
Defined.

Lemma run_component_touches_only_its_component_witness :
  let h := Examples.Join.heap_j in
  let h' := fst (_run_component Examples.Join.E Examples.Join.pipeline "j" h) in
  (forall other, other <> "j" ->
     dget other (visits h') = dget other (visits h)
     /\ dget other (components_inputs h') = dget other (components_inputs h))
  /\ (forall inputs, dget "j" (components_inputs h) = Some inputs ->
        exists inputs',
          dget "j" (components_inputs h') = Some inputs'
          /\ dkeys inputs' = dkeys inputs
          /\ forall k, dget k inputs' = dget k inputs
                       \/ dget k inputs' = Some (VList []))
  /\ (dget "j" (visits h') = dget "j" (visits h)
      \/ exists v, dget "j" (visits h) = Some v
                   /\ dget "j" (visits h') = Some (v + 1)).
Proof.
  apply (run_component_touches_only_its_component
           Examples.Join.E Examples.Join.pipeline "j" Examples.Join.heap_j _
           (Ok [("all", VList [VInt 1; VInt 2])])).
  reflexivity.
Defined.

(** ** The default inputs (lines 407-417) *)

Section DefaultInputs.

Lemma set_default_inputs_fold (self : AsyncPipeline) (ci : dict (dict value)) :
  set_default_inputs self ci = fold_left fill_node (graph_nodes self) ci.
Proof. reflexivity. Qed.

Lemma inputs_of_dset (name name' : string) (inputs : dict value)
    (ci : dict (dict value)) :
  inputs_of name' (dset name inputs ci)
  = if String.eqb name' name then inputs else inputs_of name' ci.
Proof.
  unfold inputs_of. destruct (String.eqb_spec name' name) as [->|Hne].
  - by rewrite dget_dset_eq.
  - rewrite dget_dset_ne by congruence. done.
Qed.

(** What one pass over a socket changes: the socket itself, when the
    component lacks it and no component feeds it. *)
Lemma fill_socket_lookup (name : string) (ci : dict (dict value))
    (s : string) (socket : InputSocket.t) (name' k : string) :
  dget k (inputs_of name' (fill_socket name ci (s, socket)))
  = if String.eqb name' name && String.eqb k s
       && negb (dmem s (inputs_of name ci))
       && match InputSocket.senders socket with [] => true | _ => false end
    then Some (default_input socket)
    else dget k (inputs_of name' ci).
Proof.
  unfold fill_socket. fold (inputs_of name ci).
  destruct (dmem s (inputs_of name ci)) eqn:Hmem.
  { by rewrite andb_false_r. }
  destruct (InputSocket.senders socket).
  2:{ by rewrite andb_false_r. }
  rewrite inputs_of_dset. simpl. rewrite !andb_true_r.
  destruct (String.eqb_spec name' name) as [->|Hne]; simpl; [|done].
  destruct (String.eqb_spec k s) as [->|Hne].
  - apply dget_dset_eq.
  - apply dget_dset_ne. congruence.
Qed.

Lemma fill_socket_entry (name : string) (ci : dict (dict value))
    (entry : string * InputSocket.t) (name' : string) :
  is_Some (dget name' ci) ->
  is_Some (dget name' (fill_socket name ci entry)).
Proof.
  destruct entry as [s socket]. unfold fill_socket. intros Hsome.
  destruct (dmem s _); [done|].
  destruct (InputSocket.senders socket); [|done].
  destruct (String.eqb_spec name name') as [->|Hne].
  - rewrite dget_dset_eq. eauto.
  - by rewrite dget_dset_ne.
Qed.

Lemma fill_socket_keeps (name : string) (ci : dict (dict value))
    (entry : string * InputSocket.t) (name' k : string) (v : value) :
  dget k (inputs_of name' ci) = Some v ->
  dget k (inputs_of name' (fill_socket name ci entry)) = Some v.
Proof.
  destruct entry as [s socket]. intros Hk. rewrite fill_socket_lookup.
  destruct (String.eqb_spec name' name) as [->|]; [|done].
  destruct (String.eqb_spec k s) as [->|]; [|done].
  unfold dmem. by rewrite Hk.
Qed.

Lemma fill_sockets_keeps (name : string) (sockets : dict InputSocket.t)
    (ci : dict (dict value)) (name' k : string) (v : value) :
  dget k (inputs_of name' ci) = Some v ->
  dget k (inputs_of name' (fold_left (fill_socket name) sockets ci)) = Some v.
Proof.
  revert ci. induction sockets as [|entry sockets IH]; intros ci Hk; simpl.
  - done.
  - by apply IH, fill_socket_keeps.
Qed.

Lemma fill_sockets_entry (name : string) (sockets : dict InputSocket.t)
    (ci : dict (dict value)) (name' : string) :
  is_Some (dget name' ci) ->
  is_Some (dget name' (fold_left (fill_socket name) sockets ci)).
Proof.
  revert ci. induction sockets as [|entry sockets IH]; intros ci Hk; simpl.
  - done.
  - by apply IH, fill_socket_entry.
Qed.

Lemma fill_sockets_present (name : string) (sockets : dict InputSocket.t)
    (ci : dict (dict value)) (s : string) (socket : InputSocket.t) :
  In (s, socket) sockets ->
  InputSocket.senders socket = [] ->
  is_Some (dget s (inputs_of name (fold_left (fill_socket name) sockets ci))).
Proof.
  revert ci. induction sockets as [|entry sockets IH]; intros ci Hin Hs.
  - destruct Hin.
  - cbn [fold_left]. destruct Hin as [->|Hin]; [|by apply IH].
    assert (Hnow : is_Some (dget s (inputs_of name
                                      (fill_socket name ci (s, socket))))).
    { rewrite fill_socket_lookup, !String.eqb_refl, Hs. simpl.
      unfold dmem. destruct (dget s (inputs_of name ci)); simpl; eauto. }
    destruct Hnow as [v Hv]. exists v. by apply fill_sockets_keeps.
Qed.

Lemma fill_sockets_only (name : string) (sockets : dict InputSocket.t)
    (ci : dict (dict value)) (name' k : string) :
  is_Some (dget k (inputs_of name' (fold_left (fill_socket name) sockets ci))) ->
  is_Some (dget k (inputs_of name' ci))
  \/ (name' = name
      /\ exists socket, In (k, socket) sockets
                        /\ InputSocket.senders socket = []).
Proof.
  revert ci. induction sockets as [|[s socket] sockets IH]; intros ci;
    cbn [fold_left].
  - by left.
  - intros Hsome. destruct (IH _ Hsome) as [Hnow|(-> & socket' & Hin & Hs)].
    + rewrite fill_socket_lookup in Hnow.
      destruct (String.eqb_spec name' name) as [->|]; [|by left].
      destruct (String.eqb_spec k s) as [->|]; [|by left].
      destruct (dmem s (inputs_of name ci)); [by left|].
      destruct (InputSocket.senders socket) eqn:Hs; [|by left].
      right. split; [done|]. exists socket. split; [by left|done].
    + right. split; [done|]. exists socket'. split; [by right|done].
Qed.

Lemma fill_sockets_absent (name : string) (sockets : dict InputSocket.t)
    (ci : dict (dict value)) (name' k : string) :
  ~ In k (dkeys sockets) ->
  dget k (inputs_of name' (fold_left (fill_socket name) sockets ci))
  = dget k (inputs_of name' ci).
Proof.
  revert ci. induction sockets as [|[s socket] sockets IH]; intros ci Hnot.
  - done.
  - cbn [fold_left]. simpl in Hnot. rewrite IH by tauto.
    rewrite fill_socket_lookup.
    destruct (String.eqb_spec k s) as [->|]; [tauto|].
    by rewrite andb_false_r.
Qed.

Lemma fill_sockets_value (name : string) (sockets : dict InputSocket.t)
    (ci : dict (dict value)) (s : string) (socket : InputSocket.t) :
  NoDup (dkeys sockets) ->
  In (s, socket) sockets ->
  InputSocket.senders socket = [] ->
  dget s (inputs_of name ci) = None ->
  dget s (inputs_of name (fold_left (fill_socket name) sockets ci))
  = Some (default_input socket).
Proof.
  revert ci.
  induction sockets as [|[s0 socket0] sockets IH]; intros ci Hnodup Hin Hs Hnone.
  - destruct Hin.
  - simpl in Hnodup. apply NoDup_cons in Hnodup as [Hs0 Hnodup].
    cbn [fold_left]. destruct Hin as [[= -> ->]|Hin].
    + apply fill_sockets_keeps. rewrite fill_socket_lookup.
      rewrite !String.eqb_refl, Hs. unfold dmem. by rewrite Hnone.
    + apply IH; try done. rewrite fill_socket_lookup.
      destruct (String.eqb_spec s s0) as [->|]; [|by rewrite andb_false_r].
      destruct Hs0. apply list_elem_of_In.
      change s0 with (fst (s0, socket)). by apply in_map.
Qed.

Lemma fill_node_inputs_start (name : string) (ci : dict (dict value))
    (name' : string) :
  inputs_of name' (if dmem name ci then ci else dset name [] ci)
  = inputs_of name' ci.
Proof.
  destruct (dmem name ci) eqn:Hmem; [done|].
  rewrite inputs_of_dset. destruct (String.eqb_spec name' name) as [->|]; [|done].
  unfold inputs_of, dmem in *. by destruct (dget name ci).
Qed.

Lemma fill_node_entry_start (name : string) (ci : dict (dict value))
    (name' : string) :
  name' = name \/ is_Some (dget name' ci) ->
  is_Some (dget name' (if dmem name ci then ci else dset name [] ci)).
Proof.
  unfold dmem. destruct (dget name ci) eqn:Hname.
  - intros [->|H]; [rewrite Hname; eauto|done].
  - destruct (String.eqb_spec name name') as [->|Hne].
    + intros _. rewrite dget_dset_eq. eauto.
    + intros [->|H]; [done|]. by rewrite dget_dset_ne.
Qed.

Lemma fill_node_other (ci : dict (dict value)) (name : string)
    (comp : Component) (name' : string) :
  name' <> name ->
  inputs_of name' (fill_node ci (name, comp)) = inputs_of name' ci.
Proof.
  intros Hne. unfold fill_node.
  rewrite <- (fill_node_inputs_start name ci name').
  generalize (if dmem name ci then ci else dset name [] ci). intros ci0.
  revert ci0.
  induction (input_sockets comp) as [|[s socket] sockets IH]; intros ci0.
  - done.
  - cbn [fold_left]. rewrite IH. unfold fill_socket.
    destruct (dmem s _); [done|].
    destruct (InputSocket.senders socket); [|done].
    rewrite inputs_of_dset.
    destruct (String.eqb_spec name' name); [congruence|done].
Qed.

Lemma fill_nodes_keeps (nodes : dict Component) (ci : dict (dict value))
    (name' k : string) (v : value) :
  dget k (inputs_of name' ci) = Some v ->
  dget k (inputs_of name' (fold_left fill_node nodes ci)) = Some v.
Proof.
  revert ci. induction nodes as [|[name comp] nodes IH]; intros ci Hk.
  - done.
  - cbn [fold_left]. apply IH. unfold fill_node. apply fill_sockets_keeps.
    by rewrite fill_node_inputs_start.
Qed.

Lemma fill_nodes_entry (nodes : dict Component) (ci : dict (dict value))
    (name' : string) :
  is_Some (dget name' ci) ->
  is_Some (dget name' (fold_left fill_node nodes ci)).
Proof.
  revert ci. induction nodes as [|[name comp] nodes IH]; intros ci Hk.
  - done.
  - cbn [fold_left]. apply IH. unfold fill_node.
    apply fill_sockets_entry, fill_node_entry_start. by right.
Qed.

Lemma fill_nodes_only (nodes : dict Component) (ci : dict (dict value))
    (name' k : string) :
  is_Some (dget k (inputs_of name' (fold_left fill_node nodes ci))) ->
  is_Some (dget k (inputs_of name' ci))
  \/ exists comp socket,
       In (name', comp) nodes
       /\ In (k, socket) (input_sockets comp)
       /\ InputSocket.senders socket = [].
Proof.
  revert ci. induction nodes as [|[name comp] nodes IH]; intros ci;
    cbn [fold_left].
  - by left.
  - intros Hsome.
    destruct (IH _ Hsome) as [Hnow|(comp' & socket & Hin & Hsock & Hs)].
    + unfold fill_node in Hnow.
      apply fill_sockets_only in Hnow as [Hbefore|(-> & socket & Hin & Hs)].
      * left. by rewrite fill_node_inputs_start in Hbefore.
      * right. exists comp, socket. split; [by left|done].
    + right. exists comp', socket. split; [by right|done].
Qed.

End DefaultInputs.

Lemma fill_nodes_node_entry (nodes : dict Component) (ci : dict (dict value))
    (name : string) (comp : Component) :
  In (name, comp) nodes ->
  is_Some (dget name (fold_left fill_node nodes ci)).
Proof.
  revert ci. induction nodes as [|[n0 c0] nodes IH]; intros ci Hin.
  - destruct Hin.
  - cbn [fold_left]. destruct Hin as [[= -> ->]|Hin]; [|by apply IH].
    apply fill_nodes_entry. unfold fill_node.
    apply fill_sockets_entry, fill_node_entry_start. by left.
Qed.

Lemma fill_nodes_present (nodes : dict Component) (ci : dict (dict value))
    (name : string) (comp : Component) (s : string) (socket : InputSocket.t) :
  In (name, comp) nodes ->
  In (s, socket) (input_sockets comp) ->
  InputSocket.senders socket = [] ->
  is_Some (dget s (inputs_of name (fold_left fill_node nodes ci))).
Proof.
  revert ci. induction nodes as [|[n0 c0] nodes IH]; intros ci Hin Hsock Hs.
  - destruct Hin.
  - cbn [fold_left]. destruct Hin as [[= -> ->]|Hin]; [|by apply IH].
    destruct (fill_sockets_present name (input_sockets comp)
                (if dmem name ci then ci else dset name [] ci) s socket
                Hsock Hs) as [v Hv].
    exists v. by apply fill_nodes_keeps.
Qed.

Lemma fill_nodes_value (nodes : dict Component) (ci : dict (dict value))
    (name : string) (comp : Component) (s : string) (socket : InputSocket.t) :
  NoDup (dkeys nodes) ->
  In (name, comp) nodes ->
  NoDup (dkeys (input_sockets comp)) ->
  In (s, socket) (input_sockets comp) ->
  InputSocket.senders socket = [] ->
  dget s (inputs_of name ci) = None ->
  dget s (inputs_of name (fold_left fill_node nodes ci))
  = Some (default_input socket).
Proof.
  revert ci.
  induction nodes as [|[n0 c0] nodes IH];
    intros ci Hnodup Hin Hsockets Hsock Hs Hnone.
  - destruct Hin.
  - simpl in Hnodup. apply NoDup_cons in Hnodup as [Hn0 Hnodup].
    cbn [fold_left]. destruct Hin as [[= -> ->]|Hin].
    + apply fill_nodes_keeps. unfold fill_node.
      apply fill_sockets_value; try done.
      by rewrite fill_node_inputs_start.
    + apply IH; try done. rewrite fill_node_other; [done|].
      intros ->. destruct Hn0. apply list_elem_of_In.
      change n0 with (fst (n0, comp)). by apply in_map.
Qed.

Lemma inputs_of_Some (name : string) (ci : dict (dict value))
    (inputs : dict value) :
  dget name ci = Some inputs -> inputs_of name ci = inputs.
Proof. unfold inputs_of. by intros ->. Qed.

(** X7: setting the defaults never changes an input that is already
    there: a value given by the user for a socket is the value the run
    starts with. *)
Theorem default_inputs_keep_given_values (self : AsyncPipeline)
    (data : dict (dict value)) (name k : string) (inputs : dict value)
    (v : value) :
  dget name data = Some inputs ->
  dget k inputs = Some v ->
  exists inputs',
    dget name (set_default_inputs self data) = Some inputs'
    /\ dget k inputs' = Some v.
Proof.
  intros Hname Hk. rewrite set_default_inputs_fold.
  destruct (fill_nodes_entry (graph_nodes self) data name) as [inputs' Hin'];
    [eauto|].
  exists inputs'. split; [done|].
  rewrite <- (inputs_of_Some _ _ _ Hin'). apply fill_nodes_keeps.
  by rewrite (inputs_of_Some _ _ _ Hname).
Qed.

Lemma default_inputs_keep_given_values_witness :
  exists inputs',
    dget "n" (set_default_inputs Examples.Broken.pipeline
                [("n", [("k", VInt 7)])]) = Some inputs'
    /\ dget "k" inputs' = Some (VInt 7).
Proof.
  apply (default_inputs_keep_given_values Examples.Broken.pipeline
           [("n", [("k", VInt 7)])] "n" "k" [("k", VInt 7)] (VInt 7));
    reflexivity.
Defined.

(** X8: after the defaults are set, every node of the graph has an entry
    in the input store, and in it every socket of the node that no
    component feeds is present. *)
Theorem default_inputs_fill_unfed_sockets (self : AsyncPipeline)
    (data : dict (dict value)) (name : string) (comp : Component) :
  In (name, comp) (graph_nodes self) ->
  exists inputs',
    dget name (set_default_inputs self data) = Some inputs'
    /\ forall s socket,
         In (s, socket) (input_sockets comp) ->
         InputSocket.senders socket = [] ->
         is_Some (dget s inputs').
Proof.
  intros Hin. rewrite set_default_inputs_fold.
  destruct (fill_nodes_node_entry (graph_nodes self) data name comp Hin)
    as [inputs' Hin'].
  exists inputs'. split; [done|]. intros s socket Hsock Hs.
  rewrite <- (inputs_of_Some _ _ _ Hin'). by eapply fill_nodes_present.
Qed.

Lemma default_inputs_fill_unfed_sockets_witness :
  exists inputs',
    dget "n" (set_default_inputs Examples.Broken.pipeline []) = Some inputs'
    /\ forall s socket,
         In (s, socket) (input_sockets Examples.Broken.n) ->
         InputSocket.senders socket = [] ->
         is_Some (dget s inputs').
Proof.
  apply (default_inputs_fill_unfed_sockets Examples.Broken.pipeline []
           "n" Examples.Broken.n).
  simpl. by left.
Defined.

(** X9: setting the defaults adds nothing else: an input present
    afterwards was given, or belongs to a socket of the component that no
    component feeds. A socket that has senders is never prefilled. *)
Theorem default_inputs_add_only_unfed_sockets (self : AsyncPipeline)
    (data : dict (dict value)) (name k : string) (inputs' : dict value) :
  dget name (set_default_inputs self data) = Some inputs' ->
  is_Some (dget k inputs') ->
  (exists inputs, dget name data = Some inputs /\ is_Some (dget k inputs))
  \/ exists comp socket,
       In (name, comp) (graph_nodes self)
       /\ In (k, socket) (input_sockets comp)
       /\ InputSocket.senders socket = [].
Proof.
  rewrite set_default_inputs_fold. intros Hin' Hk.
  rewrite <- (inputs_of_Some _ _ _ Hin') in Hk.
  apply fill_nodes_only in Hk as [Hgiven|Hfilled]; [left|by right].
  unfold inputs_of in Hgiven.
  destruct (dget name data) as [inputs|]; [eauto|].
  simpl in Hgiven. by destruct Hgiven.
Qed.

Lemma default_inputs_add_only_unfed_sockets_witness :
  (exists inputs, dget "n" [("n", [("k", VInt 7)])] = Some inputs
                  /\ is_Some (dget "in" inputs))
  \/ exists comp socket,
       In ("n", comp) (graph_nodes Examples.Broken.pipeline)
       /\ In ("in", socket) (input_sockets comp)
       /\ InputSocket.senders socket = [].
Proof.
  apply (default_inputs_add_only_unfed_sockets Examples.Broken.pipeline
           [("n", [("k", VInt 7)])] "n" "in"
           [("k", VInt 7); ("in", VList [VEmpty])]).
  - reflexivity.
  - simpl. eauto.
Defined.

(** X10: a socket that no component feeds and for which no input was
    given starts with its declared default, in a one-element list when the
    socket is variadic (node names and socket names being unique, as the
    keys of a dictionary are). *)
Theorem default_inputs_store_the_default (self : AsyncPipeline)
    (data : dict (dict value)) (name : string) (comp : Component)
    (s : string) (socket : InputSocket.t) :
  NoDup (dkeys (graph_nodes self)) ->
  In (name, comp) (graph_nodes self) ->
  NoDup (dkeys (input_sockets comp)) ->
  In (s, socket) (input_sockets comp) ->
  InputSocket.senders socket = [] ->
  (forall inputs, dget name data = Some inputs -> dget s inputs = None) ->
  exists inputs',
    dget name (set_default_inputs self data) = Some inputs'
    /\ dget s inputs'
       = Some (if InputSocket.is_variadic socket
               then VList [InputSocket.default_value socket]
               else InputSocket.default_value socket).
Proof.
  intros Hnodes Hin Hsockets Hsock Hs Hnone.
  rewrite set_default_inputs_fold.
  destruct (fill_nodes_node_entry (graph_nodes self) data name comp Hin)
    as [inputs' Hin'].
  exists inputs'. split; [done|].
  rewrite <- (inputs_of_Some _ _ _ Hin').
  apply (fill_nodes_value _ _ _ comp); try done.
  unfold inputs_of. destruct (dget name data) as [inputs|]; simpl; auto.
Qed.

Lemma default_inputs_store_the_default_witness :
  exists inputs',
    dget "n" (set_default_inputs Examples.Broken.pipeline
                [("n", [("k", VInt 7)])]) = Some inputs'
    /\ dget "in" inputs' = Some (VList [VEmpty]).
Proof.
  apply (default_inputs_store_the_default Examples.Broken.pipeline
           [("n", [("k", VInt 7)])] "n" Examples.Broken.n "in"
           (InputSocket.mk "in" [] true VEmpty)).
  - simpl. apply NoDup_singleton.
  - simpl. by left.
  - simpl. apply NoDup_cons. split; [|apply NoDup_singleton].
    intros H. apply list_elem_of_In in H. destruct H as [H|[]].
    discriminate H.
  - simpl. by left.
  - reflexivity.
  - intros inputs [= <-]. reflexivity.
Defined.

(** ** What the loops keep *)

Section Effects.

Context {W R : Type} (E : @Externals W R) (self : AsyncPipeline).

Lemma effects_quiet (normal : bool) (h h' : @Heap W)
    (outs : dict (dict value)) :
  visits h' = visits h ->
  yields h' = yields h ->
  invocations h' = invocations h ->
  effects self None normal h h' outs outs.
Proof.
  intros Hv Hy Hi. unfold effects. rewrite Hv, Hy, Hi.
  split; [done|]. split; [by intros ? [=]|]. split; [done|].
  exists [], []. rewrite !app_nil_r. auto.
Qed.

Lemma effects_over_budget (name : string) (v : Z) (h : @Heap W)
    (outs : dict (dict value)) :
  dget name (visits h) = Some v ->
  (v >? _max_runs_per_component self) = true ->
  effects self (Some name) false h h outs outs.
Proof.
  intros Hv Hgt. unfold effects.
  split; [done|]. split; [|split; [done|]].
  - intros ? [= <-]. exists v. split; [done|]. lia.
  - exists [], []. rewrite !app_nil_r. split; [done|]. split; [done|].
    split; [auto|done].
Qed.

Lemma effects_trans (max_runs : option string) (normal : bool)
    (h1 h2 h3 : @Heap W) (outs1 outs2 outs3 : dict (dict value)) :
  effects self None true h1 h2 outs1 outs2 ->
  effects self max_runs normal h2 h3 outs2 outs3 ->
  effects self max_runs normal h1 h3 outs1 outs3.
Proof.
  intros (Hv1 & _ & He1 & ys1 & ns1 & Hy1 & Hi1 & Hk1 & Hm1)
         (Hv2 & Hx2 & He2 & ys2 & ns2 & Hy2 & Hi2 & Hk2 & Hm2).
  unfold effects. split; [auto|]. split; [done|]. split; [auto|].
  exists (ys1 ++ ys2), (ns1 ++ ns2).
  rewrite Hy2, Hy1, Hi2, Hi1, !app_assoc.
  split; [done|]. split; [done|]. split.
  - intros n Hn. destruct (Hk2 n Hn) as [H|H].
    + destruct (Hk1 n H) as [H'|H']; [by left|].
      right. apply in_or_app. by left.
    + right. apply in_or_app. by right.
  - intros Hnormal. rewrite !map_app, Hm1, Hm2; done.
Qed.

Lemma yields_same_log (h h' : @Heap W) :
  log h' = log h -> yields h' = yields h.
Proof. unfold yields. by intros ->. Qed.

(** The progress check changes neither the visits nor what was yielded
    or invoked. *)
Lemma progress_check_quiet (sc : scope) (h h' : Heap) (q q' : Queues)
    (stop : bool) :
  progress_check E sc h q = (stop, h', q') ->
  visits h' = visits h /\ yields h' = yields h.
Proof.
  unfold progress_check.
  destruct (_ && _); [|by intros [= <- <- <-]].
  assert (Hdrain : yields (emit (EDrain sc) h) = yields h)
    by (rewrite yields_emit; apply app_nil_r).
  assert (Hadv : forall stop h' q',
            (let '(h1, q1) := advance_waiting E (emit (EDrain sc) h) q in
             (false, h1, q1)) = (stop, h', q') ->
            visits h' = visits h /\ yields h' = yields h).
  { clear stop h' q'. intros stop h' q'.
    pose proof (advance_waiting_spec E (emit (EDrain sc) h) q)
      as (Hlog & Hvis & _).
    destruct (advance_waiting E _ q) as [h1 q1]. cbn [fst snd] in *.
    intros [= <- <- <-]. split; [done|].
    by rewrite (yields_same_log _ _ Hlog). }
  destruct (before_last_waiting_queue q); [|by apply Hadv].
  destruct (last_waiting_queue q); [|by apply Hadv].
  case_bool_decide; [|by apply Hadv].
  destruct (_is_stuck_in_a_loop E _).
  - intros [= <- <- <-]. split; [done|].
    rewrite yields_emit, app_nil_r. exact Hdrain.
  - pose proof (force_waiting_spec E (emit (EDrain sc) h) q)
      as (Hlog & Hvis & _).
    destruct (force_waiting E _ q) as [h1 q1]. cbn [fst snd] in *.
    intros [= <- <- <-]. split; [done|].
    by rewrite (yields_same_log _ _ Hlog).
Qed.

Lemma dset_In {V} (k : string) (v : V) (d : dict V) (n : string) (o : V) :
  In (n, o) (dset k v d) -> In (n, o) d \/ (n = k /\ o = v).
Proof.
  induction d as [|[k' v'] d IH]; simpl.
  - intros [[= <- <-]|[]]. by right.
  - destruct (String.eqb_spec k k') as [->|Hne]; simpl.
    + intros [[= <- <-]|H]; [by right|]. left. by right.
    + intros [H|H]; [left; by left|].
      destruct (IH H) as [H'|H']; [left; by right|by right].
Qed.

Lemma dset_key_In {V} (k : string) (v : V) (d : dict V) (n : string) :
  In n (dkeys (dset k v d)) -> In n (dkeys d) \/ n = k.
Proof.
  rewrite dkeys_dset. destruct (dmem k d); [by left|].
  intros H. apply in_app_or in H as [H|[<-|[]]]; auto.
Qed.

Lemma no_empty_entry_dset (k : string) (v : dict value)
    (d : dict (dict value)) :
  v <> [] -> no_empty_entry d -> no_empty_entry (dset k v d).
Proof.
  intros Hv Hd n o Hin.
  apply dset_In in Hin as [Hin|[_ ->]]; [by eapply Hd|done].
Qed.

(** The errors of [_run_component]. *)
Lemma run_component_errors (name : string) (h h1 : Heap) (e : error) :
  _run_component E self name h = (h1, Err e) ->
  signal_max_runs (Raised e) = None.
Proof.
  unfold _run_component.
  destruct (dget name (components_inputs h)); [|by intros [= _ <-]].
  destruct (dget name (graph_nodes self)) as [instance|];
    [|by intros [= _ <-]].
  destruct ((if supports_async instance then run_async E else run_sync E)
              (world h) name _) as [w' r'].
  destruct r'; [| |by intros [= _ <-]];
    (destruct (dget name (visits h)); [|by intros [= _ <-]]);
    by intros [= _ <-].
Qed.

Lemma delete_cycle_inputs_errors (cycle : list string) (comp : Component)
    (sockets : list string) (inputs inputs' : dict value) (e : error) :
  delete_cycle_inputs cycle comp sockets inputs = (inputs', Some e) ->
  e = KeyError.
Proof.
  revert inputs. induction sockets as [|s sockets IH]; intros inputs; simpl.
  - by intros [=].
  - destruct (dget s (input_sockets comp)) as [socket|];
      [|by intros [= _ <-]].
    destruct (InputSocket.senders socket); [apply IH|].
    match goal with
    | |- (if ?c then _ else _) = _ -> _ => destruct c
    end; apply IH.
Qed.

Lemma delete_consumed_inputs_errors (comp : Component)
    (sockets : list string) (inputs inputs' : dict value) (e : error) :
  delete_consumed_inputs comp sockets inputs = (inputs', Some e) ->
  e = KeyError.
Proof.
  revert inputs. induction sockets as [|s sockets IH]; intros inputs; simpl.
  - by intros [=].
  - destruct (dget s (input_sockets comp)) as [socket|];
      [|by intros [= _ <-]].
    destruct (InputSocket.senders socket); apply IH.
Qed.

Lemma final_output_reached_errors (comp : Component) (cycle : list string)
    (keys : list string) (e : error) :
  final_output_reached comp cycle keys = Err e -> e = KeyError.
Proof.
  induction keys as [|k keys IH]; simpl; [by intros [=]|].
  destruct (dget k (output_sockets comp)) as [socket|]; [|by intros [= <-]].
  destruct (existsb _ _); [by intros [=]|apply IH].
Qed.

(** The visits after [_run_component]: the same, or one more for the
    component it ran. *)
Lemma run_component_visits (name : string) (h h1 : Heap)
    (r : result (dict value)) (n : string) :
  _run_component E self name h = (h1, r) ->
  dget n (visits h1) = dget n (visits h)
  \/ (n = name
      /\ exists v, dget name (visits h) = Some v
                   /\ dget name (visits h1) = Some (v + 1)).
Proof.
  unfold _run_component.
  destruct (dget name (components_inputs h)); [|intros [= <- _]; by left].
  destruct (dget name (graph_nodes self)) as [instance|];
    [|intros [= <- _]; by left].
  destruct ((if supports_async instance then run_async E else run_sync E)
              (world h) name _) as [w' r'].
  destruct r' as [res|bad|]; [| |intros [= <- _]; by left];
    (destruct (dget name (visits h)) as [v|]; [|intros [= <- _]; by left]);
    intros [= <- _]; simpl;
    (destruct (String.eqb_spec name n) as [<-|Hne];
     [right; split; [done|]; exists v; split; [done|]; apply dget_dset_eq
     |left; by apply dget_dset_ne]).
Qed.

(** A run that the budget check let through keeps the visits within the
    budget plus one, whatever its outcome. *)
Lemma run_component_bounded (name : string) (h h1 : Heap)
    (r : result (dict value)) (v : Z) :
  dget name (visits h) = Some v ->
  (v >? _max_runs_per_component self) = false ->
  _run_component E self name h = (h1, r) ->
  visits_bounded self (visits h) ->
  visits_bounded self (visits h1).
Proof.
  intros Hv Hle Hrun Hbound n vn Hn.
  destruct (run_component_visits name h h1 r n Hrun)
    as [Hsame|(-> & v' & Hv' & Hv1)].
  - rewrite Hsame in Hn. by eapply Hbound.
  - rewrite Hv in Hv'. injection Hv' as <-. rewrite Hv1 in Hn.
    injection Hn as <-. lia.
Qed.

Lemma run_component_yields (name : string) (h h1 : Heap)
    (r : result (dict value)) :
  _run_component E self name h = (h1, r) -> yields h1 = yields h.
Proof.
  unfold _run_component.
  destruct (dget name (components_inputs h)); [|by intros [= <- _]].
  destruct (dget name (graph_nodes self)) as [instance|];
    [|by intros [= <- _]].
  destruct ((if supports_async instance then run_async E else run_sync E)
              (world h) name _) as [w' r'].
  assert (Hlogged : forall v (inputs : dict value),
            yields (mkHeap w' (dset name (v + 1) (visits h))
                           (dset name (reset_variadic instance inputs)
                                 (components_inputs h))
                           (EInvoke name inputs :: log h))
            = yields h).
  { intros v inputs. unfold yields. simpl. rewrite omap_app. simpl.
    apply app_nil_r. }
  destruct r'; [| |by intros [= <- _]];
    (destruct (dget name (visits h)); [|by intros [= <- _]]);
    intros [= <- _]; apply Hlogged.
Qed.

End Effects.

Section LoopEffects.

Context {W R : Type} (E : @Externals W R) (self : AsyncPipeline).

(** A successful run followed by one yield of its result. *)
Lemma effects_of_run (normal : bool) (name : string) (v : Z)
    (h h1 h' : Heap) (res : dict value) (outs outs' : dict (dict value)) :
  dget name (visits h) = Some v ->
  (v >? _max_runs_per_component self) = false ->
  _run_component E self name h = (h1, Ok res) ->
  visits h' = visits h1 ->
  invocations h' = invocations h1 ->
  yields h' = yields h1 ++ [[(name, res)]] ->
  (outs' = outs \/ exists res', res' <> [] /\ outs' = dset name res' outs) ->
  effects self None normal h h' outs outs'.
Proof.
  intros Hv Hle Hrun Hvis Hinv Hy Houts. unfold effects.
  rewrite Hvis, Hinv, Hy.
  rewrite (run_component_yields E self _ _ _ _ Hrun).
  rewrite (run_component_invocations E self _ _ _ _ Hrun).
  split; [by eapply run_component_bounded|].
  split; [by intros ? [=]|]. split.
  - destruct Houts as [->|(res' & Hres' & ->)]; [done|].
    by apply no_empty_entry_dset.
  - exists [[(name, res)]], [name]. split; [done|]. split; [done|]. split.
    + intros n Hn. destruct Houts as [->|(res' & _ & ->)]; [by left|].
      apply dset_key_In in Hn as [Hn| ->]; [by left|right; by left].
    + done.
Qed.

(** A run that raised. *)
Lemma effects_of_failed_run (name : string) (v : Z) (h h1 : Heap)
    (e : error) (outs : dict (dict value)) :
  dget name (visits h) = Some v ->
  (v >? _max_runs_per_component self) = false ->
  _run_component E self name h = (h1, Err e) ->
  effects self (signal_max_runs (Raised e)) false h h1 outs outs.
Proof.
  intros Hv Hle Hrun. rewrite (run_component_errors E self _ _ _ _ Hrun).
  unfold effects. split; [by eapply run_component_bounded|].
  split; [by intros ? [=]|]. split; [done|].
  rewrite (run_component_yields E self _ _ _ _ Hrun).
  destruct (run_component_invocations_any E self _ _ _ _ Hrun) as [->| ->].
  - exists [], []. rewrite !app_nil_r. split; [done|]. split; [done|].
    split; [auto|done].
  - exists [], [name]. rewrite !app_nil_r. split; [done|]. split; [done|].
    split; [auto|done].
Qed.

Lemma nonempty_output (res' : dict value) (name : string)
    (outs : dict (dict value)) :
  (if Nat.ltb 0 (length res') then dset name res' outs else outs) = outs
  \/ exists res0, res0 <> []
                  /\ (if Nat.ltb 0 (length res') then dset name res' outs
                      else outs) = dset name res0 outs.
Proof.
  destruct res' as [|p res']; simpl; [by left|].
  right. exists (p :: res'). by split.
Qed.

Lemma subgraph_after_run_effects (cycle : list string) (name : string)
    (comp : Component) (res : dict value) (h1 : Heap) (rq wq : list pair)
    (before_last last : option (gset string))
    (outs : dict (dict value)) (received : bool)
    (sig : signal) (st' : CycleState) :
  subgraph_after_run E cycle name comp res h1 rq wq before_last last outs
                     received
  = (sig, st') ->
  visits (c_heap st') = visits h1
  /\ yields (c_heap st') = yields h1 ++ [[(name, res)]]
  /\ signal_max_runs sig = None
  /\ (subgraph_outputs st' = outs
      \/ exists res', res' <> []
                      /\ subgraph_outputs st' = dset name res' outs).
Proof.
  unfold subgraph_after_run. intros Hrun.
  assert (Hy : yields (emit (EYield [(name, res)]) h1)
               = yields h1 ++ [[(name, res)]]) by apply yields_emit.
  destruct (dget name _) as [inputs|];
    [|injection Hrun as <- <-; simpl; auto].
  destruct (delete_cycle_inputs _ _ _ _) as [inputs' [e|]] eqn:Hdel.
  { apply delete_cycle_inputs_errors in Hdel as ->.
    injection Hrun as <- <-. simpl. auto. }
  destruct (final_output_reached comp cycle (dkeys res)) as [reached|e]
    eqn:Hreached.
  2:{ apply final_output_reached_errors in Hreached as ->.
      injection Hrun as <- <-. simpl. auto. }
  destruct (dequeue_all _ _ _ _) as [rq2 wq2].
  destruct (_distribute_output E _ _ _ _ _) as [[[res' ci] rq3] wq3].
  destruct (progress_check E Cycle _ _) as [[stop h4] q4] eqn:Hcheck.
  apply progress_check_quiet in Hcheck as [Hvis Hyields].
  injection Hrun as <- <-. simpl. rewrite Hvis, Hyields. simpl.
  split; [done|]. split; [done|].
  split; [by destruct stop|]. apply nonempty_output.
Qed.

Lemma main_after_run_effects (name : string) (comp : Component)
    (res : dict value) (h1 : Heap) (rq wq : list pair)
    (before_last last : option (gset string))
    (finals : dict (dict value)) (sig : signal) (st' : MainState) :
  main_after_run E name comp res h1 rq wq before_last last finals
  = (sig, st') ->
  visits (m_heap st') = visits h1
  /\ yields (m_heap st') = yields h1 ++ [[(name, res)]]
  /\ signal_max_runs sig = None
  /\ (final_outputs st' = finals
      \/ exists res', res' <> []
                      /\ final_outputs st' = dset name res' finals).
Proof.
  unfold main_after_run. intros Hrun.
  assert (Hy : yields (emit (EYield [(name, res)]) h1)
               = yields h1 ++ [[(name, res)]]) by apply yields_emit.
  destruct (dget name _) as [inputs|];
    [|injection Hrun as <- <-; simpl; auto].
  destruct (delete_consumed_inputs _ _ _) as [inputs' [e|]] eqn:Hdel.
  { apply delete_consumed_inputs_errors in Hdel as ->.
    injection Hrun as <- <-. simpl. auto. }
  destruct (dequeue_all _ _ _ _) as [rq2 wq2].
  destruct (_distribute_output E _ _ _ _ _) as [[[res' ci] rq3] wq3].
  destruct (progress_check E Main _ _) as [[stop h4] q4] eqn:Hcheck.
  apply progress_check_quiet in Hcheck as [Hvis Hyields].
  injection Hrun as <- <-. simpl. rewrite Hvis, Hyields. simpl.
  split; [done|]. split; [done|].
  split; [by destruct stop|]. apply nonempty_output.
Qed.

(** One pass of the cycle's loop. *)
Lemma subgraph_body_effects (cycle : list string) (st st' : CycleState)
    (sig : signal) :
  subgraph_body E self cycle st = (sig, st') ->
  effects self (signal_max_runs sig) (signal_normal sig)
          (c_heap st) (c_heap st')
          (subgraph_outputs st) (subgraph_outputs st').
Proof.
  destruct st as [h [rq wq b l] outs received]. unfold subgraph_body.
  cbn [c_heap c_queues subgraph_outputs cycle_received_inputs run_queue
       waiting_queue before_last_waiting_queue last_waiting_queue].
  intros Hrun.
  destruct rq as [|[name comp] rq];
    [injection Hrun as <- <-; by apply effects_quiet|].
  destruct (lazy_variadic_deferred E comp rq);
    [injection Hrun as <- <-; by apply effects_quiet|].
  destruct (_component_has_enough_inputs_to_run E name _).
  - destruct (dget name (visits h)) as [v|] eqn:Hv;
      [|injection Hrun as <- <-; by apply effects_quiet].
    destruct (v >? _max_runs_per_component self) eqn:Hgt;
      [injection Hrun as <- <-; by eapply effects_over_budget|].
    destruct (_run_component E self name h) as [h1 [res|e]] eqn:Hcomp.
    + pose proof (subgraph_after_run_invocations E _ _ _ _ _ _ _ _ _ _ _ _ _
                    Hrun) as Hinv.
      apply subgraph_after_run_effects in Hrun as (Hvis & Hy & -> & Houts).
      by eapply effects_of_run.
    + injection Hrun as <- <-. by eapply effects_of_failed_run.
  - destruct (progress_check E Cycle _ _) as [[stop h'] q'] eqn:Hcheck.
    pose proof (progress_check_invocations E _ _ _ _ _ _ Hcheck) as Hinv.
    apply progress_check_quiet in Hcheck as [Hvis Hy].
    injection Hrun as <- <-.
    replace (signal_max_runs (if stop then Stop else Next)) with (@None string)
      by (by destruct stop).
    by apply effects_quiet.
Qed.

(** The loop of the cycle. *)
Lemma subgraph_loop_effects (cycle : list string) (fuel : nat)
    (st st' : CycleState) (o : outcome) :
  subgraph_loop E self cycle fuel st = (o, st') ->
  effects self (outcome_max_runs o) (outcome_normal o)
          (c_heap st) (c_heap st')
          (subgraph_outputs st) (subgraph_outputs st').
Proof.
  revert st. induction fuel as [|fuel IH]; intros st; simpl.
  - destruct (cycle_received_inputs st); intros [= <- <-];
      by apply effects_quiet.
  - destruct (cycle_received_inputs st);
      [intros [= <- <-]; by apply effects_quiet|].
    destruct (subgraph_body E self cycle st) as [sig st1] eqn:Hbody.
    apply subgraph_body_effects in Hbody.
    destruct sig.
    + intros Hloop. eapply effects_trans; [exact Hbody|by apply IH].
    + by intros [= <- <-].
    + by intros [= <- <-].
    + by intros [= <- <-].
Qed.

Lemma instances_of_errors (nodes : list string) (e : error) :
  instances_of self nodes = Err e -> e = KeyError.
Proof.
  induction nodes as [|node nodes IH]; simpl; [by intros [=]|].
  destruct (dget node (graph_nodes self)); [|by intros [= <-]].
  destruct (instances_of self nodes); [by intros [=]|].
  intros [= <-]. by apply IH.
Qed.

Lemma run_subgraph_effects (cycle : list string) (component_name : string)
    (fuel : nat) (h h' : Heap) (o : outcome) (outs : dict (dict value)) :
  _run_subgraph E self cycle component_name fuel h = (o, h', outs) ->
  effects self (outcome_max_runs o) (outcome_normal o) h h' [] outs.
Proof.
  unfold _run_subgraph, seed_run_queue.
  destruct (index_of component_name cycle) as [start_index|].
  - destruct (instances_of self _) as [rq|e] eqn:Hseed.
    + destruct (subgraph_loop E self cycle fuel _) as [o' st] eqn:Hloop.
      intros [= <- <- <-]. by apply subgraph_loop_effects in Hloop.
    + apply instances_of_errors in Hseed as ->.
      intros [= <- <- <-]. by apply effects_quiet.
  - intros [= <- <- <-]. by apply effects_quiet.
Qed.

(** Lines 461-472 add no empty entry, and only entries of producers that
    the cycle returned. *)
Lemma distribute_subgraph_output_adds
    (subgraph_output ci : dict (dict value)) (rq wq : list pair)
    (finals : dict (dict value)) :
  let finals' :=
    snd (distribute_subgraph_output E subgraph_output ci rq wq finals) in
  (no_empty_entry finals -> no_empty_entry finals')
  /\ forall n, In n (dkeys finals') ->
               In n (dkeys finals) \/ In n (dkeys subgraph_output).
Proof.
  unfold distribute_subgraph_output.
  revert ci rq wq finals.
  induction subgraph_output as [|[name output] subgraph_output IH];
    intros ci rq wq finals; cbn [fold_left].
  - simpl. auto.
  - destruct (_distribute_output E _ output ci rq wq)
      as [[[output' ci'] rq'] wq'].
    destruct (IH ci' rq' wq'
                (if Nat.ltb 0 (length output')
                 then dset name output' finals else finals)) as [Hne Hkeys].
    cbn zeta in *. split.
    + intros Hfinals. apply Hne.
      destruct (nonempty_output output' name finals)
        as [->|(res0 & Hres0 & ->)]; [done|].
      by apply no_empty_entry_dset.
    + intros n Hn. destruct (Hkeys n Hn) as [H|H].
      * destruct (nonempty_output output' name finals)
          as [Heq|(res0 & Hres0 & Heq)]; rewrite Heq in H; [by left|].
        apply dset_key_In in H as [H| ->]; [by left|].
        right. by left.
      * right. by right.
Qed.

End LoopEffects.

Section MainEffects.

Context {W R : Type} (E : @Externals W R) (self : AsyncPipeline).

(** A cycle run from the main loop, then the distribution of what it
    returned. *)
Lemma effects_of_cycle (max_runs : option string) (normal : bool)
    (h h' h'' : @Heap W) (outs finals finals' : dict (dict value)) :
  effects self max_runs normal h h' [] outs ->
  visits h'' = visits h' ->
  yields h'' = yields h' ->
  invocations h'' = invocations h' ->
  (no_empty_entry finals -> no_empty_entry finals') ->
  (forall n, In n (dkeys finals') -> In n (dkeys finals) \/ In n (dkeys outs)) ->
  effects self max_runs normal h h'' finals finals'.
Proof.
  intros (Hv & Hx & _ & ys & ns & Hy & Hi & Hk & Hm) Hvis Hyields Hinv
         Hne Hkeys.
  unfold effects. rewrite Hvis, Hyields, Hinv.
  split; [done|]. split; [done|]. split; [done|].
  exists ys, ns. split; [done|]. split; [done|]. split; [|done].
  intros n Hn. destruct (Hkeys n Hn) as [H|H]; [by left|].
  destruct (Hk n H) as [[]|H']. by right.
Qed.

(** One pass of the main loop. *)
Lemma main_body_effects (components_in_cycles : dict (list (list string)))
    (fuel : nat) (st st' : MainState) (sig : signal) :
  main_body E self components_in_cycles fuel st = (sig, st') ->
  effects self (signal_max_runs sig) (signal_normal sig)
          (m_heap st) (m_heap st') (final_outputs st) (final_outputs st').
Proof.
  destruct st as [h [rq wq b l] finals]. unfold main_body.
  cbn [m_heap m_queues final_outputs run_queue waiting_queue
       before_last_waiting_queue last_waiting_queue].
  intros Hrun.
  destruct rq as [|[name comp] rq];
    [injection Hrun as <- <-; by apply effects_quiet|].
  destruct (lazy_variadic_deferred E comp rq);
    [injection Hrun as <- <-; by apply effects_quiet|].
  destruct (_component_has_enough_inputs_to_run E name _).
  - destruct (default [] (dget name components_in_cycles))
      as [|cycle cycles].
    + destruct (dget name (visits h)) as [v|] eqn:Hv;
        [|injection Hrun as <- <-; by apply effects_quiet].
      destruct (v >? _max_runs_per_component self) eqn:Hgt;
        [injection Hrun as <- <-; by eapply effects_over_budget|].
      destruct (_run_component E self name h) as [h1 [res|e]] eqn:Hcomp.
      * pose proof (main_after_run_invocations E _ _ _ _ _ _ _ _ _ _ _
                      Hrun) as Hinv.
        apply main_after_run_effects in Hrun as (Hvis & Hy & -> & Houts).
        by eapply effects_of_run.
      * injection Hrun as <- <-. by eapply effects_of_failed_run.
    + destruct (_run_subgraph E self cycle name fuel h) as [[o h'] outs]
        eqn:Hsub.
      apply run_subgraph_effects in Hsub.
      assert (Hdone : outcome_normal o = true ->
                (let '(ci, rq', wq', finals') :=
                   distribute_subgraph_output E outs (components_inputs h')
                     [] wq finals in
                 let '(stop, h'', q'') :=
                   progress_check E Main (set_inputs ci h')
                                  (mkQueues rq' wq' None None) in
                 (if stop then Stop else Next, mkMainState h'' q'' finals'))
                = (sig, st') ->
                effects self (signal_max_runs sig) (signal_normal sig) h
                        (m_heap st') finals (final_outputs st')).
      { intros Hnormal.
        pose proof (distribute_subgraph_output_adds E outs
                      (components_inputs h') [] wq finals) as [Hne Hkeys].
        destruct (distribute_subgraph_output E _ _ _ _ _)
          as [[[ci rq'] wq'] finals'].
        destruct (progress_check E Main _ _) as [[stop h''] q''] eqn:Hcheck.
        pose proof (progress_check_invocations E _ _ _ _ _ _ Hcheck) as Hinv.
        apply progress_check_quiet in Hcheck as [Hvis Hy].
        intros [= <- <-]. cbn [m_heap final_outputs snd] in *.
        replace (signal_max_runs (if stop then Stop else Next))
          with (outcome_max_runs o) by (by destruct stop, o).
        replace (signal_normal (if stop then Stop else Next))
          with (outcome_normal o) by (by destruct stop, o).
        by eapply effects_of_cycle. }
      destruct o.
      * by apply Hdone.
      * by apply Hdone.
      * injection Hrun as <- <-. cbn [m_heap final_outputs].
        eapply effects_of_cycle; eauto.
      * injection Hrun as <- <-. cbn [m_heap final_outputs].
        eapply effects_of_cycle; eauto.
  - destruct (progress_check E Main _ _) as [[stop h'] q'] eqn:Hcheck.
    pose proof (progress_check_invocations E _ _ _ _ _ _ Hcheck) as Hinv.
    apply progress_check_quiet in Hcheck as [Hvis Hy].
    injection Hrun as <- <-.
    replace (signal_max_runs (if stop then Stop else Next)) with (@None string)
      by (by destruct stop).
    by apply effects_quiet.
Qed.

(** The main loop. *)
Lemma main_loop_effects (components_in_cycles : dict (list (list string)))
    (fuel : nat) (st st' : MainState) (o : outcome) :
  main_loop E self components_in_cycles fuel st = (o, st') ->
  effects self (outcome_max_runs o) (outcome_normal o)
          (m_heap st) (m_heap st') (final_outputs st) (final_outputs st').
Proof.
  revert st. induction fuel as [|fuel IH]; intros st; simpl.
  - destruct (run_queue (m_queues st)); intros [= <- <-];
      by apply effects_quiet.
  - destruct (run_queue (m_queues st));
      [intros [= <- <-]; by apply effects_quiet|].
    destruct (main_body E self components_in_cycles fuel st)
      as [sig st1] eqn:Hbody.
    apply main_body_effects in Hbody.
    destruct sig.
    + intros Hloop. eapply effects_trans; [exact Hbody|by apply IH].
    + by intros [= <- <-].
    + by intros [= <- <-].
    + by intros [= <- <-].
Qed.

Lemma init_visits_zero (name : string) (v : Z) :
  dget name (init_visits self) = Some v -> v = 0.
Proof.
  unfold init_visits.
  induction (graph_nodes self) as [|[n comp] nodes IH]; simpl; [done|].
  destruct (String.eqb name n); [by intros [= <-]|exact IH].
Qed.

(** A whole run, from the state [run] starts its loop in. *)
Lemma run_effects (data : dict (dict value)) (topological_order : list string)
    (components_in_cycles : dict (list (list string)))
    (fuel : nat) (w : W) (o : outcome) (st : MainState) :
  run E self data topological_order components_in_cycles fuel w = (o, st) ->
  exists h0 : @Heap W,
    visits h0 = init_visits self
    /\ log h0 = []
    /\ exists h1 : @Heap W,
         effects self (outcome_max_runs o) (outcome_normal o) h0 h1
                 [] (final_outputs st)
         /\ visits (m_heap st) = visits h1
         /\ invocations (m_heap st) = invocations h1
         /\ yields (m_heap st)
            = yields h1
              ++ (if outcome_normal o then [final_outputs st] else []).
Proof.
  unfold run.
  destruct (instances_of self topological_order) as [rq|e] eqn:Hrq.
  - destruct (main_loop E self components_in_cycles fuel _) as [o' st0]
      eqn:Hloop.
    apply main_loop_effects in Hloop. intros Hrun.
    exists (m_heap (main_init self data rq w)). split; [done|]. split; [done|].
    exists (m_heap st0).
    destruct o'; injection Hrun as <- <-; cbn [m_heap final_outputs].
    + split; [done|]. split; [done|].
      split; [by rewrite invocations_emit, app_nil_r|].
      by rewrite yields_emit.
    + split; [|split; [done|]].
      * destruct Hloop as (Hv & Hx & Hne & ys & ns & Hy & Hi & Hk & Hm).
        unfold effects. split; [done|]. split; [by intros ? [=]|].
        split; [done|]. exists ys, ns. auto.
      * split; [by rewrite invocations_emit, app_nil_r|].
        by rewrite yields_emit.
    + split; [done|]. split; [done|]. split; [done|]. by rewrite app_nil_r.
    + split; [done|]. split; [done|]. split; [done|]. by rewrite app_nil_r.
  - apply instances_of_errors in Hrq as ->. intros [= <- <-].
    exists (mkHeap w (init_visits self) data []).
    split; [done|]. split; [done|].
    exists (mkHeap w (init_visits self) data []).
    split; [by apply effects_quiet|]. by rewrite app_nil_r.
Qed.

End MainEffects.

(** X11: a call of [_run_subgraph] made with the visits of every component
    within the budget plus one, whatever its outcome, keeps them so; the
    outputs it returns for the wider graph have no empty entry, and each is
    keyed by a component invoked during the call, whose invocations come
    after those made before it. When the call fails with
    [PipelineMaxComponentRuns], the component named has exactly the
    budget plus one visits. *)
Theorem run_subgraph_keeps_budget_and_outputs {W R : Type}
    (E : @Externals W R) (self : AsyncPipeline) (cycle : list string)
    (component_name : string) (fuel : nat) (h h' : Heap) (o : outcome)
    (outs : dict (dict value)) :
  visits_bounded self (visits h) ->
  _run_subgraph E self cycle component_name fuel h = (o, h', outs) ->
  visits_bounded self (visits h')
  /\ no_empty_entry outs
  /\ (exists ns,
        invocations h' = invocations h ++ ns
        /\ forall n, In n (dkeys outs) -> In n ns)
  /\ (forall name, o = Failed (PipelineMaxComponentRuns name) ->
        dget name (visits h') = Some (_max_runs_per_component self + 1)).
Proof.
  intros Hbound Hrun.
  apply run_subgraph_effects in Hrun
    as (Hv & Hx & Hne & ys & ns & Hy & Hi & Hk & Hm).
  split; [auto|]. split; [apply Hne; by intros ? ? []|]. split.
  - exists ns. split; [done|]. intros n Hn.
    by destruct (Hk n Hn) as [[]|H].
  - intros name ->. destruct (Hx name eq_refl) as (v & Hv' & Hgt).
    pose proof (Hv Hbound name v Hv') as Hle.
    rewrite Hv'. f_equal. lia.
Qed.

Lemma run_subgraph_keeps_budget_and_outputs_witness :
  let r := _run_subgraph Examples.Countdown.E Examples.Countdown.pipeline
                         Examples.Countdown.cycle "a" 10
                         Examples.Countdown.heap in
  visits_bounded Examples.Countdown.pipeline (visits (snd (fst r)))
  /\ no_empty_entry (snd r)
  /\ (exists ns,
        invocations (snd (fst r))
        = invocations Examples.Countdown.heap ++ ns
        /\ forall n, In n (dkeys (snd r)) -> In n ns)
  /\ (forall name, fst (fst r) = Failed (PipelineMaxComponentRuns name) ->
        dget name (visits (snd (fst r)))
        = Some (_max_runs_per_component Examples.Countdown.pipeline + 1)).
Proof.
  apply (run_subgraph_keeps_budget_and_outputs
           Examples.Countdown.E Examples.Countdown.pipeline
           Examples.Countdown.cycle "a" 10 Examples.Countdown.heap).
  - intros name v Hv. simpl in Hv.
    destruct (String.eqb name "a"); [|discriminate Hv].
    injection Hv as <-. simpl. lia.
  - reflexivity.
Defined.

(** X12: throughout a run, whatever its outcome, no component has more
    visits than the budget plus one (for a budget of at least -1, so that
    the initial count of 0 is within it). *)
Theorem run_keeps_visits_within_budget_plus_one {W R : Type}
    (E : @Externals W R) (self : AsyncPipeline) (data : dict (dict value))
    (topological_order : list string)
    (components_in_cycles : dict (list (list string)))
    (fuel : nat) (w : W) (o : outcome) (st : MainState) :
  -1 <= _max_runs_per_component self ->
  run E self data topological_order components_in_cycles fuel w = (o, st) ->
  forall name v, dget name (visits (m_heap st)) = Some v ->
                 v <= _max_runs_per_component self + 1.
Proof.
  intros Hmax Hrun name v Hv.
  apply run_effects in Hrun
    as (h0 & Hv0 & _ & h1 & (Hbound & _) & Hvis & _).
  rewrite Hvis in Hv. eapply Hbound; [|exact Hv].
  intros n vn Hn. rewrite Hv0 in Hn. apply init_visits_zero in Hn. lia.
Qed.

Lemma run_keeps_visits_within_budget_plus_one_witness :
  dget "a" (visits (m_heap (snd (Examples.SelfLoop.outcome_of_run 10))))
  = Some 4
  /\ 4 <= _max_runs_per_component Examples.SelfLoop.pipeline + 1.
Proof.
  split; [reflexivity|].
  apply (run_keeps_visits_within_budget_plus_one
           Examples.SelfLoop.E Examples.SelfLoop.pipeline
           Examples.SelfLoop.data ["a"]
           Examples.SelfLoop.components_in_cycles 10 tt
           (fst (Examples.SelfLoop.outcome_of_run 10))
           (snd (Examples.SelfLoop.outcome_of_run 10))
           ltac:(simpl; lia) eq_refl "a" 4).
  reflexivity.
Defined.

(** X13: when a run fails with [PipelineMaxComponentRuns], the component
    named in the error has exactly the budget plus one visits (for a budget
    of at least -1, so that the initial count of 0 is within the budget
    plus one): it was run once more than the budget allows. *)
Theorem max_runs_error_after_one_run_too_many {W R : Type}
    (E : @Externals W R) (self : AsyncPipeline) (data : dict (dict value))
    (topological_order : list string)
    (components_in_cycles : dict (list (list string)))
    (fuel : nat) (w : W) (name : string) (st : MainState) :
  -1 <= _max_runs_per_component self ->
  run E self data topological_order components_in_cycles fuel w
  = (Failed (PipelineMaxComponentRuns name), st) ->
  dget name (visits (m_heap st)) = Some (_max_runs_per_component self + 1).
Proof.
  intros Hmax Hrun.
  apply run_effects in Hrun
    as (h0 & Hv0 & _ & h1 & (Hbound & Hx & _) & Hvis & _).
  destruct (Hx name eq_refl) as (v & Hv & Hgt).
  rewrite Hvis, Hv. f_equal.
  assert (v <= _max_runs_per_component self + 1); [|lia].
  eapply Hbound; [|exact Hv].
  intros n vn Hn. rewrite Hv0 in Hn. apply init_visits_zero in Hn. lia.
Qed.

Lemma max_runs_error_after_one_run_too_many_witness :
  dget "a" (visits (m_heap (snd (Examples.SelfLoop.outcome_of_run 10))))
  = Some (_max_runs_per_component Examples.SelfLoop.pipeline + 1).
Proof.
  apply (max_runs_error_after_one_run_too_many
           Examples.SelfLoop.E Examples.SelfLoop.pipeline
           Examples.SelfLoop.data ["a"]
           Examples.SelfLoop.components_in_cycles 10 tt "a").
  - simpl. lia.
  - reflexivity.
Defined.



(** X15: a run that ends without an exception yields, before the final
    outputs, exactly one item per component invocation, in the order of
    the invocations, each with the name of the invoked component as its
    only key. *)
Theorem run_yields_one_item_per_invocation {W R : Type}
    (E : @Externals W R) (self : AsyncPipeline) (data : dict (dict value))
    (topological_order : list string)
    (components_in_cycles : dict (list (list string)))
    (fuel : nat) (w : W) (st : MainState) :
  run E self data topological_order components_in_cycles fuel w
  = (Finished, st) ->
  exists items,
    yields (m_heap st) = items ++ [final_outputs st]
    /\ List.map dkeys items
       = List.map (fun name => [name]) (invocations (m_heap st)).
Proof.
  intros Hrun.
  apply run_effects in Hrun
    as (h0 & _ & Hlog & h1 & (_ & _ & _ & ys & ns & Hy & Hi & _ & Hm)
        & _ & Hinv & Hyields).
  assert (Hy0 : yields h0 = []) by (unfold yields; by rewrite Hlog).
  assert (Hi0 : invocations h0 = []) by (unfold invocations; by rewrite Hlog).
  exists ys. rewrite Hyields, Hinv, Hy, Hi, Hy0, Hi0. simpl.
  split; [done|]. by apply Hm.
Qed.

Lemma run_yields_one_item_per_invocation_witness :
  exists items,
    yields (m_heap (snd (Examples.Chain.outcome_of_run 10)))
    = items ++ [final_outputs (snd (Examples.Chain.outcome_of_run 10))]
    /\ List.map dkeys items
       = List.map (fun name => [name])
                  (invocations (m_heap (snd (Examples.Chain.outcome_of_run 10)))).
Proof.
  apply (run_yields_one_item_per_invocation
           Examples.Chain.E Examples.Chain.pipeline Examples.Chain.data
           ["hello"; "hello2"] [] 10 tt).
  reflexivity.
Defined.
